(** * Non-transitive dice game: commit-reveal protocol, probability engine
      and turn sequencing of [game.js] and [index.ts].

    The two programs are embedded side by side ([GameJs], [IndexTs]); what
    they share with the platform (Node's [crypto], the console, the line
    reader) is modelled once, first.  Numbers are the integers the programs
    compute with ([Z]); the one division, of a count by a count, is kept as
    the exact rational. *)

From Stdlib Require Import ZArith NArith String Ascii Bool Lia QArith List.
From Stdlib Require Import Init.Byte DecimalString Permutation.
From Stdlib Require Import Floats.SpecFloat.
From Stdlib Require DecimalPos DecimalZ.
Import ListNotations.
Open Scope Z_scope.

(** ** SHA3-256 and HMAC, as [crypto.createHmac('sha3-256', key)] computes them

    FIPS 202 (Keccak-f[1600], rate 136 bytes, suffix 0x06) and RFC 2104 with
    the rate as block size.  Lanes are 64-bit words held in [N]. *)

Module Sha3.

Definition mask64 : N := N.ones 64.

Definition rotl (x n : N) : N :=
  N.land (N.lor (N.shiftl x n) (N.shiftr x (64 - n))) mask64.

Definition lane (st : list N) (i : nat) : N := nth i st 0%N.

Definition idx5 : list nat := [0; 1; 2; 3; 4]%nat.
Definition idx25 : list nat := seq 0 25.

Definition theta (a : list N) : list N :=
  let c := map (fun x => fold_left N.lxor
                  (map (fun y => lane a (x + 5 * y)) idx5) 0%N) idx5 in
  let d := map (fun x => N.lxor (lane c ((x + 4) mod 5))
                                (rotl (lane c ((x + 1) mod 5)) 1)) idx5 in
  map (fun i => N.lxor (lane a i) (lane d (i mod 5))) idx25.

Definition rot_offsets : list N :=
  [ 0;  1; 62; 28; 27;
   36; 44;  6; 55; 20;
    3; 10; 43; 25; 39;
   41; 45; 15; 21;  8;
   18;  2; 61; 56; 14]%N.

(** rho and pi together: the lane at (x, y) is the rotated lane that stood at
    ((x + 3y) mod 5, x). *)
Definition rho_pi (a : list N) : list N :=
  map (fun j => let x := (j mod 5)%nat in
                let y := (j / 5)%nat in
                let src := (((x + 3 * y) mod 5) + 5 * x)%nat in
                rotl (lane a src) (nth src rot_offsets 0%N)) idx25.

Definition chi (b : list N) : list N :=
  map (fun j => let x := (j mod 5)%nat in
                let y := (j / 5)%nat in
                N.lxor (lane b j)
                  (N.land (N.lxor (lane b (((x + 1) mod 5) + 5 * y)) mask64)
                          (lane b (((x + 2) mod 5) + 5 * y)))) idx25.

Definition round_constants : list N :=
  [0x0000000000000001; 0x0000000000008082; 0x800000000000808A;
   0x8000000080008000; 0x000000000000808B; 0x0000000080000001;
   0x8000000080008081; 0x8000000000008009; 0x000000000000008A;
   0x0000000000000088; 0x0000000080008009; 0x000000008000000A;
   0x000000008000808B; 0x800000000000008B; 0x8000000000008089;
   0x8000000000008003; 0x8000000000008002; 0x8000000000000080;
   0x000000000000800A; 0x800000008000000A; 0x8000000080008081;
   0x8000000000008080; 0x0000000080000001; 0x8000000080008008]%N.

Definition iota (rc : N) (a : list N) : list N :=
  match a with
  | [] => []
  | a0 :: rest => N.lxor a0 rc :: rest
  end.

Definition keccak_round (a : list N) (rc : N) : list N :=
  iota rc (chi (rho_pi (theta a))).

Definition keccak_f (a : list N) : list N :=
  fold_left keccak_round round_constants a.

Definition rate : nat := 136.

(** Eight bytes, least significant first, make a lane. *)
Fixpoint le_lane (bs : list N) : N :=
  match bs with
  | [] => 0
  | b :: rest => b + 256 * le_lane rest
  end%N.

Fixpoint lanes_of (n : nat) (bs : list N) : list N :=
  match n with
  | O => []
  | S n' => le_lane (firstn 8 bs) :: lanes_of n' (skipn 8 bs)
  end.

Fixpoint bytes_of_lane (n : nat) (l : N) : list N :=
  match n with
  | O => []
  | S n' => (l mod 256)%N :: bytes_of_lane n' (l / 256)%N
  end.

Definition xor_block (st : list N) (block : list N) : list N :=
  let ls := lanes_of 17 block in
  map (fun i => N.lxor (lane st i) (lane ls i)) idx25.

Definition pad (len : nat) : list N :=
  let q := (rate - len mod rate)%nat in
  match q with
  | 1%nat => [0x86%N]
  | _ => 0x06%N :: repeat 0%N (q - 2) ++ [0x80%N]
  end.

Fixpoint absorb (n : nat) (st : list N) (data : list N) : list N :=
  match n with
  | O => st
  | S n' => absorb n' (keccak_f (xor_block st (firstn rate data)))
                   (skipn rate data)
  end.

Definition sha3_256_N (msg : list N) : list N :=
  let data := msg ++ pad (length msg) in
  let st := absorb (length data / rate) (repeat 0%N 25) data in
  flat_map (bytes_of_lane 8) (firstn 4 st).

Definition hmac_N (key msg : list N) : list N :=
  let k0 := if (rate <? length key)%nat then sha3_256_N key else key in
  let k := k0 ++ repeat 0%N (rate - length k0) in
  let inner := sha3_256_N (map (N.lxor 0x36) k ++ msg) in
  sha3_256_N (map (N.lxor 0x5c) k ++ inner).

Definition byte_of_N (n : N) : byte :=
  match Byte.of_N (n mod 256) with
  | Some b => b
  | None => x00
  end.

Definition sha3_256 (msg : list byte) : list byte :=
  map byte_of_N (sha3_256_N (map Byte.to_N msg)).

Definition hmac_sha3_256 (key msg : list byte) : list byte :=
  map byte_of_N (hmac_N (map Byte.to_N key) (map Byte.to_N msg)).

End Sha3.

(** ** Buffers and their hexadecimal rendering *)

Definition hex_digit (n : N) : ascii :=
  nth (N.to_nat n)
      ["0"; "1"; "2"; "3"; "4"; "5"; "6"; "7";
       "8"; "9"; "a"; "b"; "c"; "d"; "e"; "f"]%char "0"%char.

(** [buf.toString('hex')] and [.digest('hex')]: two lower-case digits a byte. *)
Fixpoint to_hex (bs : list byte) : string :=
  match bs with
  | [] => EmptyString
  | b :: rest =>
      String (hex_digit (Byte.to_N b / 16))
        (String (hex_digit (Byte.to_N b mod 16)) (to_hex rest))
  end.

Definition hex_value (c : ascii) : option N :=
  let n := N_of_ascii c in
  if ((48 <=? n) && (n <=? 57))%N then Some (n - 48)%N
  else if ((97 <=? n) && (n <=? 102))%N then Some (n - 87)%N
  else if ((65 <=? n) && (n <=? 70))%N then Some (n - 55)%N
  else None.

(** [Buffer.from(s, 'hex')], the reader's way back from a revealed key:
    decoding stops at the first pair that is not two hex digits. *)
Fixpoint of_hex (s : string) : list byte :=
  match s with
  | String hi (String lo rest) =>
      match hex_value hi, hex_value lo with
      | Some h, Some l => Sha3.byte_of_N (16 * h + l) :: of_hex rest
      | _, _ => []
      end
  | _ => []
  end.

Definition bytes_of_string (s : string) : list byte :=
  map byte_of_ascii (list_ascii_of_string s).

(** ** Strings, as the programs read and print them

    Input lines and arguments are strings of 8-bit characters; white space
    and letter case are those of ASCII, and [parseInt] returns the integer
    it reads.  JavaScript agrees with this on ASCII text whose numerals stay
    below 2^53, the [plain_text] defined further down; beyond it, [trim] and
    [parseInt] also skip white space that is not ASCII, and a longer numeral
    is rounded to the nearest double.  What is proved of how a line or an
    argument is read is proved of plain text. *)

Definition is_space (c : ascii) : bool :=
  let n := nat_of_ascii c in
  ((9 <=? n) && (n <=? 13) || (n =? 32))%nat.

Definition is_digit (c : ascii) : bool :=
  let n := nat_of_ascii c in ((48 <=? n) && (n <=? 57))%nat.

Fixpoint skip_spaces (s : string) : string :=
  match s with
  | String c r => if is_space c then skip_spaces r else s
  | EmptyString => EmptyString
  end.

Fixpoint drop_trailing_spaces (s : string) : string :=
  match s with
  | EmptyString => EmptyString
  | String c r =>
      match drop_trailing_spaces r with
      | EmptyString => if is_space c then EmptyString else String c EmptyString
      | r' => String c r'
      end
  end.

(** [s.trim()] *)
Definition trim (s : string) : string := drop_trailing_spaces (skip_spaces s).

Definition upper_char (c : ascii) : ascii :=
  let n := nat_of_ascii c in
  if ((97 <=? n) && (n <=? 122))%nat then ascii_of_nat (n - 32) else c.

(** [s.toUpperCase()] *)
Fixpoint toUpperCase (s : string) : string :=
  match s with
  | EmptyString => EmptyString
  | String c r => String (upper_char c) (toUpperCase r)
  end.

Fixpoint digits_value (acc : Z) (s : string) : Z :=
  match s with
  | String c r =>
      if is_digit c
      then digits_value (10 * acc + (Z.of_nat (nat_of_ascii c) - 48)) r
      else acc
  | EmptyString => acc
  end.

(** [parseInt(s, 10)]: leading white space, an optional sign, then the longest
    run of decimal digits; [None] is NaN. *)
Definition parseInt (s : string) : option Z :=
  let s1 := skip_spaces s in
  let '(neg, s2) :=
    match s1 with
    | String "-"%char r => (true, r)
    | String "+"%char r => (false, r)
    | _ => (false, s1)
    end in
  match s2 with
  | String c _ =>
      if is_digit c
      then Some (if neg then - digits_value 0 s2 else digits_value 0 s2)
      else None
  | EmptyString => None
  end.

(** [s.split(',')]: never empty. *)
Fixpoint split_comma (s : string) : list string :=
  match s with
  | EmptyString => [EmptyString]
  | String c r =>
      if Ascii.eqb c ","%char then EmptyString :: split_comma r
      else match split_comma r with
           | p :: ps => String c p :: ps
           | [] => [String c EmptyString]
           end
  end.

(** [n.toString()] of an integer. *)
Definition toString (n : Z) : string :=
  DecimalString.NilZero.string_of_int (Z.to_int n).

(** ** The world a run lives in

    Standard input is the list of lines still to come; the platform's two
    random sources are tapes of what they will deliver.  Console output is
    write-only, so a computation returns the events it printed rather than
    threading them as state. *)

Record World : Type := mkWorld {
  stdin : list string;      (* lines not yet read *)
  rbytes : list byte;       (* what crypto.randomBytes will hand out *)
  rints : list Z            (* raw draws behind randomInt and Math.random *)
}.

Definition with_stdin (l : list string) (w : World) : World :=
  mkWorld l (rbytes w) (rints w).

Inductive halt : Type :=
| ProcessExit (code : Z)    (* process.exit(code) *)
| AwaitInput                (* the reader waits for a line that never comes *)
| Throw (err : string)      (* an uncaught exception *)
| NoEntropy                 (* a random source has nothing left *)
| OutOfFuel.                (* the bound of a bounded unfolding was reached *)

Inductive outcome (A : Type) : Type :=
| Done (a : A) (w : World)
| Halt (h : halt) (w : World).
Arguments Done {A} a w.
Arguments Halt {A} h w.

Definition M (E A : Type) : Type := World -> list E * outcome A.

Definition ret {E A} (a : A) : M E A := fun w => ([], Done a w).

Definition bind {E A B} (m : M E A) (k : A -> M E B) : M E B :=
  fun w =>
    match m w with
    | (t, Done a w') => let '(t', o) := k a w' in (t ++ t', o)
    | (t, Halt h w') => (t, Halt h w')
    end.

Definition log {E} (e : E) : M E unit := fun w => ([e], Done tt w).

Definition stop {E A} (h : halt) : M E A := fun w => ([], Halt h w).

Definition prepend {E A} (t : list E) (r : list E * outcome A)
  : list E * outcome A := (t ++ fst r, snd r).

Declare Scope js_scope.
Delimit Scope js_scope with js.
Notation "x <- m ;; k" := (bind m (fun x => k))
  (at level 61, m at next level, right associativity) : js_scope.
Notation "' pat <- m ;; k" :=
  (bind m (fun r => match r with pat => k end))
  (at level 61, pat pattern, m at next level, right associativity) : js_scope.
Notation "m ;; k" := (bind m (fun _ => k))
  (at level 61, right associativity) : js_scope.

(** [crypto.randomBytes(n)] *)
Definition randomBytes {E} (n : nat) : M E (list byte) :=
  fun w =>
    if (length (rbytes w) <? n)%nat then ([], Halt NoEntropy w)
    else ([], Done (firstn n (rbytes w))
                   (mkWorld (stdin w) (skipn n (rbytes w)) (rints w))).

(** [crypto.randomInt(max)] and [crypto.randomInt(0, max)]: an integer of
    [0, max), here the next raw draw reduced into the range, so that every
    tape is a possible run and every value of the range can come out; a range
    that is not positive is a RangeError. *)
Definition randomInt {E} (max : Z) : M E Z :=
  fun w =>
    if max <=? 0 then ([], Halt (Throw "ERR_OUT_OF_RANGE") w)
    else match rints w with
         | [] => ([], Halt NoEntropy w)
         | e :: rest =>
             ([], Done (e mod max) (mkWorld (stdin w) (rbytes w) rest))
         end.

(** [Math.floor(Math.random() * n)]: an index of [0, n), and 0 when [n] is
    0. *)
Definition randomIndex {E} (n : Z) : M E Z :=
  fun w =>
    match rints w with
    | [] => ([], Halt NoEntropy w)
    | e :: rest =>
        ([], Done (if n <=? 0 then 0 else e mod n)
                  (mkWorld (stdin w) (rbytes w) rest))
    end.

(** A die is an object: [ident] is its identity (the order of allocation),
    which [===] and [!==] compare; [faces] is its one field. *)
Record Dice : Type := mkDice { ident : nat; faces : list Z }.

Definition same_object (a b : Dice) : bool := (ident a =? ident b)%nat.

(** A JavaScript number that may be [undefined]. *)
Definition jsnum : Type := option Z.

Definition js_gt (a b : jsnum) : bool :=
  match a, b with
  | Some x, Some y => x >? y
  | _, _ => false
  end.

(** [arr[i]] *)
Definition index {A} (l : list A) (i : Z) : option A :=
  if i <? 0 then None else nth_error l (Z.to_nat i).

Inductive party : Type := Computer | User.

(** ** game.js *)

Module GameJs.

Open Scope js_scope.

Definition getFace (d : Dice) (i : Z) : jsnum := index (faces d) i.

Definition getFaces (d : Dice) : list Z := faces d.

Inductive config_error : Type :=
| TooFewDice                                   (* "At least three dice are required. ..." *)
| NotIntegers (arg : string)                   (* "Invalid dice configuration: ..." *)
| NotSixFaces (got : nat) (arg : string).      (* "Each die must have exactly 6 faces. ..." *)

(** The [map] of one argument: the first piece that is not a number throws. *)
Fixpoint parse_values (pieces : list string) : option (list Z) :=
  match pieces with
  | [] => Some []
  | val :: rest =>
      match parseInt (trim val) with
      | None => None
      | Some num =>
          match parse_values rest with
          | None => None
          | Some nums => Some (num :: nums)
          end
      end
  end.

(** The loop of [parseDiceConfigs]; [diceList] grows at its end, and the
    object pushed next is the [length diceList]-th one allocated. *)
Fixpoint parse_args (args : list string) (diceList : list Dice)
  : config_error + list Dice :=
  match args with
  | [] => inr diceList
  | arg :: rest =>
      match parse_values (split_comma arg) with
      | None => inl (NotIntegers arg)
      | Some values =>
          if negb (length values =? 6)%nat
          then inl (NotSixFaces (length values) arg)
          else parse_args rest (diceList ++ [mkDice (length diceList) values])
      end
  end.

Definition parseDiceConfigs (args : list string) : config_error + list Dice :=
  if (length args <? 3)%nat then inl TooFewDice else parse_args args [].

(** The two nested loops and their counter. *)
Definition count_wins (facesA facesB : list Z) : Z :=
  fold_left
    (fun winCount a =>
       fold_left (fun winCount b => if a >? b then winCount + 1 else winCount)
                 facesB winCount)
    facesA 0.

(** Quotients are kept exact: a JavaScript number is the nearest double,
    which [Returned.calculateWinProbability] further down computes. *)
Definition calculateWinProbability (diceA diceB : Dice) : Q :=
  let facesA := getFaces diceA in
  let facesB := getFaces diceB in
  let winCount := count_wins facesA facesB in
  Qmake winCount 36.

(** A row of the table: the die's faces, then per column the probability and
    whether the cell is the die against itself. *)
Definition generateProbabilityTable (diceList : list Dice)
  : list (list Z * list (bool * Q)) :=
  map (fun diceA =>
         (getFaces diceA,
          map (fun diceB =>
                 (same_object diceA diceB,
                  calculateWinProbability diceA diceB)) diceList))
      diceList.

(** [Buffer.from([message])]: one byte, the number reduced to 8 bits. *)
Definition encode (message : Z) : list byte :=
  [Sha3.byte_of_N (Z.to_N (message mod 256))].

Definition computeHMAC (key : list byte) (message : Z) : string :=
  to_hex (Sha3.hmac_sha3_256 key (encode message)).

Record FairRandomGenerator : Type := mkFRG {
  range : Z;
  key : list byte;
  x : Z;
  hmac : string
}.

(** [new FairRandomGenerator(range)] *)
Definition newFairRandomGenerator {E} (range : Z) : M E FairRandomGenerator :=
  key <- randomBytes 32 ;;
  x <- randomInt range ;;
  ret (mkFRG range key x (computeHMAC key x)).

Definition getHMAC (g : FairRandomGenerator) : string := hmac g.

(** [%] is the remainder of the truncated division. *)
Definition computeResult (g : FairRandomGenerator) (y : Z) : Z :=
  Z.rem (x g + y) (range g).

Definition reveal (g : FairRandomGenerator) : Z * string :=
  (x g, to_hex (key g)).

(** What the program prints or asks, one constructor per [console.log] or
    question, with the values it interpolates. *)
Inductive event : Type :=
| LetsDetermine                            (* "Let's determine who makes the first move." *)
| ISelected (hi : Z) (hmac : string)       (* "I selected a random value in 0..hi (HMAC=...)." *)
| AddYourNumber (range : Z)                (* the question of getUserNumber *)
| HelpText                                 (* "The computer commits to a number with an HMAC. ..." *)
| PleaseEnter (range : Z)                  (* "Please enter a number between 0 and ..." *)
| MySelection (x : Z) (key : string)       (* "My selection: x (KEY=key)." *)
| YouSelectFirst                           (* "You guessed correctly! You select first." *)
| ISelectFirst                             (* "I select first." *)
| ChooseYourDie (pool : list Dice)         (* "Choose your die:", the pool listed, "X - exit", "? - help" *)
| YourSelection                            (* the question "Your selection: " *)
| Table (rows : list (list Z * list (bool * Q)))
| InvalidSelection                         (* "Invalid selection. Choose a valid die index." *)
| IChoose (d : Dice)                       (* "I choose the ... die." *)
| TimeForMyRoll
| TimeForYourRoll
| MyNumber (x : Z) (key : string)          (* "My number is x (KEY=key)." *)
| ResultLine (x y r : Z)                   (* "Result: x + y = r (mod 6)." *)
| MyRoll (v : jsnum)                       (* "My roll result is v." *)
| YourRoll (v : jsnum)                     (* "Your roll result is v." *)
| YouWin (u c : jsnum)
| IWin (c u : jsnum)
| Draw (u c : jsnum)
| ErrorMessage (e : config_error).         (* console.error(error.message) *)

(** [getUserNumber], unfolded along the lines still to be read. *)
Fixpoint getUserNumber_from (range : Z) (lines : list string) (w : World)
  : list event * outcome Z :=
  match lines with
  | [] => ([AddYourNumber range], Halt AwaitInput (with_stdin [] w))
  | input :: rest =>
      let trimmed := toUpperCase (trim input) in
      if String.eqb trimmed "X" then
        ([AddYourNumber range], Halt (ProcessExit 0) (with_stdin rest w))
      else if String.eqb trimmed "?" then
        prepend [AddYourNumber range; HelpText]
                (getUserNumber_from range rest w)
      else
        match parseInt trimmed with
        | Some num =>
            if (num >=? 0) && (num <? range)
            then ([AddYourNumber range], Done num (with_stdin rest w))
            else prepend [AddYourNumber range; PleaseEnter range]
                         (getUserNumber_from range rest w)
        | None =>
            prepend [AddYourNumber range; PleaseEnter range]
                    (getUserNumber_from range rest w)
        end
  end.

Definition getUserNumber (range : Z) : M event Z :=
  fun w => getUserNumber_from range (stdin w) w.

(** [selectDice]; [diceList] is [this.diceList], shown in full by the help. *)
Fixpoint selectDice_from (diceList availableDice : list Dice)
    (lines : list string) (w : World) : list event * outcome Dice :=
  match lines with
  | [] => ([ChooseYourDie availableDice; YourSelection],
           Halt AwaitInput (with_stdin [] w))
  | input :: rest =>
      let trimmed := toUpperCase (trim input) in
      if String.eqb trimmed "X" then
        ([ChooseYourDie availableDice; YourSelection],
         Halt (ProcessExit 0) (with_stdin rest w))
      else if String.eqb trimmed "?" then
        prepend [ChooseYourDie availableDice; YourSelection;
                 Table (generateProbabilityTable diceList)]
                (selectDice_from diceList availableDice rest w)
      else
        let retry :=
          prepend [ChooseYourDie availableDice; YourSelection; InvalidSelection]
                  (selectDice_from diceList availableDice rest w) in
        match parseInt trimmed with
        | Some i =>
            if (i >=? 0) && (i <? Z.of_nat (length availableDice))
            then match index availableDice i with
                 | Some d => ([ChooseYourDie availableDice; YourSelection],
                              Done d (with_stdin rest w))
                 | None =>      (* not taken: i is within the array *)
                     ([ChooseYourDie availableDice; YourSelection],
                      Halt (Throw "TypeError") (with_stdin rest w))
                 end
            else retry
        | None => retry
        end
  end.

Definition selectDice (diceList availableDice : list Dice) : M event Dice :=
  fun w => selectDice_from diceList availableDice (stdin w) w.

Definition computerSelectDice (availableDice : list Dice) : M event Dice :=
  i <- randomIndex (Z.of_nat (length availableDice)) ;;
  match index availableDice i with
  | None => stop (Throw "TypeError")      (* selected.getFaces() of undefined *)
  | Some selected => log (IChoose selected) ;; ret selected
  end.

(** The pool left to the second mover: [diceList.filter(d => d !== chosen)]. *)
Definition remaining (diceList : list Dice) (chosen : Dice) : list Dice :=
  filter (fun d => negb (same_object d chosen)) diceList.

(** [start], lines 180-186: who moves first. *)
Definition firstMove : M event Z :=
  log LetsDetermine ;;
  frg <- newFairRandomGenerator 2 ;;
  log (ISelected 1 (getHMAC frg)) ;;
  y <- getUserNumber 2 ;;
  let firstMoveResult := computeResult frg y in
  let '(x, key) := reveal frg in
  log (MySelection x key) ;;
  ret firstMoveResult.

(** [start], lines 188-199: the dice are chosen; the result is
    [(userDice, computerDice)]. *)
Definition chooseDice (diceList : list Dice) (firstMoveResult : Z)
  : M event (Dice * Dice) :=
  if firstMoveResult =? 0 then
    log YouSelectFirst ;;
    userDice <- selectDice diceList diceList ;;
    computerDice <- computerSelectDice (remaining diceList userDice) ;;
    ret (userDice, computerDice)
  else
    log ISelectFirst ;;
    computerDice <- computerSelectDice diceList ;;
    userDice <- selectDice diceList (remaining diceList computerDice) ;;
    ret (userDice, computerDice).

(** [start], lines 201-210: the computer's roll. *)
Definition computerRoll (computerDice : Dice) : M event jsnum :=
  log TimeForMyRoll ;;
  compFrg <- newFairRandomGenerator 6 ;;
  log (ISelected 5 (getHMAC compFrg)) ;;
  compY <- getUserNumber 6 ;;
  let compResult := computeResult compFrg compY in
  let '(compX, compKey) := reveal compFrg in
  log (MyNumber compX compKey) ;;
  log (ResultLine compX compY compResult) ;;
  let compRoll := getFace computerDice compResult in
  log (MyRoll compRoll) ;;
  ret compRoll.

(** [start], lines 212-221: the user's roll. *)
Definition userRoll (userDice : Dice) : M event jsnum :=
  log TimeForYourRoll ;;
  userFrg <- newFairRandomGenerator 6 ;;
  log (ISelected 5 (getHMAC userFrg)) ;;
  userY <- getUserNumber 6 ;;
  let userResult := computeResult userFrg userY in
  let '(userX, userKey) := reveal userFrg in
  log (MyNumber userX userKey) ;;
  log (ResultLine userX userY userResult) ;;
  let userRoll := getFace userDice userResult in
  log (YourRoll userRoll) ;;
  ret userRoll.

(** [start], lines 223-229. *)
Definition announce (userRoll compRoll : jsnum) : M event unit :=
  if js_gt userRoll compRoll then log (YouWin userRoll compRoll)
  else if js_gt compRoll userRoll then log (IWin compRoll userRoll)
  else log (Draw userRoll compRoll).

Definition start (diceList : list Dice) : M event unit :=
  firstMoveResult <- firstMove ;;
  '(userDice, computerDice) <- chooseDice diceList firstMoveResult ;;
  compRoll <- computerRoll computerDice ;;
  userRoll <- userRoll userDice ;;
  announce userRoll compRoll.

(** The script's last lines: build the game from the arguments and start it;
    a configuration error is printed and the process exits with status 1. *)
Definition main (args : list string) : M event unit :=
  match parseDiceConfigs args with
  | inl e => log (ErrorMessage e) ;; stop (ProcessExit 1)
  | inr diceList => start diceList
  end.

End GameJs.

(** ** index.ts *)

Module IndexTs.

Open Scope js_scope.

Definition getFace (d : Dice) (i : Z) : jsnum := index (faces d) i.

Definition numFaces (d : Dice) : Z := Z.of_nat (length (faces d)).

(** The [map] of one argument; no [trim] here, [parseInt] skips the leading
    white space itself. *)
Fixpoint parse_faces (pieces : list string) : option (list Z) :=
  match pieces with
  | [] => Some []
  | num :: rest =>
      match parseInt num with
      | None => None
      | Some parsed =>
          match parse_faces rest with
          | None => None
          | Some ps => Some (parsed :: ps)
          end
      end
  end.

(** The loop of [DiceParser.parse], with its two locals. *)
Fixpoint parse_args (args : list string) (dice : list Dice)
    (faceCount : option nat) : string + list Dice :=
  match args with
  | [] => inr dice
  | arg :: rest =>
      match parse_faces (split_comma arg) with
      | None => inl "Dice faces must be integers."%string
      | Some fs =>
          if (length fs =? 0)%nat
          then inl "Each die must have at least one face."%string
          else
            let push := parse_args rest (dice ++ [mkDice (length dice) fs]) in
            match faceCount with
            | None => push (Some (length fs))
            | Some n =>
                if negb (length fs =? n)%nat
                then inl "All dice must have the same number of faces."%string
                else push faceCount
            end
      end
  end.

Definition parse (args : list string) : string + list Dice :=
  if (length args <? 3)%nat then inl "At least three dice are required."%string
  else parse_args args [] None.

(** [number.toString()], hashed as the bytes of its characters. *)
Definition encode (number : Z) : list byte := bytes_of_string (toString number).

Definition calculateHMAC (key : list byte) (number : Z) : string :=
  to_hex (Sha3.hmac_sha3_256 key (encode number)).

Definition count_wins (faces1 faces2 : list Z) : Z :=
  fold_left
    (fun wins face1 =>
       fold_left (fun wins face2 => if face1 >? face2 then wins + 1 else wins)
                 faces2 wins)
    faces1 0.

(** The quotient is kept exact; [Returned.calculate] further down is the
    number returned. *)
Definition calculate (dice1 dice2 : Dice) : Q :=
  let wins := count_wins (faces dice1) (faces dice2) in
  let total := numFaces dice1 * numFaces dice2 in
  if total >? 0 then (inject_Z wins / inject_Z total)%Q else 0%Q.

(** A row of the rendered table; [None] is the "-" of a die against itself. *)
Definition table_rows (dice : list Dice) : list (list Z * list (option Q)) :=
  map (fun d1 =>
         (faces d1,
          map (fun d2 => if same_object d1 d2 then None
                         else Some (calculate d1 d2)) dice))
      dice.

Inductive event : Type :=
| Published (hi : Z) (hmac : string)         (* "Computer selected a value (0-hi), HMAC: ..." *)
| Menu (prompt : string) (range : Z)         (* the prompt, the numbers 0..range-1, "X - Exit", "? - Show help" *)
| YourChoice                                 (* the question "Your choice: " *)
| InvalidInput                               (* "Invalid input." *)
| Revealed (computerNum : Z) (key : string)  (* "Computer: n (Key: ...)" *)
| ResultLine (computerNum userNum result range : Z)
| Determining                                (* "Determining first selector..." *)
| ComputerChose (d : option Dice)
| YouChose (d : option Dice)
| RollOf (player : string)                   (* "<player>'s roll:" *)
| Rolled (player : string) (v : jsnum)       (* "<player> rolled: v" *)
| WinProbabilityTable (rows : list (list Z * list (option Q)))
| FinalResult (userRoll computerRoll : jsnum)
| YouWin
| ComputerWins
| Tie
| ErrorUsage (message : string).             (* the three console.error lines *)

(** [UserInterface.getNumber]; [None] is [null]. *)
Definition getNumber (range : Z) (prompt : string) : M event (option Z) :=
  fun w =>
    match stdin w with
    | [] => ([Menu prompt range; YourChoice], Halt AwaitInput w)
    | line :: rest =>
        let input := toUpperCase (trim line) in
        let w' := with_stdin rest w in
        if String.eqb input "X" then
          ([Menu prompt range; YourChoice], Halt (ProcessExit 0) w')
        else if String.eqb input "?" then
          ([Menu prompt range; YourChoice], Done None w')
        else
          match parseInt input with
          | Some num =>
              if (num >=? 0) && (num <? range)
              then ([Menu prompt range; YourChoice], Done (Some num) w')
              else ([Menu prompt range; YourChoice; InvalidInput], Done None w')
          | None => ([Menu prompt range; YourChoice; InvalidInput], Done None w')
          end
    end.

Definition ui_selectDice (dice : list Dice) : M event (option Z) :=
  getNumber (Z.of_nat (length dice)) "Select your die:".

(** [FairRandomGenerator.generate] of a generator built with [range]. *)
Definition generate (range : Z) (prompt : string) : M event (option Z) :=
  key <- randomBytes 32 ;;
  computerNum <- randomInt range ;;
  let hmac := calculateHMAC key computerNum in
  log (Published (range - 1) hmac) ;;
  userNum <- getNumber range prompt ;;
  match userNum with
  | None => ret None
  | Some userNum =>
      let result := Z.rem (computerNum + userNum) range in
      log (Revealed computerNum (to_hex key)) ;;
      log (ResultLine computerNum userNum result range) ;;
      ret (Some result)
  end.

Definition determineFirst : M event (option party) :=
  log Determining ;;
  result <- generate 2 "Guess my number (0 or 1):" ;;
  match result with
  | None => ret None
  | Some result => ret (Some (if result =? 0 then Computer else User))
  end.

(** [arr.splice(i, 1)] for [i >= 0]: what was removed, and the array after. *)
Definition splice1 {A} (l : list A) (i : Z) : option A * list A :=
  (index l i, firstn (Z.to_nat i) l ++ skipn (S (Z.to_nat i)) l).

(** [Game.selectDice]; the pair is [[computerDie, userDie]], [None] standing
    for [null] and [undefined] alike. *)
Definition selectDice (dice : list Dice) (first : party)
  : M event (option Dice * option Dice) :=
  let available := dice in
  match first with
  | Computer =>
      compIdx <- randomInt (Z.of_nat (length available)) ;;
      let '(computerDie, available) := splice1 available compIdx in
      log (ComputerChose computerDie) ;;
      userIdx <- ui_selectDice available ;;
      match userIdx with
      | None => ret (None, None)
      | Some userIdx =>
          let userDie := index available userIdx in
          log (YouChose userDie) ;;
          ret (computerDie, userDie)
      end
  | User =>
      userIdx <- ui_selectDice available ;;
      match userIdx with
      | None => ret (None, None)
      | Some userIdx =>
          let '(userDie, available) := splice1 available userIdx in
          log (YouChose userDie) ;;
          compIdx <- randomInt (Z.of_nat (length available)) ;;
          let computerDie := index available compIdx in
          log (ComputerChose computerDie) ;;
          ret (computerDie, userDie)
      end
  end.

(** [Game.roll]; the outer [None] is [null], the inner one [undefined]. *)
Definition roll (die : Dice) (player : string) : M event (option jsnum) :=
  log (RollOf player) ;;
  i <- generate (numFaces die)
         ("Enter a number (0-" ++ toString (numFaces die - 1) ++ "):")%string ;;
  match i with
  | None => ret None
  | Some i =>
      let result := getFace die i in
      log (Rolled player result) ;;
      ret (Some result)
  end.

Definition js_lt (a b : jsnum) : bool := js_gt b a.

Definition render (dice : list Dice) : M event unit :=
  log (WinProbabilityTable (table_rows dice)).

(** [Game.play]: the [while (true)] loop unfolded at most [fuel] times; each
    turn of the loop reads a line, so the lines left bound the unfolding. *)
Fixpoint play (fuel : nat) (dice : list Dice) : M event unit :=
  match fuel with
  | O => stop OutOfFuel
  | S fuel' =>
      first <- determineFirst ;;
      match first with
      | None => render dice ;; play fuel' dice
      | Some first =>
          '(computerDie, userDie) <- selectDice dice first ;;
          match computerDie, userDie with
          | Some computerDie, Some userDie =>
              computerRoll <- roll computerDie "Computer" ;;
              match computerRoll with
              | None => render dice ;; play fuel' dice
              | Some computerRoll =>
                  userRoll <- roll userDie "You" ;;
                  match userRoll with
                  | None => render dice ;; play fuel' dice
                  | Some userRoll =>
                      log (FinalResult userRoll computerRoll) ;;
                      if js_gt userRoll computerRoll then log YouWin
                      else if js_lt userRoll computerRoll then log ComputerWins
                      else log Tie
                  end
              end
          | _, _ => render dice ;; play fuel' dice
          end
      end
  end.

(** The script's last lines; an exception of [parse] or of [play] is caught,
    reported, and the process exits with status 1. *)
Definition main (fuel : nat) (args : list string) : M event unit :=
  fun w =>
    match parse args with
    | inl message => ([ErrorUsage message], Halt (ProcessExit 1) w)
    | inr dice =>
        match play fuel dice w with
        | (t, Halt (Throw message) w') =>
            (t ++ [ErrorUsage message], Halt (ProcessExit 1) w')
        | r => r
        end
    end.

End IndexTs.

(** ** Vocabulary of the specification *)

(** The ordered face pairs of the full cross product in which the first
    die's face is the strictly greater one, counted. *)
Definition wins_over (facesA facesB : list Z) : nat :=
  length (filter (fun p => fst p >? snd p) (list_prod facesA facesB)).

Definition ties_between (facesA facesB : list Z) : nat :=
  length (filter (fun p => fst p =? snd p) (list_prod facesA facesB)).

Definition cross_size (A B : Dice) : Z :=
  Z.of_nat (length (faces A) * length (faces B)).

(** The probability the specification describes: winning pairs over
    |facesA| x |facesB|. *)
Definition win_fraction (A B : Dice) : Q :=
  (inject_Z (Z.of_nat (wins_over (faces A) (faces B)))
   / inject_Z (cross_size A B))%Q.


(** The lines the help input is recognised among. *)
Definition is_help (line : string) : Prop :=
  toUpperCase (trim line) = "?"%string.

Definition distinct_objects (pool : list Dice) : Prop :=
  NoDup (map ident pool).

(** Three dice and a world used by the worked runs. *)
Definition demo_args : list string :=
  ["2,2,4,4,9,9"; "1,1,6,6,8,8"; "3,3,5,5,7,7"]%string.

Definition dieA : Dice := mkDice 0 [2; 2; 4; 4; 9; 9].
Definition dieB : Dice := mkDice 1 [1; 1; 6; 6; 8; 8].
Definition dieC : Dice := mkDice 2 [3; 3; 5; 5; 7; 7].
Definition demo_dice : list Dice := [dieA; dieB; dieC].

(** Dice no parser of [game.js] lets through, but its functions accept. *)
Definition three_faces : Dice := mkDice 3 [1; 6; 8].
Definition low_three : Dice := mkDice 4 [1; 2; 3].
Definition flat_three : Dice := mkDice 5 [2; 2; 2].
Definition lone_two : Dice := mkDice 6 [2].
Definition lone_one : Dice := mkDice 7 [1].
Definition seven_twos : Dice := mkDice 8 (repeat 2 7).
Definition seven_ones : Dice := mkDice 9 (repeat 1 7).

Definition zero_key : list byte := repeat x00 32.

Definition demo_world (lines : list string) (draws : list Z) : World :=
  mkWorld lines (repeat x00 256) draws.
(** What the random tapes hold in store for the next commitment over
    [range]: the key is the next 32 bytes, the secret the next draw. *)
Definition next_commitment (range : Z) (w : World)
  : option (list byte * Z * World) :=
  if (length (rbytes w) <? 32)%nat then None
  else if range <=? 0 then None
  else match rints w with
       | [] => None
       | e :: rest =>
           Some (firstn 32 (rbytes w), e mod range,
                 mkWorld (stdin w) (skipn 32 (rbytes w)) rest)
       end.

(** Going through the events of an explicit trace for the one that is [H]. *)
Ltac pick_event H :=
  cbn in H;
  repeat (destruct H as [H|H]; [try discriminate H|]);
  try contradiction.

(** *** Reading a trace *)

(** The events up to, and without, the first one that satisfies [p]. *)
Fixpoint until {E} (p : E -> bool) (t : list E) : list E :=
  match t with
  | [] => []
  | e :: rest => if p e then [] else e :: until p rest
  end.

Definition without {E} (p : E -> bool) (t : list E) : list E :=
  filter (fun e => negb (p e)) t.

(** The digests [game.js] publishes, and the (secret, key) pairs it reveals. *)
Definition js_published (t : list GameJs.event) : list string :=
  flat_map (fun e => match e with
                     | GameJs.ISelected _ d => [d]
                     | _ => []
                     end) t.

Definition js_revealed (t : list GameJs.event) : list (Z * string) :=
  flat_map (fun e => match e with
                     | GameJs.MySelection x k | GameJs.MyNumber x k => [(x, k)]
                     | _ => []
                     end) t.

(** The events of [getUserNumber] alone. *)
Definition js_prompt (e : GameJs.event) : bool :=
  match e with
  | GameJs.AddYourNumber _ | GameJs.HelpText | GameJs.PleaseEnter _ => true
  | _ => false
  end.

Definition js_question (e : GameJs.event) : bool :=
  match e with
  | GameJs.AddYourNumber _ | GameJs.YourSelection => true
  | _ => false
  end.

(** What a help request adds to the console of [game.js]. *)
Definition js_display (e : GameJs.event) : bool :=
  match e with
  | GameJs.AddYourNumber _ | GameJs.HelpText => true
  | _ => false
  end.

(** Who [game.js] announces as the first to select. *)
Fixpoint js_first_mover (t : list GameJs.event) : option party :=
  match t with
  | [] => None
  | GameJs.YouSelectFirst :: _ => Some User
  | GameJs.ISelectFirst :: _ => Some Computer
  | _ :: rest => js_first_mover rest
  end.

(** The pools [game.js] lists to the user. *)
Definition js_pools_shown (t : list GameJs.event) : list (list Dice) :=
  flat_map (fun e => match e with
                     | GameJs.ChooseYourDie pool => [pool]
                     | _ => []
                     end) t.

Definition ts_published (t : list IndexTs.event) : list string :=
  flat_map (fun e => match e with
                     | IndexTs.Published _ d => [d]
                     | _ => []
                     end) t.

Definition ts_revealed (t : list IndexTs.event) : list (Z * string) :=
  flat_map (fun e => match e with
                     | IndexTs.Revealed x k => [(x, k)]
                     | _ => []
                     end) t.

Definition ts_question (e : IndexTs.event) : bool :=
  match e with
  | IndexTs.Menu _ _ | IndexTs.YourChoice => true
  | _ => false
  end.

(** What a help request adds to the console of [index.ts]. *)
Definition ts_display (e : IndexTs.event) : bool :=
  match e with
  | IndexTs.Menu _ _ | IndexTs.YourChoice | IndexTs.WinProbabilityTable _ => true
  | _ => false
  end.

Definition ts_restarts (t : list IndexTs.event) : nat :=
  length (filter (fun e => match e with
                           | IndexTs.Determining => true
                           | _ => false
                           end) t).

(** What each session of [game.js] prints once the number is in. *)
Definition firstMove_tail (k : list byte) (x y : Z) : list GameJs.event :=
  [GameJs.MySelection x (to_hex k)].

Definition computerRoll_tail (d : Dice) (k : list byte) (x y : Z)
  : list GameJs.event :=
  [GameJs.MyNumber x (to_hex k); GameJs.ResultLine x y (Z.rem (x + y) 6);
   GameJs.MyRoll (GameJs.getFace d (Z.rem (x + y) 6))].

Definition userRoll_tail (d : Dice) (k : list byte) (x y : Z)
  : list GameJs.event :=
  [GameJs.MyNumber x (to_hex k); GameJs.ResultLine x y (Z.rem (x + y) 6);
   GameJs.YourRoll (GameJs.getFace d (Z.rem (x + y) 6))].

(** Every index a roll computes is below the face count of the die, and
    every value rolled is the face of the die at such an index. *)
Definition js_rolls_on (d : Dice) (t : list GameJs.event) : Prop :=
  (forall x y r, In (GameJs.ResultLine x y r) t ->
                 0 <= r < Z.of_nat (length (faces d))) /\
  (forall v, In (GameJs.MyRoll v) t \/ In (GameJs.YourRoll v) t ->
             exists r z, 0 <= r < Z.of_nat (length (faces d)) /\
                         v = GameJs.getFace d r /\
                         v = Some z /\ In z (faces d)).

Definition ts_rolls_on (d : Dice) (t : list IndexTs.event) : Prop :=
  (forall x y r n, In (IndexTs.ResultLine x y r n) t ->
                   n = IndexTs.numFaces d /\ 0 <= r < IndexTs.numFaces d) /\
  (forall p v, In (IndexTs.Rolled p v) t ->
               exists r z, 0 <= r < IndexTs.numFaces d /\
                           v = IndexTs.getFace d r /\
                           v = Some z /\ In z (faces d)).

(** No roll printed is [undefined]. *)
Definition js_rolls_defined (t : list GameJs.event) : Prop :=
  forall v, In (GameJs.MyRoll v) t \/ In (GameJs.YourRoll v) t ->
            exists z, v = Some z.

Definition ts_rolls_defined (t : list IndexTs.event) : Prop :=
  forall p v, In (IndexTs.Rolled p v) t -> exists z, v = Some z.

(** A computation that only consumes input and never stops for lack of
    fuel; [strict] when it reads at least one line before returning. *)
Definition advances {E A} (strict : bool) (m : M E A) : Prop :=
  forall w t o,
    m w = (t, o) ->
    match o with
    | Done _ w' =>
        if strict then (length (stdin w') < length (stdin w))%nat
        else (length (stdin w') <= length (stdin w))%nat
    | Halt h _ => h <> OutOfFuel
    end.

(** *** The properties of a session, as the specification words them *)

(** Whatever is revealed recomputes to the one digest that was published. *)
Definition reveals_verify {E A}
    (published : list E -> list string) (revealed : list E -> list (Z * string))
    (keyedHash : list byte -> Z -> string) (s : M E A) : Prop :=
  forall w x k,
    In (x, k) (revealed (fst (s w))) ->
    exists d, published (fst (s w)) = [d] /\ keyedHash (of_hex k) x = d.

(** The digest is computed and out before the counterpart is asked.  When
    the random tapes hold a commitment, the session does put its question,
    and what it has published up to the first question is the one digest of
    the whole session: the keyed hash of the drawn secret under the drawn
    key.  When they hold none, nothing is published and nothing asked.  And
    nothing printed up to the first question, nor any digest at all, depends
    on the lines the counterpart will type. *)
Definition digest_precedes_input {E A}
    (published : list E -> list string) (question : E -> bool)
    (keyedHash : list byte -> Z -> string) (range : Z) (s : M E A) : Prop :=
  (forall w,
      match next_commitment range w with
      | Some (k, x, _) =>
          (exists e, In e (fst (s w)) /\ question e = true) /\
          published (until question (fst (s w))) = [keyedHash k x] /\
          published (fst (s w)) = [keyedHash k x]
      | None =>
          published (fst (s w)) = [] /\
          forall e, In e (fst (s w)) -> question e = false
      end) /\
  forall w1 w2,
    rbytes w1 = rbytes w2 -> rints w1 = rints w2 ->
    until question (fst (s w1)) = until question (fst (s w2)) /\
    published (fst (s w1)) = published (fst (s w2)).

(** A help line is a side query: when the computation gets to ask its
    question, then with the line or without it it ends in the same state with
    the same result, and prints the same but for the display. *)
Definition side_query {E A} (display question : E -> bool) (s : M E A)
  : Prop :=
  forall line rest w,
    is_help line ->
    (exists e, In e (fst (s (with_stdin (line :: rest) w))) /\
               question e = true) ->
    snd (s (with_stdin (line :: rest) w)) = snd (s (with_stdin rest w)) /\
    without display (fst (s (with_stdin (line :: rest) w)))
    = without display (fst (s (with_stdin rest w))).

(** *** Vocabulary of the further properties *)

(** Dice allocated one after another, one per list of faces, the first with
    identity [first]. *)
Fixpoint number_dice (first : nat) (vss : list (list Z)) : list Dice :=
  match vss with
  | [] => []
  | vs :: rest => mkDice first vs :: number_dice (S first) rest
  end.

(** The ways a game may stop short that are no failure of the program: the
    user asked to exit, the input ran dry, or the random tapes did. *)
Definition benign (h : halt) : Prop :=
  h = ProcessExit 0 \/ h = AwaitInput \/ h = NoEntropy.

(** Whenever [m] stops short, it is for a reason in [P]. *)
Definition halts_in {E A} (P : halt -> Prop) (m : M E A) : Prop :=
  forall w t h w', m w = (t, Halt h w') -> P h.

(** A line the question of a session passes over: not the exit letter, and
    either a help request or no integer of the range. *)
Definition passed_over (range : Z) (line : string) : Prop :=
  toUpperCase (trim line) <> "X"%string /\
  (is_help line \/
   forall n, parseInt (toUpperCase (trim line)) = Some n ->
             ~ 0 <= n < range).

(** What [getUserNumber] prints for the lines it passes over. *)
Definition js_reprompts (range : Z) (skipped : list string)
  : list GameJs.event :=
  flat_map (fun l => [GameJs.AddYourNumber range;
                      if String.eqb (toUpperCase (trim l)) "?"
                      then GameJs.HelpText
                      else GameJs.PleaseEnter range]) skipped.

(** What [selectDice] of [game.js] prints for the lines it passes over. *)
Definition js_reselects (diceList pool : list Dice) (skipped : list string)
  : list GameJs.event :=
  flat_map (fun l => [GameJs.ChooseYourDie pool; GameJs.YourSelection;
                      if String.eqb (toUpperCase (trim l)) "?"
                      then GameJs.Table
                             (GameJs.generateProbabilityTable diceList)
                      else GameJs.InvalidSelection]) skipped.

(** The verdict [game.js] prints for two rolls: the strictly greater wins. *)
Definition js_verdict (userRoll compRoll : Z) : GameJs.event :=
  if userRoll >? compRoll then GameJs.YouWin (Some userRoll) (Some compRoll)
  else if compRoll >? userRoll then GameJs.IWin (Some compRoll) (Some userRoll)
  else GameJs.Draw (Some userRoll) (Some compRoll).

Definition js_outcome (e : GameJs.event) : bool :=
  match e with
  | GameJs.YouWin _ _ | GameJs.IWin _ _ | GameJs.Draw _ _ => true
  | _ => false
  end.

(** The rolls [game.js] prints, in order. *)
Definition js_rolls (t : list GameJs.event) : list jsnum :=
  flat_map (fun e => match e with
                     | GameJs.MyRoll v | GameJs.YourRoll v => [v]
                     | _ => []
                     end) t.

(** Every event [m] prints satisfies [P], however the run ends. *)
Definition emits {E A} (P : E -> Prop) (m : M E A) : Prop :=
  forall w, Forall P (fst (m w)).

(** The verdict [index.ts] prints for two rolls. *)
Definition ts_verdict (userRoll computerRoll : Z) : IndexTs.event :=
  if userRoll >? computerRoll then IndexTs.YouWin
  else if userRoll <? computerRoll then IndexTs.ComputerWins
  else IndexTs.Tie.

(** The lines that close a game of [index.ts]. *)
Definition ts_final (e : IndexTs.event) : bool :=
  match e with
  | IndexTs.FinalResult _ _ | IndexTs.YouWin | IndexTs.ComputerWins
  | IndexTs.Tie => true
  | _ => false
  end.

(** The rolls [index.ts] prints, in order, each with its player. *)
Definition ts_rolled (t : list IndexTs.event) : list (string * jsnum) :=
  flat_map (fun e => match e with
                     | IndexTs.Rolled p v => [(p, v)]
                     | _ => []
                     end) t.

(** An event that is neither a closing line nor a roll. *)
Definition ts_plain (e : IndexTs.event) : Prop :=
  ts_final e = false /\ forall p v, e <> IndexTs.Rolled p v.

(** Whether a text begins with a decimal digit. *)
Definition starts_with_digit (s : string) : bool :=
  match s with
  | String c _ => is_digit c
  | EmptyString => false
  end.

(** What [parseInt] makes of the text after the sign. *)
Definition unsigned (neg : bool) (s2 : string) : option Z :=
  match s2 with
  | String c _ =>
      if is_digit c
      then Some (if neg then - digits_value 0 s2 else digits_value 0 s2)
      else None
  | EmptyString => None
  end.

(** The sessions of a run over the random bytes [bs], each with its secret
    and whether it was opened: a session takes the next 32 bytes as key. *)
Fixpoint commitments (bs : list byte) (ss : list (Z * bool))
  : list (list byte * Z * bool) :=
  match ss with
  | [] => []
  | (x, opened) :: rest =>
      (firstn 32 bs, x, opened) :: commitments (skipn 32 bs) rest
  end.

Definition digest_of (hmac : list byte -> Z -> string)
    (c : list byte * Z * bool) : string :=
  hmac (fst (fst c)) (snd (fst c)).

Definition opening_of (c : list byte * Z * bool) : Z * string :=
  (snd (fst c), to_hex (fst (fst c))).

Definition opened (c : list byte * Z * bool) : bool := snd c.

(** What [m] publishes and reveals is the digests, and the openings of the
    opened ones, of sessions keyed by successive blocks of the random
    bytes; [m] uses up these blocks and no other byte. *)
Definition fresh_keys {E A} (hmac : list byte -> Z -> string)
    (pub : E -> list string) (rev : E -> list (Z * string)) (m : M E A)
  : Prop :=
  forall w t o,
    m w = (t, o) ->
    exists ss,
      (32 * length ss <= length (rbytes w))%nat /\
      flat_map pub t = map (digest_of hmac) (commitments (rbytes w) ss) /\
      flat_map rev t
      = map opening_of (filter opened (commitments (rbytes w) ss)) /\
      match o with
      | Done _ w' => rbytes w' = skipn (32 * length ss) (rbytes w)
      | Halt _ _ => True
      end.

(** ** Numbers

    A JavaScript number is an IEEE 754 binary64: 53 bits of precision,
    exponents below 1024, rounding to the nearest, ties to even.  The
    operations are those of the Standard Library's executable specification
    of IEEE arithmetic. *)

Module Double.

(** The double of an integer literal or of an integer counter. *)
Definition of_Z (z : Z) : spec_float := binary_normalize 53 1024 z 0 false.

(** [x / y] *)
Definition div (x y : spec_float) : spec_float := SFdiv 53 1024 x y.


Definition eqb (x y : spec_float) : bool := SFeqb x y.



End Double.

(** What the two calculators return, as the numbers they are: the same
    counts as in [GameJs.calculateWinProbability] and [IndexTs.calculate],
    divided in floating point. *)
Module Returned.

(** game.js, [winCount / 36] *)
Definition calculateWinProbability (diceA diceB : Dice) : spec_float :=
  let facesA := GameJs.getFaces diceA in
  let facesB := GameJs.getFaces diceB in
  let winCount := GameJs.count_wins facesA facesB in
  Double.div (Double.of_Z winCount) (Double.of_Z 36).

(** index.ts, [total > 0 ? wins / total : 0] *)
Definition calculate (dice1 dice2 : Dice) : spec_float :=
  let wins := IndexTs.count_wins (faces dice1) (faces dice2) in
  let total := IndexTs.numFaces dice1 * IndexTs.numFaces dice2 in
  if total >? 0 then Double.div (Double.of_Z wins) (Double.of_Z total)
  else Double.of_Z 0.

End Returned.





(** The rolls [game.js] prints, in order, each with the player whose roll
    the line says it is. *)
Definition js_rolled (t : list GameJs.event) : list (party * jsnum) :=
  flat_map (fun e => match e with
                     | GameJs.MyRoll v => [(Computer, v)]
                     | GameJs.YourRoll v => [(User, v)]
                     | _ => []
                     end) t.

(** The results of the "Result: x + y = r (mod 6)." lines, in order. *)
Definition js_results (t : list GameJs.event) : list Z :=
  flat_map (fun e => match e with
                     | GameJs.ResultLine _ _ r => [r]
                     | _ => []
                     end) t.

(** Text that the definitions above read just as JavaScript does.  Every
    character is ASCII, where the white space of [trim] and [parseInt] is
    that of [is_space] and the capitals of [toUpperCase] those of
    [upper_char]; and no numeral has more than 15 digits, so that the
    integer [parseInt] reads is below 2^53 and is itself the number
    returned.  [run] counts the digits just passed. *)
Fixpoint plain_from (run : nat) (s : string) : bool :=
  match s with
  | EmptyString => true
  | String c r =>
      (nat_of_ascii c <? 128)%nat &&
      (if is_digit c then (run <? 15)%nat && plain_from (S run) r
       else plain_from 0 r)
  end.

Definition plain_text (s : string) : bool := plain_from 0 s.

(** An integer that a number holds exactly. *)
Definition exact_number (z : Z) : Prop := Z.abs z < 10 ^ 15.

Example sha3_empty :
  to_hex (Sha3.sha3_256 []) =
  "a7ffc6f8bf1ed76651c14756a061d662f580ff4de43b49fa82d80a4b80f8434a"%string.
Proof. vm_compute. reflexivity. Qed.

Example hmac_nist_sample :
  to_hex (Sha3.hmac_sha3_256
            (map Sha3.byte_of_N (map N.of_nat (seq 0 32)))
            (bytes_of_string "Sample message for keylen<blocklen")) =
  "4fe8e202c4f058e8dddc23d8c34e467343e23555e24fc2f025d598f558f67205"%string.
Proof. vm_compute. reflexivity. Qed.

(** ** The probability engine *)

Section Counting.

Lemma inner_loop_counts (a : Z) (facesB : list Z) (c : Z) :
  fold_left (fun winCount b => if a >? b then winCount + 1 else winCount)
            facesB c
  = c + Z.of_nat (length (filter (fun b => a >? b) facesB)).
Proof.
  revert c; induction facesB as [|b l IH]; intro c; simpl.
  - lia.
  - rewrite IH. destruct (a >? b); simpl length; lia.
Qed.

Lemma filter_pairs_with (p : Z -> Z -> bool) (a : Z) (l : list Z) :
  length (filter (fun q => p (fst q) (snd q)) (map (pair a) l))
  = length (filter (p a) l).
Proof.
  induction l as [|b l IH]; simpl; [reflexivity|].
  destruct (p a b); simpl; rewrite IH; reflexivity.
Qed.

Lemma count_cons_left (p : Z -> Z -> bool) (a : Z) (A B : list Z) :
  length (filter (fun q => p (fst q) (snd q)) (list_prod (a :: A) B))
  = (length (filter (p a) B)
     + length (filter (fun q => p (fst q) (snd q)) (list_prod A B)))%nat.
Proof.
  simpl. rewrite filter_app, length_app, filter_pairs_with. reflexivity.
Qed.

Lemma count_cons_right (p : Z -> Z -> bool) (a : Z) (A B : list Z) :
  length (filter (fun q => p (fst q) (snd q)) (list_prod B (a :: A)))
  = (length (filter (fun b => p b a) B)
     + length (filter (fun q => p (fst q) (snd q)) (list_prod B A)))%nat.
Proof.
  induction B as [|b B IH].
  - reflexivity.
  - rewrite !count_cons_left, IH. simpl.
    destruct (p b a); simpl; lia.
Qed.

Lemma outer_loop_counts (facesA facesB : list Z) (c : Z) :
  fold_left
    (fun winCount a =>
       fold_left (fun winCount b => if a >? b then winCount + 1 else winCount)
                 facesB winCount)
    facesA c
  = c + Z.of_nat (wins_over facesA facesB).
Proof.
  revert c; induction facesA as [|a A IH]; intro c.
  - simpl. unfold wins_over. simpl. lia.
  - simpl fold_left. rewrite IH, inner_loop_counts.
    unfold wins_over. rewrite (count_cons_left Z.gtb).
    change (Z.gtb a) with (fun b => a >? b). lia.
Qed.

Lemma count_wins_js (facesA facesB : list Z) :
  GameJs.count_wins facesA facesB = Z.of_nat (wins_over facesA facesB).
Proof. unfold GameJs.count_wins. rewrite outer_loop_counts. lia. Qed.

Lemma count_wins_ts (faces1 faces2 : list Z) :
  IndexTs.count_wins faces1 faces2 = Z.of_nat (wins_over faces1 faces2).
Proof. unfold IndexTs.count_wins. rewrite outer_loop_counts. lia. Qed.

Lemma trichotomy_row (a : Z) (B : list Z) :
  (length (filter (fun b => a >? b)%Z B)
   + length (filter (fun b => b >? a)%Z B)
   + length (filter (fun b => a =? b)%Z B) = length B)%nat.
Proof.
  induction B as [|b B IH]; simpl; [reflexivity|].
  destruct (Z.gtb_spec a b), (Z.gtb_spec b a), (Z.eqb_spec a b);
    simpl; lia.
Qed.

Lemma trichotomy_cross (A B : list Z) :
  (wins_over A B + wins_over B A + ties_between A B
   = length A * length B)%nat.
Proof.
  unfold wins_over, ties_between.
  induction A as [|a A IH].
  - simpl. induction B; simpl; auto.
  - rewrite (count_cons_left Z.gtb), (count_cons_right Z.gtb),
            (count_cons_left Z.eqb).
    pose proof (trichotomy_row a B) as H.
    change (fun b => a >? b) with (Z.gtb a) in H.
    change (fun b => a =? b) with (Z.eqb a) in H.
    simpl length. lia.
Qed.

Lemma wins_le_cross (A B : list Z) :
  (wins_over A B <= length A * length B)%nat.
Proof. pose proof (trichotomy_cross A B). lia. Qed.

End Counting.

Section Fractions.


Lemma cross_size_pos (A B : Dice) :
  faces A <> [] -> faces B <> [] -> 0 < cross_size A B.
Proof.
  unfold cross_size. intros HA HB.
  destruct (faces A); [easy|]. destruct (faces B); [easy|]. simpl. lia.
Qed.

Lemma calculate_fraction_ts (A B : Dice) :
  (IndexTs.calculate A B == win_fraction A B)%Q.
Proof.
  unfold IndexTs.calculate, win_fraction, IndexTs.numFaces, cross_size.
  rewrite count_wins_ts, <- Nat2Z.inj_mul.
  destruct (Z.gtb_spec (Z.of_nat (length (faces A) * length (faces B))) 0)
    as [Hpos|Hz].
  - reflexivity.
  - replace (Z.of_nat (length (faces A) * length (faces B))) with 0 by lia.
    unfold Qdiv. simpl. now rewrite Qmult_0_r.
Qed.

Lemma calculate_fraction_js (A B : Dice) :
  (length (faces A) * length (faces B) = 36)%nat ->
  (GameJs.calculateWinProbability A B == win_fraction A B)%Q.
Proof.
  intro H.
  unfold GameJs.calculateWinProbability, GameJs.getFaces, win_fraction,
    cross_size.
  rewrite count_wins_js, H. apply Qmake_Qdiv.
Qed.



End Fractions.

(** C2, as amended.  [index.ts]: for dice with at least one face each, of
    equal or differing face counts, [calculate] is the number of ordered face
    pairs (fa, fb) with fa > fb of the full cross product, divided by
    |facesA| x |facesB|.  [game.js]: [calculateWinProbability] divides that
    number by the constant 36, which is |facesA| x |facesB| when the product
    of the face counts is 36, as for the six-faced dice its parser admits. *)
Theorem win_probability_is_pair_fraction :
  (forall A B : Dice,
      faces A <> [] -> faces B <> [] ->
      (IndexTs.calculate A B == win_fraction A B)%Q) /\
  (forall A B : Dice,
      (length (faces A) * length (faces B) = 36)%nat ->
      (GameJs.calculateWinProbability A B == win_fraction A B)%Q).
Proof.
  split.
  - intros A B _ _. apply calculate_fraction_ts.
  - apply calculate_fraction_js.
Qed.

Lemma win_probability_is_pair_fraction_witness :
  (IndexTs.calculate dieA three_faces == win_fraction dieA three_faces /\
   GameJs.calculateWinProbability dieA dieB == win_fraction dieA dieB)%Q.
Proof.
  split.
  - apply (proj1 win_probability_is_pair_fraction); discriminate.
  - apply (proj2 win_probability_is_pair_fraction); reflexivity.
Defined.

(** C2 as stated fails on [game.js]: a one-faced die [2] against a one-faced
    die [1] wins the single pair, 1 / (1 x 1), and the code answers 1/36. *)
Lemma win_probability_js_one_face :
  (GameJs.calculateWinProbability lone_two lone_one == 1 # 36 /\
   win_fraction lone_two lone_one == 1 /\
   ~ GameJs.calculateWinProbability lone_two lone_one
     == win_fraction lone_two lone_one)%Q.
Proof.
  repeat split; try reflexivity.
  intro H. vm_compute in H. discriminate H.
Qed.

Section Numbers.




End Numbers.




(** ** Buffers: the hexadecimal rendering can be read back *)

Lemma hex_pair_of_byte (b : byte) :
  hex_value (hex_digit (Byte.to_N b / 16)) = Some (Byte.to_N b / 16)%N /\
  hex_value (hex_digit (Byte.to_N b mod 16)) = Some (Byte.to_N b mod 16)%N /\
  Sha3.byte_of_N (16 * (Byte.to_N b / 16) + Byte.to_N b mod 16) = b.
Proof. destruct b; vm_compute; repeat split; reflexivity. Qed.

Lemma of_hex_to_hex (bs : list byte) : of_hex (to_hex bs) = bs.
Proof.
  induction bs as [|b bs IH]; [reflexivity|].
  destruct (hex_pair_of_byte b) as (Hhi & Hlo & Hb).
  cbn [to_hex of_hex]. rewrite Hhi, Hlo, Hb, IH. reflexivity.
Qed.

Lemma to_hex_injective (k1 k2 : list byte) : to_hex k1 = to_hex k2 -> k1 = k2.
Proof.
  intro H. rewrite <- (of_hex_to_hex k1), <- (of_hex_to_hex k2).
  now rewrite H.
Qed.

(** ** Running computations *)

Section Runs.
Context {E : Type}.

Lemma bind_run {A B} (m : M E A) (k : A -> M E B) (w : World) :
  bind m k w =
  match m w with
  | (t, Done a w') => prepend t (k a w')
  | (t, Halt h w') => (t, Halt h w')
  end.
Proof.
  unfold bind, prepend. destruct (m w) as [t [a w'|h w']]; [|reflexivity].
  destruct (k a w'); reflexivity.
Qed.

Lemma prepend_nil {A} (r : list E * outcome A) : prepend [] r = r.
Proof. destruct r; reflexivity. Qed.

Lemma prepend_prepend {A} (t1 t2 : list E) (r : list E * outcome A) :
  prepend t1 (prepend t2 r) = prepend (t1 ++ t2) r.
Proof. unfold prepend. simpl. now rewrite app_assoc. Qed.

Lemma randomInt_in_range (max : Z) (w : World) t (n : Z) w' :
  randomInt (E:=E) max w = (t, Done n w') ->
  0 <= n < max /\ t = [] /\ stdin w' = stdin w /\ rbytes w' = rbytes w.
Proof.
  unfold randomInt. destruct (Z.leb_spec max 0) as [Hle|Hpos]; [discriminate|].
  destruct (rints w) as [|e rest]; [discriminate|].
  intro Hrun; inversion Hrun; subst; clear Hrun. simpl.
  pose proof (Z.mod_pos_bound e max). intuition lia.
Qed.

End Runs.

(** ** game.js: reading the counterpart's number *)

Section JsInput.
Import GameJs.

Lemma getUserNumber_help (range : Z) (line : string) (rest : list string)
    (w : World) :
  is_help line ->
  getUserNumber_from range (line :: rest) w
  = prepend [AddYourNumber range; HelpText] (getUserNumber_from range rest w).
Proof.
  unfold is_help. intro H. cbn [getUserNumber_from]. rewrite H. reflexivity.
Qed.

Lemma getUserNumber_from_frame (range : Z) (lines : list string) (w v : World) :
  rbytes w = rbytes v -> rints w = rints v ->
  getUserNumber_from range lines w = getUserNumber_from range lines v.
Proof.
  intros Hb Hi. induction lines as [|l lines IH]; cbn [getUserNumber_from].
  - unfold with_stdin. now rewrite Hb, Hi.
  - rewrite IH. unfold with_stdin. rewrite Hb, Hi. reflexivity.
Qed.

Lemma getUserNumber_from_spec (range : Z) (lines : list string) (w : World)
    t o :
  getUserNumber_from range lines w = (t, o) ->
  (exists t', t = AddYourNumber range :: t') /\
  Forall (fun e => js_prompt e = true) t /\
  match o with
  | Done y w' =>
      0 <= y < range /\ rbytes w' = rbytes w /\ rints w' = rints w /\
      (length (stdin w') < length lines)%nat
  | Halt h w' =>
      (h = AwaitInput \/ h = ProcessExit 0) /\
      rbytes w' = rbytes w /\ rints w' = rints w
  end.
Proof.
  revert t o. induction lines as [|l lines IH]; intros t o;
    cbn [getUserNumber_from].
  - intro H; inversion H; subst; clear H.
    repeat split; eauto.
  - assert (Hretry : forall ev,
               js_prompt ev = true ->
               prepend [AddYourNumber range; ev]
                       (getUserNumber_from range lines w) = (t, o) ->
               (exists t', t = AddYourNumber range :: t') /\
               Forall (fun e => js_prompt e = true) t /\
               match o with
               | Done y w' =>
                   0 <= y < range /\ rbytes w' = rbytes w /\
                   rints w' = rints w /\
                   (length (stdin w') < length (l :: lines))%nat
               | Halt h w' =>
                   (h = AwaitInput \/ h = ProcessExit 0) /\
                   rbytes w' = rbytes w /\ rints w' = rints w
               end).
    { intros ev Hev H.
      destruct (getUserNumber_from range lines w) as [t1 o1] eqn:E.
      unfold prepend in H; simpl in H. inversion H; subst; clear H.
      destruct (IH _ _ eq_refl) as (_ & Hall & Ho).
      split; [eauto|]. split; [repeat constructor; assumption|].
      destruct o; [|exact Ho].
      simpl length. intuition lia. }
    destruct (String.eqb (toUpperCase (trim l)) "X").
    { intro H; inversion H; subst; clear H. repeat split; eauto. }
    destruct (String.eqb (toUpperCase (trim l)) "?").
    { now apply Hretry. }
    destruct (parseInt (toUpperCase (trim l))) as [num|].
    2: { now apply Hretry. }
    destruct ((num >=? 0) && (num <? range)) eqn:Hval.
    2: { now apply Hretry. }
    intro H; inversion H; subst; clear H.
    apply andb_prop in Hval. destruct Hval as [H0 Hr].
    repeat split; eauto; simpl; lia.
Qed.

Lemma prompts_are_silent (t : list event) :
  Forall (fun e => js_prompt e = true) t ->
  js_published t = [] /\ js_revealed t = [] /\
  forall e, In e t -> js_prompt e = true.
Proof.
  intro H. repeat split.
  - induction H as [|e t He _ IH]; [reflexivity|].
    simpl. rewrite IH. destruct e; simpl in *; congruence.
  - induction H as [|e t He _ IH]; [reflexivity|].
    simpl. rewrite IH. destruct e; simpl in *; congruence.
  - now apply Forall_forall.
Qed.

End JsInput.

(** ** game.js: the three sessions of a game *)

Section JsSessions.
Import GameJs.

Lemma next_commitment_stdin (range : Z) (l : list string) (w : World) :
  next_commitment range (with_stdin l w)
  = match next_commitment range w with
    | Some (k, x, w1) => Some (k, x, with_stdin l w1)
    | None => None
    end.
Proof.
  unfold next_commitment, with_stdin; simpl.
  destruct (length (rbytes w) <? 32)%nat; [reflexivity|].
  destruct (range <=? 0); [reflexivity|].
  destruct (rints w); reflexivity.
Qed.

Lemma next_commitment_spec (range : Z) (w : World) k x w1 :
  next_commitment range w = Some (k, x, w1) ->
  0 <= x < range /\ k = firstn 32 (rbytes w) /\
  (exists e, rints w = e :: rints w1 /\ x = e mod range) /\
  stdin w1 = stdin w /\ rbytes w1 = skipn 32 (rbytes w).
Proof.
  unfold next_commitment.
  destruct (length (rbytes w) <? 32)%nat; [discriminate|].
  destruct (Z.leb_spec range 0) as [Hle|Hpos]; [discriminate|].
  destruct (rints w) as [|e rest]; [discriminate|].
  intro H; inversion H; subst; clear H. simpl.
  pose proof (Z.mod_pos_bound e range Hpos).
  repeat split; try lia. now exists e.
Qed.

Lemma next_commitment_tapes (range : Z) (w v : World) :
  rbytes w = rbytes v -> rints w = rints v ->
  match next_commitment range w, next_commitment range v with
  | Some (k, x, w1), Some (k', x', v1) =>
      k = k' /\ x = x' /\ rbytes w1 = rbytes v1 /\ rints w1 = rints v1
  | None, None => True
  | _, _ => False
  end.
Proof.
  intros Hb Hi. unfold next_commitment. rewrite Hb, Hi.
  destruct (length (rbytes v) <? 32)%nat; [exact I|].
  destruct (range <=? 0); [exact I|].
  destruct (rints v); [exact I|]. simpl. auto.
Qed.

Lemma newFairRandomGenerator_run (range : Z) (w : World) :
  match next_commitment range w with
  | Some (k, x, w1) =>
      newFairRandomGenerator (E:=event) range w
      = ([], Done (mkFRG range k x (computeHMAC k x)) w1)
  | None =>
      exists h w', newFairRandomGenerator (E:=event) range w = ([], Halt h w')
  end.
Proof.
  unfold next_commitment, newFairRandomGenerator, bind, randomBytes,
    randomInt, ret.
  destruct (length (rbytes w) <? 32)%nat; [eauto|].
  cbn [rints stdin rbytes].
  destruct (range <=? 0); [eauto|].
  destruct (rints w); [eauto|]. reflexivity.
Qed.

(** Each session, unfolded: what is drawn, what is printed before the
    question, and what follows the counterpart's number. *)
Lemma firstMove_run (w : World) :
  match next_commitment 2 w with
  | Some (k, x, w1) =>
      firstMove w =
      prepend [LetsDetermine; ISelected 1 (computeHMAC k x)]
        match getUserNumber 2 w1 with
        | (t, Done y w2) =>
            (t ++ [MySelection x (to_hex k)], Done (Z.rem (x + y) 2) w2)
        | (t, Halt h w2) => (t, Halt h w2)
        end
  | None => exists h w', firstMove w = ([LetsDetermine], Halt h w')
  end.
Proof.
  pose proof (newFairRandomGenerator_run 2 w) as Hg.
  unfold firstMove. rewrite bind_run. cbn [log]. rewrite bind_run.
  destruct (next_commitment 2 w) as [[[k x] w1]|].
  - rewrite Hg. rewrite prepend_nil, bind_run. cbn [log].
    rewrite bind_run. rewrite prepend_prepend.
    destruct (getUserNumber 2 w1) as [t [y w2|h w2]]; [|reflexivity].
    cbn [reveal computeResult GameJs.x GameJs.key GameJs.range getHMAC hmac].
    rewrite bind_run. cbn [log ret]. unfold prepend; simpl. reflexivity.
  - destruct Hg as (h & w' & Hg). rewrite Hg. exists h, w'. reflexivity.
Qed.

Lemma computerRoll_run (computerDice : Dice) (w : World) :
  match next_commitment 6 w with
  | Some (k, x, w1) =>
      computerRoll computerDice w =
      prepend [TimeForMyRoll; ISelected 5 (computeHMAC k x)]
        match getUserNumber 6 w1 with
        | (t, Done y w2) =>
            (t ++ [MyNumber x (to_hex k);
                   ResultLine x y (Z.rem (x + y) 6);
                   MyRoll (getFace computerDice (Z.rem (x + y) 6))],
             Done (getFace computerDice (Z.rem (x + y) 6)) w2)
        | (t, Halt h w2) => (t, Halt h w2)
        end
  | None =>
      exists h w', computerRoll computerDice w = ([TimeForMyRoll], Halt h w')
  end.
Proof.
  pose proof (newFairRandomGenerator_run 6 w) as Hg.
  unfold computerRoll. rewrite bind_run. cbn [log]. rewrite bind_run.
  destruct (next_commitment 6 w) as [[[k x] w1]|].
  - rewrite Hg. rewrite prepend_nil, bind_run. cbn [log].
    rewrite bind_run. rewrite prepend_prepend.
    destruct (getUserNumber 6 w1) as [t [y w2|h w2]]; [|reflexivity].
    cbn [reveal computeResult GameJs.x GameJs.key GameJs.range getHMAC hmac].
    rewrite !bind_run. cbn [log ret]. unfold prepend; simpl. reflexivity.
  - destruct Hg as (h & w' & Hg). rewrite Hg. exists h, w'. reflexivity.
Qed.

Lemma userRoll_run (userDice : Dice) (w : World) :
  match next_commitment 6 w with
  | Some (k, x, w1) =>
      userRoll userDice w =
      prepend [TimeForYourRoll; ISelected 5 (computeHMAC k x)]
        match getUserNumber 6 w1 with
        | (t, Done y w2) =>
            (t ++ [MyNumber x (to_hex k);
                   ResultLine x y (Z.rem (x + y) 6);
                   YourRoll (getFace userDice (Z.rem (x + y) 6))],
             Done (getFace userDice (Z.rem (x + y) 6)) w2)
        | (t, Halt h w2) => (t, Halt h w2)
        end
  | None =>
      exists h w', userRoll userDice w = ([TimeForYourRoll], Halt h w')
  end.
Proof.
  pose proof (newFairRandomGenerator_run 6 w) as Hg.
  unfold userRoll. rewrite bind_run. cbn [log]. rewrite bind_run.
  destruct (next_commitment 6 w) as [[[k x] w1]|].
  - rewrite Hg. rewrite prepend_nil, bind_run. cbn [log].
    rewrite bind_run. rewrite prepend_prepend.
    destruct (getUserNumber 6 w1) as [t [y w2|h w2]]; [|reflexivity].
    cbn [reveal computeResult GameJs.x GameJs.key GameJs.range getHMAC hmac].
    rewrite !bind_run. cbn [log ret]. unfold prepend; simpl. reflexivity.
  - destruct Hg as (h & w' & Hg). rewrite Hg. exists h, w'. reflexivity.
Qed.

End JsSessions.

(** ** index.ts: one session *)

Section TsSessions.
Import IndexTs.

Lemma draw_commitment_run {E A} (range : Z) (K : list byte -> Z -> M E A)
    (w : World) :
  match next_commitment range w with
  | Some (k, x, w1) =>
      bind (randomBytes 32) (fun key => bind (randomInt range) (K key)) w
      = K k x w1
  | None =>
      exists h w',
        bind (randomBytes 32) (fun key => bind (randomInt range) (K key)) w
        = ([], Halt h w')
  end.
Proof.
  unfold next_commitment, bind, randomBytes, randomInt.
  destruct (length (rbytes w) <? 32)%nat; [eauto|].
  cbn [rints stdin rbytes].
  destruct (range <=? 0); [eauto|].
  destruct (rints w) as [|e rest]; [eauto|].
  cbn [app]. destruct (K _ _ _) as [t o]. reflexivity.
Qed.

Lemma getNumber_help (range : Z) (prompt line : string) (rest : list string)
    (w : World) :
  is_help line ->
  getNumber range prompt (with_stdin (line :: rest) w)
  = ([Menu prompt range; YourChoice], Done None (with_stdin rest w)).
Proof.
  unfold is_help, getNumber. intro H. cbn [stdin with_stdin].
  rewrite H. reflexivity.
Qed.

Lemma getNumber_spec (range : Z) (prompt : string) (w : World) t o :
  getNumber range prompt w = (t, o) ->
  (t = [Menu prompt range; YourChoice] \/
   t = [Menu prompt range; YourChoice; InvalidInput]) /\
  match o with
  | Done r w' =>
      (forall y, r = Some y ->
                 0 <= y < range /\ t = [Menu prompt range; YourChoice]) /\
      rbytes w' = rbytes w /\ rints w' = rints w /\
      (length (stdin w') < length (stdin w))%nat
  | Halt h w' =>
      (h = AwaitInput \/ h = ProcessExit 0) /\
      rbytes w' = rbytes w /\ rints w' = rints w
  end.
Proof.
  unfold getNumber. destruct (stdin w) as [|line rest] eqn:Hin.
  { intro H; inversion H; subst; clear H. auto 6. }
  destruct (String.eqb (toUpperCase (trim line)) "X").
  { intro H; inversion H; subst; clear H. simpl. auto 6. }
  destruct (String.eqb (toUpperCase (trim line)) "?").
  { intro H; inversion H; subst; clear H. simpl.
    repeat split; auto; discriminate. }
  destruct (parseInt (toUpperCase (trim line))) as [num|].
  2: { intro H; inversion H; subst; clear H. simpl.
       repeat split; auto; discriminate. }
  destruct ((num >=? 0) && (num <? range)) eqn:Hval;
    intro H; inversion H; subst; clear H; simpl.
  - apply andb_prop in Hval. destruct Hval as [H0 Hr].
    repeat split; auto; try (inversion H; subst; lia).
  - repeat split; auto; discriminate.
Qed.

Lemma generate_run (range : Z) (prompt : string) (w : World) :
  match next_commitment range w with
  | Some (k, x, w1) =>
      generate range prompt w =
      prepend [Published (range - 1) (calculateHMAC k x)]
        match getNumber range prompt w1 with
        | (t, Done (Some y) w2) =>
            (t ++ [Revealed x (to_hex k);
                   ResultLine x y (Z.rem (x + y) range) range],
             Done (Some (Z.rem (x + y) range)) w2)
        | (t, Done None w2) => (t, Done None w2)
        | (t, Halt h w2) => (t, Halt h w2)
        end
  | None => exists h w', generate range prompt w = ([], Halt h w')
  end.
Proof.
  unfold generate.
  match goal with
  | |- context [bind (randomBytes 32) (fun key => bind (randomInt range) (@?K key))] =>
      pose proof (draw_commitment_run range K w) as Hd
  end.
  destruct (next_commitment range w) as [[[k x] w1]|]; [|exact Hd].
  cbv beta in Hd. rewrite Hd. clear Hd. rewrite bind_run. cbn [log].
  rewrite bind_run.
  destruct (getNumber range prompt w1) as [t [[y|] w2|h w2]]; try reflexivity.
  cbn [ret]. unfold prepend; simpl. now rewrite app_nil_r.
Qed.

End TsSessions.

(** ** Sessions, read as traces *)

Section SessionTraces.
Import GameJs.

Lemma js_published_app (a b : list event) :
  js_published (a ++ b) = js_published a ++ js_published b.
Proof. apply flat_map_app. Qed.

Lemma js_revealed_app (a b : list event) :
  js_revealed (a ++ b) = js_revealed a ++ js_revealed b.
Proof. apply flat_map_app. Qed.

Lemma rem_in_range (x y range : Z) :
  0 <= x < range -> 0 <= y < range ->
  Z.rem (x + y) range = (x + y) mod range /\ 0 <= Z.rem (x + y) range < range.
Proof.
  intros Hx Hy. rewrite Z.rem_mod_nonneg by lia.
  split; [reflexivity|]. apply Z.mod_pos_bound. lia.
Qed.

(** What follows the question of a session: prompts only, then either the
    tail printed for an accepted number, or a halt. *)
Lemma after_number {A} (range : Z) (w1 : World) (tail : Z -> list event)
    (val : Z -> A) :
  exists t',
    Forall (fun e => js_prompt e = true) t' /\
    ((exists y w2,
         0 <= y < range /\
         rbytes w2 = rbytes w1 /\ rints w2 = rints w1 /\
         (length (stdin w2) < length (stdin w1))%nat /\
         match getUserNumber range w1 with
         | (t, Done y w2) => (t ++ tail y, Done (val y) w2)
         | (t, Halt h w2) => (t, Halt h w2)
         end = (AddYourNumber range :: t' ++ tail y, Done (val y) w2)) \/
     (exists h w2,
         (h = AwaitInput \/ h = ProcessExit 0) /\
         match getUserNumber range w1 with
         | (t, Done y w2) => (t ++ tail y, Done (val y) w2)
         | (t, Halt h w2) => (t, Halt h w2)
         end = (AddYourNumber range :: t', Halt h w2))).
Proof.
  unfold getUserNumber.
  destruct (getUserNumber_from range (stdin w1) w1) as [t o] eqn:E.
  destruct (getUserNumber_from_spec _ _ _ _ _ E) as ((t' & ->) & Hall & Ho).
  exists t'. split; [now inversion Hall|].
  destruct o as [y w2|h w2].
  - left. exists y, w2. intuition.
  - right. exists h, w2. intuition.
Qed.

End SessionTraces.

Lemma generate_result_spec (range : Z) (prompt : string) (w : World) t r w' :
  IndexTs.generate range prompt w = (t, Done (Some r) w') ->
  exists secret y,
    0 <= secret < range /\ 0 <= y < range /\
    In (IndexTs.ResultLine secret y r range) t /\
    r = (secret + y) mod range /\ 0 <= r < range.
Proof.
  intro Hrun.
  pose proof (generate_run range prompt w) as Hg.
  destruct (next_commitment range w) as [[[k x] w1]|] eqn:Hc.
  2: { destruct Hg as (h & w'' & Hg). congruence. }
  rewrite Hg in Hrun. clear Hg.
  destruct (next_commitment_spec _ _ _ _ _ Hc) as (Hx & _).
  destruct (IndexTs.getNumber range prompt w1) as [t1 [[y|] w2|h w2]] eqn:E;
    unfold prepend in Hrun; simpl in Hrun; inversion Hrun; subst; clear Hrun.
  destruct (getNumber_spec _ _ _ _ _ E) as (_ & Hy & _).
  destruct (Hy y eq_refl) as (Hy' & _).
  destruct (rem_in_range x y range Hx Hy') as (Hrem & Hbound).
  exists x, y. repeat split; try lia.
  right. apply in_or_app. right. right. left. reflexivity.
Qed.

(** C6.  In [game.js], a generator whose secret lies in [0, range) combines
    it with any contribution of [0, range) into a result of [0, range), the
    remainder being the modulus there; in [index.ts], whenever [generate]
    returns a result, it is (secret + contribution) mod range for a secret
    and a contribution both in [0, range), and lies in [0, range). *)
Theorem combined_result_in_range :
  (forall (g : GameJs.FairRandomGenerator) (y : Z),
      0 <= GameJs.x g < GameJs.range g ->
      0 <= y < GameJs.range g ->
      GameJs.computeResult g y = (GameJs.x g + y) mod GameJs.range g /\
      0 <= GameJs.computeResult g y < GameJs.range g) /\
  (forall range prompt w t r w',
      IndexTs.generate range prompt w = (t, Done (Some r) w') ->
      exists secret y,
        0 <= secret < range /\ 0 <= y < range /\
        In (IndexTs.ResultLine secret y r range) t /\
        r = (secret + y) mod range /\ 0 <= r < range).
Proof.
  split.
  - intros g y Hx Hy. unfold GameJs.computeResult. now apply rem_in_range.
  - apply generate_result_spec.
Qed.

Lemma combined_result_in_range_witness :
  (GameJs.computeResult (GameJs.mkFRG 6 zero_key 4 "") 5 = (4 + 5) mod 6 /\
   0 <= GameJs.computeResult (GameJs.mkFRG 6 zero_key 4 "") 5 < 6) /\
  (exists secret y,
      0 <= secret < 6 /\ 0 <= y < 6 /\
      In (IndexTs.ResultLine secret y 3 6)
         (fst (IndexTs.generate 6 "" (demo_world ["5"%string] [4]))) /\
      3 = (secret + y) mod 6 /\ 0 <= 3 < 6).
Proof.
  split.
  - apply (proj1 combined_result_in_range (GameJs.mkFRG 6 zero_key 4 "") 5);
      simpl; lia.
  - eapply (proj2 combined_result_in_range 6 ""%string
              (demo_world ["5"%string] [4])).
    vm_compute. reflexivity.
Defined.

(** The three sessions of [game.js] are one pattern: an announcement, the
    commitment, the question, and a tail printed once the number is in. *)
Section JsSessionPattern.
Import GameJs.

Context {A : Type}.
Variable s : M event A.
Variable range hi : Z.
Variable e0 : event.
Variable tail : list byte -> Z -> Z -> list event.
Variable val : Z -> Z -> A.

Hypothesis s_run : forall w,
  match next_commitment range w with
  | Some (k, x, w1) =>
      s w = prepend [e0; ISelected hi (computeHMAC k x)]
              match getUserNumber range w1 with
              | (t, Done y w2) => (t ++ tail k x y, Done (val x y) w2)
              | (t, Halt h w2) => (t, Halt h w2)
              end
  | None => exists h w', s w = ([e0], Halt h w')
  end.
Hypothesis e0_plain :
  js_published [e0] = [] /\ js_revealed [e0] = [] /\
  js_question e0 = false /\ js_display e0 = false.
Hypothesis tail_reveals : forall k x y,
  js_published (tail k x y) = [] /\ js_revealed (tail k x y) = [(x, to_hex k)].

Lemma session_cases (w : World) :
  match next_commitment range w with
  | Some (k, x, w1) =>
      exists t',
        Forall (fun e => js_prompt e = true) t' /\
        ((exists y w2,
             0 <= y < range /\
             s w = (e0 :: ISelected hi (computeHMAC k x)
                       :: AddYourNumber range :: t' ++ tail k x y,
                    Done (val x y) w2)) \/
         (exists h w2,
             s w = (e0 :: ISelected hi (computeHMAC k x)
                       :: AddYourNumber range :: t',
                    Halt h w2)))
  | None => exists h w', s w = ([e0], Halt h w')
  end.
Proof.
  pose proof (s_run w) as Hrun.
  destruct (next_commitment range w) as [[[k x] w1]|]; [|exact Hrun].
  destruct (after_number range w1 (tail k x) (val x)) as (t' & Hall & Hcase).
  exists t'. split; [exact Hall|].
  destruct Hcase as [(y & w2 & Hy & _ & _ & _ & E)|(h & w2 & _ & E)];
    rewrite E in Hrun; [left; exists y, w2|right; exists h, w2];
    rewrite Hrun; auto.
Qed.

Lemma head_published (d : string) (l : list event) :
  js_published (e0 :: ISelected hi d :: AddYourNumber range :: l)
  = d :: js_published l.
Proof.
  destruct e0_plain as (Hp0 & _).
  change (js_published ([e0] ++ ISelected hi d :: AddYourNumber range :: l)
          = d :: js_published l).
  rewrite js_published_app, Hp0. reflexivity.
Qed.

Lemma head_revealed (d : string) (l : list event) :
  js_revealed (e0 :: ISelected hi d :: AddYourNumber range :: l)
  = js_revealed l.
Proof.
  destruct e0_plain as (_ & Hr0 & _).
  change (js_revealed ([e0] ++ ISelected hi d :: AddYourNumber range :: l)
          = js_revealed l).
  rewrite js_revealed_app, Hr0. reflexivity.
Qed.

Lemma session_reveals_verify :
  reveals_verify js_published js_revealed computeHMAC s.
Proof.
  intros w x k Hin. pose proof (session_cases w) as Hc.
  destruct (next_commitment range w) as [[[k0 x0] w1]|].
  - destruct Hc as (t' & Hall & Hc).
    destruct (prompts_are_silent _ Hall) as (Hp & Hr & _).
    destruct Hc as [(y & w2 & _ & E)|(h & w2 & E)];
      rewrite E in Hin |- *; cbn [fst] in Hin |- *;
      rewrite head_revealed in Hin; rewrite head_published.
    + destruct (tail_reveals k0 x0 y) as (Htp & Htr).
      rewrite js_published_app, Hp, Htp.
      rewrite js_revealed_app, Hr, Htr in Hin. cbn [app] in Hin.
      destruct Hin as [Hin|[]]. inversion Hin; subst.
      eexists. split; [reflexivity|]. now rewrite of_hex_to_hex.
    + rewrite Hr in Hin. destruct Hin.
  - destruct Hc as (h & w' & E). rewrite E in Hin. cbn [fst] in Hin.
    destruct e0_plain as (_ & Hr0 & _). rewrite Hr0 in Hin. destruct Hin.
Qed.

Lemma session_done_reveals (w : World) t r w' :
  s w = (t, Done r w') ->
  exists k x y t0,
    0 <= x < range /\ 0 <= y < range /\ r = val x y /\
    js_published t = [computeHMAC k x] /\
    js_revealed t = [(x, to_hex k)] /\
    t = t0 ++ tail k x y.
Proof.
  intro Hrun. pose proof (session_cases w) as Hc.
  destruct (next_commitment range w) as [[[k0 x0] w1]|] eqn:Hn.
  - destruct (next_commitment_spec _ _ _ _ _ Hn) as (Hx & _).
    destruct Hc as (t' & Hall & Hc).
    destruct (prompts_are_silent _ Hall) as (Hp & Hr & _).
    destruct Hc as [(y & w2 & Hy & E)|(h & w2 & E)]; rewrite E in Hrun;
      inversion Hrun; subst; clear Hrun.
    destruct (tail_reveals k0 x0 y) as (Htp & Htr).
    exists k0, x0, y,
      (e0 :: ISelected hi (computeHMAC k0 x0) :: AddYourNumber range :: t').
    split; [lia|]. split; [lia|]. split; [reflexivity|].
    rewrite head_published, head_revealed.
    rewrite js_published_app, js_revealed_app, Hp, Hr, Htp, Htr.
    repeat split; reflexivity.
  - destruct Hc as (h & w'' & E). congruence.
Qed.

Lemma session_trace_summary (w : World) :
  match next_commitment range w with
  | Some (k, x, _) =>
      until js_question (fst (s w)) = [e0; ISelected hi (computeHMAC k x)] /\
      js_published (fst (s w)) = [computeHMAC k x]
  | None => fst (s w) = [e0]
  end.
Proof.
  pose proof (session_cases w) as Hc.
  destruct e0_plain as (Hp0 & _ & Hq0 & _).
  destruct (next_commitment range w) as [[[k x] w1]|].
  - destruct Hc as (t' & Hall & Hc).
    destruct (prompts_are_silent _ Hall) as (Hp & _).
    destruct Hc as [(y & w2 & _ & E)|(h & w2 & E)]; rewrite E; cbn [fst];
      rewrite head_published; cbn [until]; rewrite Hq0; cbn [js_question].
    + destruct (tail_reveals k x y) as (Htp & _).
      now rewrite js_published_app, Hp, Htp.
    + now rewrite Hp.
  - destruct Hc as (h & w' & E). now rewrite E.
Qed.

Lemma without_app {E} (p : E -> bool) (a b : list E) :
  without p (a ++ b) = without p a ++ without p b.
Proof. apply filter_app. Qed.

Lemma session_side_query : side_query js_display js_question s.
Proof.
  intros line rest w Hhelp (e & Hin & Hq).
  pose proof (s_run (with_stdin (line :: rest) w)) as H1.
  pose proof (s_run (with_stdin rest w)) as H2.
  rewrite next_commitment_stdin in H1, H2.
  destruct (next_commitment range w) as [[[k x] w1]|].
  - rewrite H1, H2. clear H1 H2 Hin.
    unfold getUserNumber. cbn [stdin with_stdin].
    rewrite (getUserNumber_help _ _ _ _ Hhelp).
    rewrite (getUserNumber_from_frame range rest
               (with_stdin (line :: rest) w1) (with_stdin rest w1))
      by reflexivity.
    destruct (getUserNumber_from range rest (with_stdin rest w1))
      as [t [y w2|h w2]]; unfold prepend; cbn [fst snd app];
      (split; [reflexivity|]).
    + destruct (js_display e0) eqn:He0; cbn [without filter js_display negb];
        rewrite He0; reflexivity.
    + destruct (js_display e0) eqn:He0; cbn [without filter js_display negb];
        rewrite He0; reflexivity.
  - destruct H1 as (h & w' & E). rewrite E in Hin. cbn [fst] in Hin.
    destruct Hin as [<-|[]]. destruct e0_plain as (_ & _ & Hq0 & _).
    congruence.
Qed.

Lemma session_events (w : World) (e : event) :
  In e (fst (s w)) ->
  e = e0 \/ (exists d, e = ISelected hi d) \/ js_prompt e = true \/
  (exists k x y,
      0 <= x < range /\ 0 <= y < range /\ In e (tail k x y) /\
      exists w', snd (s w) = Done (val x y) w').
Proof.
  intro Hin. pose proof (session_cases w) as Hc.
  destruct (next_commitment range w) as [[[k x] w1]|] eqn:Hn.
  - destruct (next_commitment_spec _ _ _ _ _ Hn) as (Hx & _).
    destruct Hc as (t' & Hall & Hc).
    destruct (prompts_are_silent _ Hall) as (_ & _ & Hprompt).
    destruct Hc as [(y & w2 & Hy & E)|(h & w2 & E)]; rewrite E in Hin |- *;
      cbn [fst snd] in Hin |- *;
      destruct Hin as [<-|[<-|[<-|Hin]]]; eauto.
    apply in_app_or in Hin. destruct Hin as [Hin|Hin]; eauto.
    do 3 right. exists k, x, y. eauto.
  - destruct Hc as (h & w' & E). rewrite E in Hin.
    destruct Hin as [<-|[]]. auto.
Qed.

End JsSessionPattern.

Section TsSessionTraces.
Import IndexTs.

Lemma generate_cases (range : Z) (prompt : string) (w : World) :
  match next_commitment range w with
  | Some (k, x, w1) =>
      (exists y w2,
          0 <= y < range /\
          generate range prompt w
          = ([Published (range - 1) (calculateHMAC k x);
              Menu prompt range; YourChoice;
              Revealed x (to_hex k);
              ResultLine x y (Z.rem (x + y) range) range],
             Done (Some (Z.rem (x + y) range)) w2)) \/
      (exists t' w2,
          (t' = [] \/ t' = [InvalidInput]) /\
          generate range prompt w
          = (Published (range - 1) (calculateHMAC k x)
               :: Menu prompt range :: YourChoice :: t',
             Done None w2)) \/
      (exists h w2,
          generate range prompt w
          = ([Published (range - 1) (calculateHMAC k x);
              Menu prompt range; YourChoice],
             Halt h w2))
  | None => exists h w', generate range prompt w = ([], Halt h w')
  end.
Proof.
  pose proof (generate_run range prompt w) as Hg.
  destruct (next_commitment range w) as [[[k x] w1]|]; [|exact Hg].
  rewrite Hg. clear Hg.
  destruct (getNumber range prompt w1) as [t [[y|] w2|h w2]] eqn:E;
    destruct (getNumber_spec _ _ _ _ _ E) as (Ht & Ho).
  - destruct Ho as (Hy & _). destruct (Hy y eq_refl) as (Hy' & ->).
    left. exists y, w2. split; [exact Hy'|reflexivity].
  - right. left.
    destruct Ht as [-> | ->]; eexists _, w2; (split; [|reflexivity]); auto.
  - right. right. exists h, w2.
    destruct Ho as ([-> | ->] & _); unfold getNumber in E;
      destruct (stdin w1) as [|line rest];
      repeat match type of E with
             | context [if ?c then _ else _] => destruct c
             | context [match ?c with Some _ => _ | None => _ end] =>
                 destruct c
             end;
      inversion E; subst; reflexivity.
Qed.

Lemma generate_reveals_verify (range : Z) (prompt : string) :
  reveals_verify ts_published ts_revealed calculateHMAC
                 (generate range prompt).
Proof.
  intros w x k Hin. pose proof (generate_cases range prompt w) as Hc.
  destruct (next_commitment range w) as [[[k0 x0] w1]|].
  - destruct Hc as [(y & w2 & _ & E)|[(t' & w2 & Ht & E)|(h & w2 & E)]];
      rewrite E in Hin |- *; cbn in Hin |- *.
    + destruct Hin as [Hin|[]]. inversion Hin; subst.
      eexists. split; [reflexivity|]. now rewrite of_hex_to_hex.
    + destruct Ht as [-> | ->]; destruct Hin.
    + destruct Hin.
  - destruct Hc as (h & w' & E). rewrite E in Hin. destruct Hin.
Qed.

Lemma generate_trace_summary (range : Z) (prompt : string) (w : World) :
  match next_commitment range w with
  | Some (k, x, _) =>
      until ts_question (fst (generate range prompt w))
      = [Published (range - 1) (calculateHMAC k x)] /\
      ts_published (fst (generate range prompt w)) = [calculateHMAC k x]
  | None => fst (generate range prompt w) = []
  end.
Proof.
  pose proof (generate_cases range prompt w) as Hc.
  destruct (next_commitment range w) as [[[k x] w1]|].
  - destruct Hc as [(y & w2 & _ & E)|[(t' & w2 & Ht & E)|(h & w2 & E)]];
      rewrite E; cbn; auto.
    destruct Ht as [-> | ->]; auto.
  - destruct Hc as (h & w' & E). now rewrite E.
Qed.

End TsSessionTraces.

(** ** Commitments: published first, verifiable after *)

Section Commitments.
Import GameJs.

Lemma firstMove_pattern :
  forall w,
    match next_commitment 2 w with
    | Some (k, x, w1) =>
        firstMove w = prepend [LetsDetermine; ISelected 1 (computeHMAC k x)]
                        match getUserNumber 2 w1 with
                        | (t, Done y w2) =>
                            (t ++ firstMove_tail k x y,
                             Done (Z.rem (x + y) 2) w2)
                        | (t, Halt h w2) => (t, Halt h w2)
                        end
    | None => exists h w', firstMove w = ([LetsDetermine], Halt h w')
    end.
Proof. exact firstMove_run. Qed.

Lemma computerRoll_pattern (d : Dice) :
  forall w,
    match next_commitment 6 w with
    | Some (k, x, w1) =>
        computerRoll d w
        = prepend [TimeForMyRoll; ISelected 5 (computeHMAC k x)]
            match getUserNumber 6 w1 with
            | (t, Done y w2) =>
                (t ++ computerRoll_tail d k x y,
                 Done (getFace d (Z.rem (x + y) 6)) w2)
            | (t, Halt h w2) => (t, Halt h w2)
            end
    | None => exists h w', computerRoll d w = ([TimeForMyRoll], Halt h w')
    end.
Proof. exact (computerRoll_run d). Qed.

Lemma userRoll_pattern (d : Dice) :
  forall w,
    match next_commitment 6 w with
    | Some (k, x, w1) =>
        userRoll d w
        = prepend [TimeForYourRoll; ISelected 5 (computeHMAC k x)]
            match getUserNumber 6 w1 with
            | (t, Done y w2) =>
                (t ++ userRoll_tail d k x y,
                 Done (getFace d (Z.rem (x + y) 6)) w2)
            | (t, Halt h w2) => (t, Halt h w2)
            end
    | None => exists h w', userRoll d w = ([TimeForYourRoll], Halt h w')
    end.
Proof. exact (userRoll_run d). Qed.

End Commitments.

(** C3.  In [game.js], a generator built over any range holds a secret of
    that range, and what [reveal] exposes (the secret, the key in hex)
    recomputes through [computeHMAC] to its digest; in each of its three
    sessions, and in [generate] of [index.ts], whatever pair (secret, key) is
    printed at reveal recomputes to the one digest printed at commit time;
    and a session that returns a result has revealed. *)
Theorem reveal_recomputes_published_digest :
  (forall range w t g w',
      GameJs.newFairRandomGenerator (E:=GameJs.event) range w
      = (t, Done g w') ->
      0 <= fst (GameJs.reveal g) < range /\
      GameJs.computeHMAC (of_hex (snd (GameJs.reveal g)))
                         (fst (GameJs.reveal g))
      = GameJs.getHMAC g) /\
  reveals_verify js_published js_revealed GameJs.computeHMAC
                 GameJs.firstMove /\
  (forall d, reveals_verify js_published js_revealed GameJs.computeHMAC
                            (GameJs.computerRoll d)) /\
  (forall d, reveals_verify js_published js_revealed GameJs.computeHMAC
                            (GameJs.userRoll d)) /\
  (forall range prompt,
      reveals_verify ts_published ts_revealed IndexTs.calculateHMAC
                     (IndexTs.generate range prompt)) /\
  (forall w t r w',
      GameJs.firstMove w = (t, Done r w') -> length (js_revealed t) = 1%nat) /\
  (forall range prompt w t r w',
      IndexTs.generate range prompt w = (t, Done (Some r) w') ->
      length (ts_revealed t) = 1%nat).
Proof.
  split; [|split; [|split; [|split; [|split; [|split]]]]].
  - intros range w t g w' Hrun.
    pose proof (newFairRandomGenerator_run range w) as Hg.
    destruct (next_commitment range w) as [[[k x] w1]|] eqn:Hn.
    + rewrite Hg in Hrun. inversion Hrun; subst; clear Hrun.
      destruct (next_commitment_spec _ _ _ _ _ Hn) as (Hx & _).
      cbn. split; [exact Hx|]. now rewrite of_hex_to_hex.
    + destruct Hg as (h & w'' & Hg). congruence.
  - apply (session_reveals_verify _ _ _ _ _ _ firstMove_pattern);
      repeat split.
  - intro d.
    apply (session_reveals_verify _ _ _ _ _ _ (computerRoll_pattern d));
      repeat split.
  - intro d.
    apply (session_reveals_verify _ _ _ _ _ _ (userRoll_pattern d));
      repeat split.
  - apply generate_reveals_verify.
  - intros w t r w' Hrun.
    destruct (session_done_reveals _ _ _ _ _ _ firstMove_pattern
                ltac:(repeat split) ltac:(repeat split) _ _ _ _ Hrun)
      as (k & x & y & t0 & _ & _ & _ & _ & Hr & _).
    now rewrite Hr.
  - intros range prompt w t r w' Hrun.
    pose proof (generate_cases range prompt w) as Hc.
    destruct (next_commitment range w) as [[[k x] w1]|].
    + destruct Hc as [(y & w2 & _ & E)|[(t' & w2 & _ & E)|(h & w2 & E)]];
        rewrite E in Hrun; inversion Hrun; subst; reflexivity.
    + destruct Hc as (h & w'' & E). congruence.
Qed.

Lemma reveal_recomputes_published_digest_witness :
  exists d,
    js_published (fst (GameJs.firstMove (demo_world ["1"%string] [0]))) = [d] /\
    GameJs.computeHMAC (of_hex (to_hex zero_key)) 0 = d.
Proof.
  apply (proj1 (proj2 reveal_recomputes_published_digest)
           (demo_world ["1"%string] [0]) 0 (to_hex zero_key)).
  vm_compute. left. reflexivity.
Defined.

Section JsDigestFirst.
Import GameJs.

Context {A : Type}.
Variable s : M event A.
Variable range hi : Z.
Variable e0 : event.
Variable tail : list byte -> Z -> Z -> list event.
Variable val : Z -> Z -> A.

Hypothesis s_run : forall w,
  match next_commitment range w with
  | Some (k, x, w1) =>
      s w = prepend [e0; ISelected hi (computeHMAC k x)]
              match getUserNumber range w1 with
              | (t, Done y w2) => (t ++ tail k x y, Done (val x y) w2)
              | (t, Halt h w2) => (t, Halt h w2)
              end
  | None => exists h w', s w = ([e0], Halt h w')
  end.
Hypothesis e0_plain :
  js_published [e0] = [] /\ js_revealed [e0] = [] /\
  js_question e0 = false /\ js_display e0 = false.
Hypothesis tail_reveals : forall k x y,
  js_published (tail k x y) = [] /\ js_revealed (tail k x y) = [(x, to_hex k)].

Lemma session_asks (w : World) k x w1 :
  next_commitment range w = Some (k, x, w1) ->
  In (AddYourNumber range) (fst (s w)).
Proof.
  intro Hn. pose proof (session_cases s range hi e0 tail val s_run w) as Hc.
  rewrite Hn in Hc. destruct Hc as (t' & _ & [(y & w2 & _ & E)|(h & w2 & E)]);
    rewrite E; cbn [fst]; right; right; left; reflexivity.
Qed.

Lemma session_digest_precedes_input :
  digest_precedes_input js_published js_question computeHMAC range s.
Proof.
  assert (Hsum := session_trace_summary s range hi e0 tail val s_run
                    e0_plain tail_reveals).
  split.
  - intro w. specialize (Hsum w).
    destruct (next_commitment range w) as [[[k x] w1]|] eqn:Hn.
    + destruct Hsum as (Hu & Hp). split; [|split].
      * exists (AddYourNumber range). split; [|reflexivity].
        exact (session_asks w k x w1 Hn).
      * rewrite Hu.
        destruct e0_plain as (Hp0 & _).
        change (js_published ([e0] ++ [ISelected hi (computeHMAC k x)])
                = [computeHMAC k x]).
        now rewrite js_published_app, Hp0.
      * exact Hp.
    + rewrite Hsum. destruct e0_plain as (Hp0 & _ & Hq0 & _).
      split; [exact Hp0|]. intros e [<-|[]]. exact Hq0.
  - intros w1 w2 Hb Hi.
    pose proof (Hsum w1) as H1. pose proof (Hsum w2) as H2.
    pose proof (next_commitment_tapes range w1 w2 Hb Hi) as Ht.
    destruct (next_commitment range w1) as [[[k x] v1]|];
      destruct (next_commitment range w2) as [[[k' x'] v2]|];
      try contradiction.
    + destruct Ht as (-> & -> & _).
      destruct H1 as (Hu1 & Hd1), H2 as (Hu2 & Hd2).
      now rewrite Hu1, Hu2, Hd1, Hd2.
    + now rewrite H1, H2.
Qed.

End JsDigestFirst.

Section TsDigestFirst.
Import IndexTs.

Lemma generate_asks (range : Z) (prompt : string) (w : World) k x w1 :
  next_commitment range w = Some (k, x, w1) ->
  In (Menu prompt range) (fst (generate range prompt w)).
Proof.
  intro Hn. pose proof (generate_cases range prompt w) as Hc.
  rewrite Hn in Hc.
  destruct Hc as [(y & w2 & _ & E)|[(t' & w2 & _ & E)|(h & w2 & E)]];
    rewrite E; cbn [fst]; right; left; reflexivity.
Qed.

Lemma generate_digest_precedes_input (range : Z) (prompt : string) :
  digest_precedes_input ts_published ts_question calculateHMAC range
                        (generate range prompt).
Proof.
  split.
  - intro w. pose proof (generate_trace_summary range prompt w) as Hsum.
    destruct (next_commitment range w) as [[[k x] w1]|] eqn:Hn.
    + destruct Hsum as (Hu & Hp). split; [|split].
      * exists (Menu prompt range). split; [|reflexivity].
        exact (generate_asks range prompt w k x w1 Hn).
      * now rewrite Hu.
      * exact Hp.
    + rewrite Hsum. split; [reflexivity|]. intros e [].
  - intros w1 w2 Hb Hi.
    pose proof (generate_trace_summary range prompt w1) as H1.
    pose proof (generate_trace_summary range prompt w2) as H2.
    pose proof (next_commitment_tapes range w1 w2 Hb Hi) as Ht.
    destruct (next_commitment range w1) as [[[k x] v1]|];
      destruct (next_commitment range w2) as [[[k' x'] v2]|];
      try contradiction.
    + destruct Ht as (-> & -> & _).
      destruct H1 as (Hu1 & Hd1), H2 as (Hu2 & Hd2).
      now rewrite Hu1, Hu2, Hd1, Hd2.
    + now rewrite H1, H2.
Qed.

End TsDigestFirst.

(** C9.  In every session of [game.js] and in [generate] of [index.ts]:
    whenever the random source has a key and a secret to give, the session
    asks for the counterpart's number, and the one digest it publishes, the
    keyed hash of that secret under that key, is out before the first
    question; without key or secret it publishes nothing and asks nothing.
    Two runs over the same random tapes print the same events up to the
    first question and publish the same digest, whatever lines are typed. *)
Theorem digest_published_before_contribution :
  digest_precedes_input js_published js_question GameJs.computeHMAC 2
                        GameJs.firstMove /\
  (forall d, digest_precedes_input js_published js_question
                                   GameJs.computeHMAC 6
                                   (GameJs.computerRoll d)) /\
  (forall d, digest_precedes_input js_published js_question
                                   GameJs.computeHMAC 6
                                   (GameJs.userRoll d)) /\
  (forall range prompt,
      digest_precedes_input ts_published ts_question IndexTs.calculateHMAC
                            range (IndexTs.generate range prompt)).
Proof.
  split; [|split; [|split]].
  - apply (session_digest_precedes_input _ _ _ _ _ _ firstMove_pattern);
      repeat split.
  - intro d.
    apply (session_digest_precedes_input _ _ _ _ _ _ (computerRoll_pattern d));
      repeat split.
  - intro d.
    apply (session_digest_precedes_input _ _ _ _ _ _ (userRoll_pattern d));
      repeat split.
  - apply generate_digest_precedes_input.
Qed.

Lemma digest_published_before_contribution_witness :
  ((exists e, In e (fst (GameJs.firstMove (demo_world ["?"; "1"]%string [1])))
              /\ js_question e = true) /\
   js_published
     (until js_question
        (fst (GameJs.firstMove (demo_world ["?"; "1"]%string [1]))))
   = [GameJs.computeHMAC zero_key 1] /\
   js_published (fst (GameJs.firstMove (demo_world ["?"; "1"]%string [1])))
   = [GameJs.computeHMAC zero_key 1]) /\
  ts_published (fst (IndexTs.generate 6 "" (demo_world ["0"%string] [4])))
  = ts_published (fst (IndexTs.generate 6 "" (demo_world ["5"%string] [4]))).
Proof.
  split.
  - exact (proj1 (proj1 digest_published_before_contribution)
             (demo_world ["?"; "1"]%string [1])).
  - apply (proj2 (proj2 (proj2 (proj2 digest_published_before_contribution))
                    6 ""%string) (demo_world ["0"%string] [4])
             (demo_world ["5"%string] [4])); reflexivity.
Defined.

(** ** The two encodings of the secret *)

Lemma single_byte_congruent (s1 s2 : Z) :
  s1 mod 256 = s2 mod 256 -> GameJs.encode s1 = GameJs.encode s2.
Proof. unfold GameJs.encode. now intros ->. Qed.

(** C4.  The digests of the two programs are not the same function: under
    the all-zero key the secret 0 hashes as the byte 0 in [game.js] and as the
    character "0" in [index.ts], to different digests.  The single byte of
    [game.js] keeps the secret modulo 256 only: under one key, secrets
    congruent modulo 256 have one digest (256 goes with 0), which the decimal
    string of [index.ts] tells apart. *)
Theorem digests_differ_and_single_byte_truncates :
  (exists key secret,
      GameJs.computeHMAC key secret <> IndexTs.calculateHMAC key secret) /\
  (forall key s1 s2,
      s1 mod 256 = s2 mod 256 ->
      GameJs.computeHMAC key s1 = GameJs.computeHMAC key s2) /\
  GameJs.encode 256 = GameJs.encode 0 /\
  IndexTs.calculateHMAC zero_key 256 <> IndexTs.calculateHMAC zero_key 0.
Proof.
  split; [|split; [|split]].
  - exists zero_key, 0. intro H. vm_compute in H. discriminate H.
  - intros key s1 s2 H. unfold GameJs.computeHMAC.
    now rewrite (single_byte_congruent s1 s2 H).
  - reflexivity.
  - intro H. vm_compute in H. discriminate H.
Qed.

Lemma digests_differ_and_single_byte_truncates_witness :
  GameJs.computeHMAC zero_key 1 = GameJs.computeHMAC zero_key 257.
Proof.
  apply (proj1 (proj2 digests_differ_and_single_byte_truncates) zero_key 1 257).
  reflexivity.
Defined.

(** ** The parsers *)

Section Parsers.

Lemma parse_args_js_spec (args : list string) (acc dl : list Dice) :
  GameJs.parse_args args acc = inr dl ->
  (forall d, In d acc -> length (faces d) = 6%nat) ->
  map ident acc = seq 0 (length acc) ->
  (forall d, In d dl -> length (faces d) = 6%nat) /\
  map ident dl = seq 0 (length dl) /\
  length dl = (length acc + length args)%nat.
Proof.
  revert acc. induction args as [|arg args IH]; intros acc Hrun Hsix Hid.
  - simpl in Hrun. inversion Hrun; subst. auto.
  - cbn [GameJs.parse_args] in Hrun.
    destruct (GameJs.parse_values (split_comma arg)) as [values|];
      [|discriminate].
    destruct (length values =? 6)%nat eqn:Hlen; [|discriminate].
    cbn [negb] in Hrun. apply Nat.eqb_eq in Hlen.
    apply IH in Hrun.
    + destruct Hrun as (H1 & H2 & H3). rewrite length_app in H3.
      simpl in *. repeat split; auto; lia.
    + intros d Hd. apply in_app_or in Hd.
      destruct Hd as [Hd|[<-|[]]]; auto.
    + rewrite map_app, length_app, seq_app, Hid. reflexivity.
Qed.

Lemma parseDiceConfigs_spec (args : list string) (diceList : list Dice) :
  GameJs.parseDiceConfigs args = inr diceList ->
  (forall d, In d diceList -> length (faces d) = 6%nat) /\
  map ident diceList = seq 0 (length diceList) /\
  (3 <= length diceList)%nat.
Proof.
  unfold GameJs.parseDiceConfigs.
  destruct (Nat.ltb_spec (length args) 3) as [|Hlen]; [discriminate|].
  intro Hrun. apply parse_args_js_spec in Hrun; [|intros d []|reflexivity].
  destruct Hrun as (H1 & H2 & H3). simpl in H3. repeat split; auto; lia.
Qed.

Lemma parse_args_ts_spec (args : list string) (acc dl : list Dice)
    (faceCount : option nat) :
  IndexTs.parse_args args acc faceCount = inr dl ->
  (forall d, In d acc -> (1 <= length (faces d))%nat) ->
  map ident acc = seq 0 (length acc) ->
  (forall d, In d dl -> (1 <= length (faces d))%nat) /\
  map ident dl = seq 0 (length dl) /\
  length dl = (length acc + length args)%nat.
Proof.
  revert acc faceCount.
  induction args as [|arg args IH]; intros acc faceCount Hrun Hpos Hid.
  - simpl in Hrun. inversion Hrun; subst. auto.
  - cbn [IndexTs.parse_args] in Hrun.
    destruct (IndexTs.parse_faces (split_comma arg)) as [fs|]; [|discriminate].
    destruct (Nat.eqb_spec (length fs) 0) as [|Hne]; [discriminate|].
    assert (Hstep : forall fc,
               IndexTs.parse_args args
                 (acc ++ [mkDice (length acc) fs]) fc = inr dl ->
               (forall d, In d dl -> (1 <= length (faces d))%nat) /\
               map ident dl = seq 0 (length dl) /\
               length dl = (length acc + length (arg :: args))%nat).
    { intros fc Hfc. apply IH in Hfc.
      - destruct Hfc as (H1 & H2 & H3). rewrite length_app in H3.
        simpl in *. repeat split; auto; lia.
      - intros d Hd. apply in_app_or in Hd.
        destruct Hd as [Hd|[<-|[]]]; auto. simpl. lia.
      - rewrite map_app, length_app, seq_app, Hid. reflexivity. }
    destruct faceCount as [n|]; [|now apply Hstep in Hrun].
    destruct (negb (length fs =? n)%nat); [discriminate|].
    now apply Hstep in Hrun.
Qed.

Lemma parse_spec (args : list string) (dice : list Dice) :
  IndexTs.parse args = inr dice ->
  (forall d, In d dice -> (1 <= length (faces d))%nat) /\
  map ident dice = seq 0 (length dice) /\
  (3 <= length dice)%nat.
Proof.
  unfold IndexTs.parse.
  destruct (Nat.ltb_spec (length args) 3) as [|Hlen]; [discriminate|].
  intro Hrun. apply parse_args_ts_spec in Hrun; [|intros d []|reflexivity].
  destruct Hrun as (H1 & H2 & H3). simpl in H3. repeat split; auto; lia.
Qed.

Lemma seq_idents_distinct (pool : list Dice) :
  map ident pool = seq 0 (length pool) -> distinct_objects pool.
Proof. unfold distinct_objects. intros ->. apply seq_NoDup. Qed.

End Parsers.

(** ** Rolls stay on the die *)

Section Rolls.

Lemma index_in_range {A} (l : list A) (r : Z) :
  0 <= r < Z.of_nat (length l) ->
  exists v, index l r = Some v /\ In v l.
Proof.
  intros Hr. unfold index.
  destruct (Z.ltb_spec r 0) as [|_]; [lia|].
  destruct (nth_error l (Z.to_nat r)) as [v|] eqn:E.
  - exists v. split; [reflexivity|]. eapply nth_error_In; eauto.
  - apply nth_error_None in E. lia.
Qed.

Lemma js_roll_on_die (d : Dice) (x y : Z) :
  length (faces d) = 6%nat -> 0 <= x < 6 -> 0 <= y < 6 ->
  0 <= Z.rem (x + y) 6 < Z.of_nat (length (faces d)) /\
  exists z, GameJs.getFace d (Z.rem (x + y) 6) = Some z /\ In z (faces d).
Proof.
  intros Hsix Hx Hy.
  destruct (rem_in_range x y 6 Hx Hy) as (_ & Hr).
  rewrite Hsix. split; [simpl; lia|].
  apply index_in_range. rewrite Hsix. simpl. lia.
Qed.

Lemma roll_run (die : Dice) (player : string) (w : World) :
  IndexTs.roll die player w =
  prepend [IndexTs.RollOf player]
    match IndexTs.generate (IndexTs.numFaces die)
            ("Enter a number (0-" ++ toString (IndexTs.numFaces die - 1)
               ++ "):")%string w with
    | (t, Done (Some i) w') =>
        (t ++ [IndexTs.Rolled player (IndexTs.getFace die i)],
         Done (Some (IndexTs.getFace die i)) w')
    | (t, Done None w') => (t, Done None w')
    | (t, Halt h w') => (t, Halt h w')
    end.
Proof.
  unfold IndexTs.roll. rewrite bind_run. cbn [log]. rewrite bind_run.
  destruct (IndexTs.generate _ _ w) as [t [[i|] w'|h w']]; try reflexivity.
  cbn [ret]. unfold prepend; simpl. now rewrite app_nil_r.
Qed.

Lemma computerRoll_on_die (d : Dice) (w : World) :
  length (faces d) = 6%nat -> js_rolls_on d (fst (GameJs.computerRoll d w)).
Proof.
  intro Hsix. split.
  - intros x y r Hin.
    apply (session_events _ _ _ _ _ _ (computerRoll_pattern d)) in Hin.
    destruct Hin as [Hin|[(? & Hin)|[Hin|(k & x' & y' & Hx & Hy & Hin & _)]]];
      try discriminate.
    destruct Hin as [Hin|[Hin|[Hin|[]]]]; inversion Hin; subst.
    now apply js_roll_on_die.
  - intros v [Hin|Hin];
      apply (session_events _ _ _ _ _ _ (computerRoll_pattern d)) in Hin;
      destruct Hin as [Hin|[(? & Hin)|[Hin|(k & x' & y' & Hx & Hy & Hin & _)]]];
      try discriminate;
      destruct Hin as [Hin|[Hin|[Hin|[]]]]; inversion Hin; subst.
    destruct (js_roll_on_die d x' y' Hsix Hx Hy) as (Hr & z & Hz & Hin').
    exists (Z.rem (x' + y') 6), z. auto.
Qed.

Lemma userRoll_on_die (d : Dice) (w : World) :
  length (faces d) = 6%nat -> js_rolls_on d (fst (GameJs.userRoll d w)).
Proof.
  intro Hsix. split.
  - intros x y r Hin.
    apply (session_events _ _ _ _ _ _ (userRoll_pattern d)) in Hin.
    destruct Hin as [Hin|[(? & Hin)|[Hin|(k & x' & y' & Hx & Hy & Hin & _)]]];
      try discriminate.
    destruct Hin as [Hin|[Hin|[Hin|[]]]]; inversion Hin; subst.
    now apply js_roll_on_die.
  - intros v [Hin|Hin];
      apply (session_events _ _ _ _ _ _ (userRoll_pattern d)) in Hin;
      destruct Hin as [Hin|[(? & Hin)|[Hin|(k & x' & y' & Hx & Hy & Hin & _)]]];
      try discriminate;
      destruct Hin as [Hin|[Hin|[Hin|[]]]]; inversion Hin; subst.
    destruct (js_roll_on_die d x' y' Hsix Hx Hy) as (Hr & z & Hz & Hin').
    exists (Z.rem (x' + y') 6), z. auto.
Qed.

Lemma js_rolls_return_faces (d : Dice) :
  length (faces d) = 6%nat ->
  (forall w t v w', GameJs.computerRoll d w = (t, Done v w') ->
                    exists z, v = Some z /\ In z (faces d)) /\
  (forall w t v w', GameJs.userRoll d w = (t, Done v w') ->
                    exists z, v = Some z /\ In z (faces d)).
Proof.
  intro Hsix. split; intros w t v w' Hrun.
  - destruct (session_done_reveals _ _ _ _ _ _ (computerRoll_pattern d)
                ltac:(repeat split) ltac:(repeat split) _ _ _ _ Hrun)
      as (k & x & y & t0 & Hx & Hy & -> & _).
    now apply js_roll_on_die.
  - destruct (session_done_reveals _ _ _ _ _ _ (userRoll_pattern d)
                ltac:(repeat split) ltac:(repeat split) _ _ _ _ Hrun)
      as (k & x & y & t0 & Hx & Hy & -> & _).
    now apply js_roll_on_die.
Qed.

Lemma roll_on_die (d : Dice) (player : string) (w : World) :
  ts_rolls_on d (fst (IndexTs.roll d player w)) /\
  forall t v w', IndexTs.roll d player w = (t, Done (Some v) w') ->
                 exists z, v = Some z /\ In z (faces d).
Proof.
  rewrite roll_run.
  pose proof (generate_cases (IndexTs.numFaces d)
                ("Enter a number (0-" ++ toString (IndexTs.numFaces d - 1)
                   ++ "):")%string w) as Hc.
  destruct (next_commitment (IndexTs.numFaces d) w) as [[[k x] w1]|] eqn:Hn.
  - destruct (next_commitment_spec _ _ _ _ _ Hn) as (Hx & _).
    destruct Hc as [(y & w2 & Hy & E)|[(t' & w2 & Ht & E)|(h & w2 & E)]];
      rewrite E; clear E.
    + destruct (rem_in_range x y _ Hx Hy) as (_ & Hr).
      destruct (index_in_range (faces d) _ Hr) as (z & Hz & Hin).
      split; [split|].
      * intros x0 y0 r n H. pick_event H. inversion H; subst.
        split; [reflexivity|lia].
      * intros p v H. pick_event H. inversion H; subst.
        exists (Z.rem (x + y) (IndexTs.numFaces d)), z. auto.
      * intros t v w' H. inversion H; subst. eauto.
    + split; [split|].
      * intros x0 y0 r n H. destruct Ht as [-> | ->]; pick_event H.
      * intros p v H. destruct Ht as [-> | ->]; pick_event H.
      * intros t v w' H. discriminate H.
    + split; [split|].
      * intros x0 y0 r n H. pick_event H.
      * intros p v H. pick_event H.
      * intros t v w' H. discriminate H.
  - destruct Hc as (h & w' & E). rewrite E.
    split; [split|].
    + intros x0 y0 r n H. pick_event H.
    + intros p v H. pick_event H.
    + intros t v w'' H. discriminate H.
Qed.

End Rolls.

(** ** The dice pool *)

Section Pool.
Import GameJs.

Lemma index_In {A} (l : list A) (i : Z) (a : A) : index l i = Some a -> In a l.
Proof.
  unfold index. destruct (i <? 0); [discriminate|]. apply nth_error_In.
Qed.

Lemma remaining_In (diceList : list Dice) (chosen d : Dice) :
  In d (remaining diceList chosen) <->
  In d diceList /\ ident d <> ident chosen.
Proof.
  unfold remaining, same_object. rewrite filter_In, negb_true_iff.
  now rewrite Nat.eqb_neq.
Qed.

Lemma remaining_all (l : list Dice) (chosen : Dice) :
  ~ In (ident chosen) (map ident l) -> remaining l chosen = l.
Proof.
  unfold remaining, same_object.
  induction l as [|a l IH]; intro Hnot; [reflexivity|].
  simpl in *. destruct (Nat.eqb_spec (ident a) (ident chosen)) as [E|_].
  - exfalso. auto.
  - simpl. f_equal. apply IH. auto.
Qed.

Lemma remaining_length (diceList : list Dice) (chosen : Dice) :
  distinct_objects diceList -> In chosen diceList ->
  (length (remaining diceList chosen) + 1 = length diceList)%nat.
Proof.
  unfold distinct_objects.
  induction diceList as [|a l IH]; intros Hnd Hin; [destruct Hin|].
  simpl in Hnd. inversion Hnd as [|? ? Hnot Hnd']; subst.
  unfold remaining, same_object in *. simpl.
  destruct (Nat.eqb_spec (ident a) (ident chosen)) as [E|Hne]; simpl.
  - rewrite E in Hnot.
    pose proof (remaining_all l chosen Hnot) as Hall.
    unfold remaining, same_object in Hall. rewrite Hall. lia.
  - destruct Hin as [->|Hin]; [congruence|].
    specialize (IH Hnd' Hin). lia.
Qed.

Lemma selectDice_from_spec (diceList pool : list Dice) (lines : list string)
    (w : World) t o :
  selectDice_from diceList pool lines w = (t, o) ->
  (forall p, In p (js_pools_shown t) -> p = pool) /\
  js_first_mover t = None /\
  (forall v, ~ In (MyRoll v) t /\ ~ In (YourRoll v) t) /\
  match o with
  | Done d w' => In d pool /\ rbytes w' = rbytes w /\ rints w' = rints w
  | Halt h w' => True
  end.
Proof.
  revert t o. induction lines as [|l lines IH]; intros t o;
    cbn [selectDice_from].
  - intro H; inversion H; subst; clear H. repeat split; auto.
    + intros p [<-|[]]. reflexivity.
    + intro H. pick_event H.
    + intro H. pick_event H.
  - assert (Hretry : forall ev,
               js_pools_shown [ev] = [] -> js_first_mover [ev] = None ->
               (forall v, ev <> MyRoll v /\ ev <> YourRoll v) ->
               prepend [ChooseYourDie pool; YourSelection; ev]
                 (selectDice_from diceList pool lines w) = (t, o) ->
               (forall p, In p (js_pools_shown t) -> p = pool) /\
               js_first_mover t = None /\
               (forall v, ~ In (MyRoll v) t /\ ~ In (YourRoll v) t) /\
               match o with
               | Done d w' =>
                   In d pool /\ rbytes w' = rbytes w /\ rints w' = rints w
               | Halt h w' => True
               end).
    { intros ev Hev1 Hev2 Hev3 H.
      destruct (selectDice_from diceList pool lines w) as [t1 o1].
      unfold prepend in H; simpl in H. inversion H; subst; clear H.
      destruct (IH _ _ eq_refl) as (Hp & Hf & Hr & Ho).
      repeat split; auto.
      - intros p [<-|Hin]; [reflexivity|].
        change (In p (js_pools_shown ([ev] ++ t1))) in Hin.
        unfold js_pools_shown in Hin. rewrite flat_map_app in Hin.
        fold (js_pools_shown [ev]) in Hin. rewrite Hev1 in Hin. auto.
      - destruct ev; simpl in *; try discriminate; auto.
      - intros [H|[H|[H|H]]]; try discriminate.
        + apply (proj1 (Hev3 v)). auto.
        + apply (proj1 (Hr v)). auto.
      - intros [H|[H|[H|H]]]; try discriminate.
        + apply (proj2 (Hev3 v)). auto.
        + apply (proj2 (Hr v)). auto. }
    assert (Hinv : prepend [ChooseYourDie pool; YourSelection; InvalidSelection]
                     (selectDice_from diceList pool lines w) = (t, o) ->
                   (forall p, In p (js_pools_shown t) -> p = pool) /\
                   js_first_mover t = None /\
                   (forall v, ~ In (MyRoll v) t /\ ~ In (YourRoll v) t) /\
                   match o with
                   | Done d w' =>
                       In d pool /\ rbytes w' = rbytes w /\ rints w' = rints w
                   | Halt h w' => True
                   end).
    { apply Hretry; try reflexivity. split; discriminate. }
    destruct (String.eqb (toUpperCase (trim l)) "X").
    { intro H; inversion H; subst; clear H. repeat split; auto.
      - intros p [<-|[]]. reflexivity.
      - intro H. pick_event H.
      - intro H. pick_event H. }
    destruct (String.eqb (toUpperCase (trim l)) "?").
    { apply Hretry; try reflexivity. split; discriminate. }
    destruct (parseInt (toUpperCase (trim l))) as [i|]; [|exact Hinv].
    destruct ((i >=? 0) && (i <? Z.of_nat (length pool))); [|exact Hinv].
    destruct (index pool i) as [d|] eqn:Hd.
    * intro H; inversion H; subst; clear H. repeat split; auto.
      -- intros p [<-|[]]. reflexivity.
      -- intro H. pick_event H.
      -- intro H. pick_event H.
      -- eapply index_In; eauto.
    * intro H; inversion H; subst; clear H. repeat split; auto.
      -- intros p [<-|[]]. reflexivity.
      -- intro H. pick_event H.
      -- intro H. pick_event H.
Qed.

Lemma computerSelectDice_spec (pool : list Dice) (w : World) t o :
  computerSelectDice pool w = (t, o) ->
  match o with
  | Done d w' => In d pool /\ t = [IChoose d] /\ stdin w' = stdin w
  | Halt h w' => t = []
  end.
Proof.
  unfold computerSelectDice. rewrite bind_run.
  unfold randomIndex. destruct (rints w) as [|e rest].
  { intro H; inversion H; subst. reflexivity. }
  rewrite prepend_nil.
  destruct (index pool _) as [d|] eqn:Hd.
  - rewrite bind_run. cbn [log ret]. unfold prepend; simpl.
    intro H; inversion H; subst. repeat split.
    eapply index_In; eauto.
  - unfold stop. intro H; inversion H; subst. reflexivity.
Qed.

End Pool.

Section Selection.

Lemma chooseDice_first_mover (diceList : list Dice) (r : Z) (w : World) :
  js_first_mover (fst (GameJs.chooseDice diceList r w))
  = Some (if r =? 0 then User else Computer).
Proof.
  unfold GameJs.chooseDice. destruct (r =? 0); rewrite bind_run; cbn [log];
    unfold prepend; reflexivity.
Qed.

Lemma chooseDice_spec (diceList : list Dice) (r : Z) (w : World) t u c w' :
  GameJs.chooseDice diceList r w = (t, Done (u, c) w') ->
  (forall v, ~ In (GameJs.MyRoll v) t /\ ~ In (GameJs.YourRoll v) t) /\
  if r =? 0
  then In u diceList /\ In c (GameJs.remaining diceList u) /\
       (forall p, In p (js_pools_shown t) -> p = diceList)
  else In c diceList /\ In u (GameJs.remaining diceList c) /\
       (forall p, In p (js_pools_shown t) -> p = GameJs.remaining diceList c).
Proof.
  unfold GameJs.chooseDice. destruct (r =? 0).
  - rewrite bind_run. cbn [log]. rewrite bind_run.
    unfold GameJs.selectDice.
    destruct (GameJs.selectDice_from diceList diceList (stdin w) w)
      as [t1 [d1 w1|h w1]] eqn:E1; [|discriminate].
    destruct (selectDice_from_spec _ _ _ _ _ _ E1) as (Hp & _ & Hr & Hin & _).
    rewrite bind_run.
    destruct (GameJs.computerSelectDice (GameJs.remaining diceList d1) w1)
      as [t2 [d2 w2|h w2]] eqn:E2; [|discriminate].
    destruct (computerSelectDice_spec _ _ _ _ E2) as (Hin2 & -> & _).
    cbn [ret]. unfold prepend; simpl. intro H; inversion H; subst; clear H.
    repeat split; auto.
    + intros [H|H]; [discriminate|]. apply in_app_or in H.
      destruct H as [H|H]; [now apply (proj1 (Hr v))|pick_event H].
    + intros [H|H]; [discriminate|]. apply in_app_or in H.
      destruct H as [H|H]; [now apply (proj2 (Hr v))|pick_event H].
    + intros p Hpin. apply Hp.
      change (In p (js_pools_shown (t1 ++ [GameJs.IChoose c]))) in Hpin.
      unfold js_pools_shown in Hpin |- *. rewrite flat_map_app in Hpin.
      simpl in Hpin. now rewrite app_nil_r in Hpin.
  - rewrite bind_run. cbn [log]. rewrite bind_run.
    destruct (GameJs.computerSelectDice diceList w)
      as [t1 [d1 w1|h w1]] eqn:E1; [|discriminate].
    destruct (computerSelectDice_spec _ _ _ _ E1) as (Hin1 & -> & _).
    rewrite bind_run. unfold GameJs.selectDice.
    destruct (GameJs.selectDice_from diceList (GameJs.remaining diceList d1)
                (stdin w1) w1) as [t2 [d2 w2|h w2]] eqn:E2; [|discriminate].
    destruct (selectDice_from_spec _ _ _ _ _ _ E2) as (Hp & _ & Hr & Hin & _).
    cbn [ret]. unfold prepend; simpl. intro H; inversion H; subst; clear H.
    rewrite app_nil_r. repeat split; auto.
    + intros [H|[H|H]]; try discriminate. now apply (proj1 (Hr v)).
    + intros [H|[H|H]]; try discriminate. now apply (proj2 (Hr v)).
Qed.

Lemma splice1_spec {A} (l : list A) (i : Z) (a : A) (rest : list A) :
  IndexTs.splice1 l i = (Some a, rest) ->
  exists l1 l2, l = l1 ++ a :: l2 /\ rest = l1 ++ l2.
Proof.
  unfold IndexTs.splice1, index. intro H.
  pose proof (f_equal fst H) as Hi. pose proof (f_equal snd H) as Hr.
  cbn [fst snd] in Hi, Hr. clear H.
  destruct (i <? 0); [discriminate|].
  destruct (nth_error_split _ _ Hi) as (l1 & l2 & Hl & Hlen).
  exists l1, l2. split; [exact Hl|]. rewrite <- Hr, Hl.
  rewrite firstn_app, skipn_app, <- Hlen, firstn_all, Nat.sub_diag.
  rewrite skipn_all2 by lia.
  replace (S (length l1) - length l1)%nat with 1%nat by lia.
  simpl. now rewrite app_nil_r.
Qed.

Lemma splice1_pool (l : list Dice) (i : Z) (d : Dice) (rest : list Dice) :
  distinct_objects l ->
  IndexTs.splice1 l i = (Some d, rest) ->
  In d l /\
  (forall d', In d' rest -> In d' l /\ ident d' <> ident d) /\
  (length rest + 1 = length l)%nat.
Proof.
  unfold distinct_objects. intros Hnd Hs.
  destruct (splice1_spec _ _ _ _ Hs) as (l1 & l2 & -> & ->).
  rewrite map_app in Hnd. simpl in Hnd.
  apply NoDup_remove_2 in Hnd. rewrite <- map_app in Hnd.
  split; [apply in_elt|]. split.
  - intros d' Hin. split.
    + apply in_app_or in Hin. apply in_or_app. simpl. tauto.
    + intro E. apply Hnd. rewrite <- E. now apply in_map.
  - rewrite !length_app. simpl. lia.
Qed.

End Selection.

Section TsSelection.
Import IndexTs.

Lemma ts_selectDice_spec (dice : list Dice) (first : party) (w : World)
    t c u w' :
  selectDice dice first w = (t, Done (Some c, Some u) w') ->
  exists i pool,
    splice1 dice i
    = (Some (match first with Computer => c | User => u end), pool) /\
    In (match first with Computer => u | User => c end) pool /\
    In (Menu "Select your die:"
             (Z.of_nat (length (match first with
                                | Computer => pool
                                | User => dice
                                end)))) t.
Proof.
  unfold selectDice. destruct first.
  - rewrite bind_run.
    destruct (randomInt (Z.of_nat (length dice)) w)
      as [t0 [i w1|h w1]] eqn:Ei; [|discriminate].
    destruct (randomInt_in_range _ _ _ _ _ Ei) as (Hi & -> & _).
    rewrite prepend_nil.
    destruct (splice1 dice i) as [computerDie available] eqn:Es.
    rewrite bind_run. cbn [log]. rewrite bind_run. unfold ui_selectDice.
    destruct (getNumber (Z.of_nat (length available)) "Select your die:" w1)
      as [t1 [[userIdx|] w2|h w2]] eqn:En; try discriminate.
    destruct (getNumber_spec _ _ _ _ _ En) as (_ & Hy & _).
    destruct (Hy userIdx eq_refl) as (Hidx & ->).
    rewrite !bind_run. cbn [log ret]. unfold prepend; simpl.
    intro H; inversion H; subst; clear H.
    exists i, available. split; [exact Es|].
    split; [eapply index_In; eauto|]. right. left. reflexivity.
  - rewrite bind_run. unfold ui_selectDice.
    destruct (getNumber (Z.of_nat (length dice)) "Select your die:" w)
      as [t1 [[userIdx|] w2|h w2]] eqn:En; try discriminate.
    destruct (getNumber_spec _ _ _ _ _ En) as (_ & Hy & _).
    destruct (Hy userIdx eq_refl) as (Hidx & ->).
    destruct (splice1 dice userIdx) as [userDie available] eqn:Es.
    rewrite bind_run. cbn [log]. rewrite bind_run.
    destruct (randomInt (Z.of_nat (length available)) w2)
      as [t0 [i w1|h w1]] eqn:Ei; [|discriminate].
    destruct (randomInt_in_range _ _ _ _ _ Ei) as (Hi & -> & _).
    rewrite !bind_run. cbn [log ret]. unfold prepend; simpl.
    intro H; inversion H; subst; clear H.
    exists userIdx, available. split; [exact Es|].
    split; [eapply index_In; eauto|]. left. reflexivity.
Qed.

End TsSelection.

(** C8, as amended.  In [game.js] the pool handed to the second mover is the
    dice list without the die the first mover chose, by identity: it holds
    exactly the other dice, one fewer when the dice are distinct objects; in
    a game the first mover's die comes from the full list, the second mover's
    from that reduced pool, so the two parties never hold the same die, and
    every pool listed to the user is the one of the user's turn.  In
    [index.ts] the chosen die is spliced out by index: the second mover's
    die comes from the pool without it, one die shorter, and differs from it
    by identity.  Both parsers build distinct objects.  (The dice the first
    mover did not choose are offered to both parties in turn.) *)
Theorem chosen_die_leaves_the_pool :
  (forall diceList chosen,
      (forall d, In d (GameJs.remaining diceList chosen) <->
                 In d diceList /\ ident d <> ident chosen) /\
      (distinct_objects diceList -> In chosen diceList ->
       (length (GameJs.remaining diceList chosen) + 1 = length diceList)%nat)) /\
  (forall diceList r w t u c w',
      GameJs.chooseDice diceList r w = (t, Done (u, c) w') ->
      ident u <> ident c /\
      if r =? 0
      then In u diceList /\ In c (GameJs.remaining diceList u) /\
           (forall p, In p (js_pools_shown t) -> p = diceList)
      else In c diceList /\ In u (GameJs.remaining diceList c) /\
           (forall p, In p (js_pools_shown t) ->
                      p = GameJs.remaining diceList c)) /\
  (forall dice first w t c u w',
      distinct_objects dice ->
      IndexTs.selectDice dice first w = (t, Done (Some c, Some u) w') ->
      ident c <> ident u /\
      exists i pool,
        IndexTs.splice1 dice i
        = (Some (match first with Computer => c | User => u end), pool) /\
        In (match first with Computer => c | User => u end) dice /\
        In (match first with Computer => u | User => c end) pool /\
        (forall d, In d pool ->
                   In d dice /\
                   ident d <> ident (match first with
                                     | Computer => c
                                     | User => u
                                     end)) /\
        (length pool + 1 = length dice)%nat) /\
  (forall args diceList,
      GameJs.parseDiceConfigs args = inr diceList ->
      distinct_objects diceList) /\
  (forall args dice, IndexTs.parse args = inr dice -> distinct_objects dice).
Proof.
  split; [|split; [|split; [|split]]].
  - intros diceList chosen. split.
    + intro d. apply remaining_In.
    + apply remaining_length.
  - intros diceList r w t u c w' Hrun.
    destruct (chooseDice_spec _ _ _ _ _ _ _ Hrun) as (_ & Hspec).
    destruct (r =? 0).
    + destruct Hspec as (Hu & Hc & Hp). split; [|auto].
      apply remaining_In in Hc. destruct Hc as (_ & Hne). congruence.
    + destruct Hspec as (Hc & Hu & Hp). split; [|auto].
      apply remaining_In in Hu. tauto.
  - intros dice first w t c u w' Hnd Hrun.
    destruct (ts_selectDice_spec _ _ _ _ _ _ _ Hrun) as (i & pool & Hs & Hin & _).
    destruct (splice1_pool _ _ _ _ Hnd Hs) as (Hchosen & Hpool & Hlen).
    split.
    + destruct (Hpool _ Hin) as (_ & Hne). destruct first; congruence.
    + exists i, pool. auto.
  - intros args diceList Hparse.
    destruct (parseDiceConfigs_spec _ _ Hparse) as (_ & Hid & _).
    now apply seq_idents_distinct.
  - intros args dice Hparse.
    destruct (parse_spec _ _ Hparse) as (_ & Hid & _).
    now apply seq_idents_distinct.
Qed.

Lemma chosen_die_leaves_the_pool_witness :
  (length (GameJs.remaining demo_dice dieB) + 1 = length demo_dice)%nat /\
  distinct_objects demo_dice.
Proof.
  split.
  - apply (proj1 chosen_die_leaves_the_pool demo_dice dieB).
    + repeat constructor; simpl; intuition discriminate.
    + right. left. reflexivity.
  - apply (proj1 (proj2 (proj2 (proj2 chosen_die_leaves_the_pool)))
             demo_args demo_dice).
    reflexivity.
Defined.

(** C8 as stated fails in its last clause.  With three dice and the
    computer moving first, the computer chooses among all three and takes
    the second; the user is then shown the first and the third, which the
    computer had been offered too. *)
Lemma unchosen_die_offered_to_both :
  GameJs.computerSelectDice demo_dice (demo_world ["0"%string] [1])
  = ([GameJs.IChoose dieB], Done dieB (demo_world ["0"%string] [])) /\
  js_pools_shown
    (fst (GameJs.chooseDice demo_dice 1 (demo_world ["0"%string] [1])))
  = [[dieA; dieC]] /\
  ~ (forall d, ~ (In d demo_dice /\ In d [dieA; dieC])).
Proof.
  split; [reflexivity|]. split; [reflexivity|].
  intro H. apply (H dieA). split; left; reflexivity.
Qed.

(** ** Who moves first *)

Section FirstMover.
Import IndexTs.

Lemma determineFirst_run (w : World) :
  determineFirst w =
  prepend [Determining]
    match generate 2 "Guess my number (0 or 1):" w with
    | (t, Done (Some r) w') =>
        (t, Done (Some (if r =? 0 then Computer else User)) w')
    | (t, Done None w') => (t, Done None w')
    | (t, Halt h w') => (t, Halt h w')
    end.
Proof.
  unfold determineFirst. rewrite bind_run. cbn [log]. rewrite bind_run.
  destruct (generate 2 _ w) as [t [[r|] w'|h w']]; try reflexivity;
    cbn [ret]; unfold prepend; simpl; now rewrite app_nil_r.
Qed.

Lemma determineFirst_spec (w : World) t p w' :
  determineFirst w = (t, Done (Some p) w') ->
  exists secret y r,
    0 <= secret < 2 /\ 0 <= y < 2 /\ r = (secret + y) mod 2 /\
    In (ResultLine secret y r 2) t /\
    p = (if r =? 0 then Computer else User).
Proof.
  rewrite determineFirst_run.
  destruct (generate 2 _ w) as [t1 [[r|] w1|h w1]] eqn:E;
    unfold prepend; simpl; intro H; inversion H; subst; clear H.
  destruct (generate_result_spec _ _ _ _ _ _ E)
    as (secret & y & Hs & Hy & Hin & Hr & _).
  exists secret, y, r. repeat split; auto; try lia. now right.
Qed.

End FirstMover.

(** C1, as amended.  Both programs run the first-mover session over range 2
    and map its result by a fixed rule, and the two rules are opposite.
    [index.ts]: result 0 makes the computer, the committing party, move
    first, and result 1 the user; with secret 0 and contribution 1 the result
    is 1 and the user moves first.  [game.js]: result 0 ("You guessed
    correctly!") makes the user select first, any other result the computer;
    with secret 0 and contribution 1 the result is 1 and the computer selects
    first. *)
Theorem first_mover_convention :
  (forall w t p w',
      IndexTs.determineFirst w = (t, Done (Some p) w') ->
      exists secret y r,
        0 <= secret < 2 /\ 0 <= y < 2 /\ r = (secret + y) mod 2 /\
        In (IndexTs.ResultLine secret y r 2) t /\
        p = (if r =? 0 then Computer else User)) /\
  (exists t w',
      IndexTs.determineFirst (demo_world ["1"%string] [0])
      = (t, Done (Some User) w') /\
      In (IndexTs.ResultLine 0 1 1 2) t) /\
  (forall w t r w',
      GameJs.firstMove w = (t, Done r w') ->
      exists secret y,
        0 <= secret < 2 /\ 0 <= y < 2 /\ r = (secret + y) mod 2 /\
        exists key, In (GameJs.MySelection secret key) t) /\
  (forall diceList r w,
      js_first_mover (fst (GameJs.chooseDice diceList r w))
      = Some (if r =? 0 then User else Computer)) /\
  (exists t w',
      GameJs.firstMove (demo_world ["1"%string] [0]) = (t, Done 1 w') /\
      In (GameJs.MySelection 0 (to_hex zero_key)) t /\
      js_first_mover (fst (GameJs.chooseDice demo_dice 1 w')) = Some Computer).
Proof.
  split; [|split; [|split; [|split]]].
  - apply determineFirst_spec.
  - eexists _, _. split; [vm_compute; reflexivity|]. cbn. auto 10.
  - intros w t r w' Hrun.
    destruct (session_done_reveals _ _ _ _ _ _ firstMove_pattern
                ltac:(repeat split) ltac:(repeat split) _ _ _ _ Hrun)
      as (k & x & y & t0 & Hx & Hy & -> & _ & _ & ->).
    exists x, y. split; [exact Hx|]. split; [exact Hy|].
    split; [now apply rem_in_range|].
    exists (to_hex k). apply in_or_app. right. left. reflexivity.
  - apply chooseDice_first_mover.
  - eexists _, _. split; [vm_compute; reflexivity|].
    split; [cbn; auto 10|]. apply chooseDice_first_mover.
Qed.

Lemma first_mover_convention_witness :
  exists secret y r,
    0 <= secret < 2 /\ 0 <= y < 2 /\ r = (secret + y) mod 2 /\
    In (IndexTs.ResultLine secret y r 2)
       (fst (IndexTs.determineFirst (demo_world ["1"%string] [0]))) /\
    User = (if r =? 0 then Computer else User).
Proof.
  eapply (proj1 first_mover_convention (demo_world ["1"%string] [0])).
  vm_compute. reflexivity.
Defined.

(** C1 as stated fails on [game.js]: with secret 0 and contribution 1 the
    result is 1 and the program announces "I select first."; the computer
    then chooses from the full list before the user is asked. *)
Lemma first_mover_js_reversed :
  exists t w',
    GameJs.firstMove (demo_world ["1"; "0"]%string [0; 1]) = (t, Done 1 w') /\
    In (GameJs.MySelection 0 (to_hex zero_key)) t /\
    js_first_mover (fst (GameJs.chooseDice demo_dice 1 w')) <> Some User /\
    js_first_mover (fst (GameJs.chooseDice demo_dice 1 w')) = Some Computer /\
    fst (GameJs.chooseDice demo_dice 1 w')
    = [GameJs.ISelectFirst; GameJs.IChoose dieB;
       GameJs.ChooseYourDie [dieA; dieC]; GameJs.YourSelection].
Proof.
  eexists _, _. split; [vm_compute; reflexivity|].
  split; [cbn; auto 10|].
  split; [rewrite chooseDice_first_mover; discriminate|].
  split; [apply chooseDice_first_mover|]. vm_compute. reflexivity.
Qed.

(** ** Asking for help *)

Section Help.

Lemma getUserNumber_side_query (range : Z) :
  side_query js_display js_question (GameJs.getUserNumber range).
Proof.
  intros line rest w Hhelp _.
  unfold GameJs.getUserNumber. cbn [stdin with_stdin].
  rewrite (getUserNumber_help _ _ _ _ Hhelp).
  rewrite (getUserNumber_from_frame range rest
             (with_stdin (line :: rest) w) (with_stdin rest w))
    by reflexivity.
  destruct (GameJs.getUserNumber_from range rest (with_stdin rest w))
    as [t o].
  unfold prepend. cbn [fst snd]. split; reflexivity.
Qed.

Lemma generate_help (range : Z) (prompt line : string) (rest : list string)
    (w : World) k x w1 :
  is_help line ->
  next_commitment range w = Some (k, x, w1) ->
  IndexTs.generate range prompt (with_stdin (line :: rest) w)
  = ([IndexTs.Published (range - 1) (IndexTs.calculateHMAC k x);
      IndexTs.Menu prompt range; IndexTs.YourChoice],
     Done None (with_stdin rest w1)).
Proof.
  intros Hhelp Hn.
  pose proof (generate_run range prompt (with_stdin (line :: rest) w)) as Hg.
  rewrite next_commitment_stdin, Hn in Hg. rewrite Hg.
  replace (with_stdin (line :: rest) w1)
    with (with_stdin (line :: rest) (with_stdin rest w1)) by reflexivity.
  rewrite (getNumber_help _ _ _ _ _ Hhelp). reflexivity.
Qed.

Lemma roll_help (die : Dice) (player line : string) (rest : list string)
    (w : World) k x w1 :
  is_help line ->
  next_commitment (IndexTs.numFaces die) w = Some (k, x, w1) ->
  exists t,
    IndexTs.roll die player (with_stdin (line :: rest) w)
    = (t, Done None (with_stdin rest w1)) /\
    ts_published t = [IndexTs.calculateHMAC k x] /\ ts_revealed t = [].
Proof.
  intros Hhelp Hn. rewrite roll_run.
  rewrite (generate_help _ _ _ _ _ _ _ _ Hhelp Hn).
  eexists. split; [reflexivity|]. split; reflexivity.
Qed.

Lemma play_restart_first (fuel : nat) (dice : list Dice) (w : World) t w1 :
  IndexTs.determineFirst w = (t, Done None w1) ->
  IndexTs.play (S fuel) dice w
  = prepend (t ++ [IndexTs.WinProbabilityTable (IndexTs.table_rows dice)])
            (IndexTs.play fuel dice w1).
Proof.
  intro H1. cbn [IndexTs.play]. rewrite bind_run, H1.
  rewrite bind_run. unfold IndexTs.render. cbn [log].
  now rewrite !prepend_prepend.
Qed.

Lemma play_restart_computer_roll (fuel : nat) (dice : list Dice) (w : World)
    t1 first w1 t2 c u w2 t3 w3 :
  IndexTs.determineFirst w = (t1, Done (Some first) w1) ->
  IndexTs.selectDice dice first w1 = (t2, Done (Some c, Some u) w2) ->
  IndexTs.roll c "Computer" w2 = (t3, Done None w3) ->
  IndexTs.play (S fuel) dice w
  = prepend (t1 ++ t2 ++ t3
               ++ [IndexTs.WinProbabilityTable (IndexTs.table_rows dice)])
            (IndexTs.play fuel dice w3).
Proof.
  intros H1 H2 H3. cbn [IndexTs.play]. rewrite bind_run, H1.
  rewrite bind_run, H2. rewrite bind_run, H3.
  rewrite bind_run. unfold IndexTs.render. cbn [log].
  rewrite !prepend_prepend. now rewrite <- !app_assoc.
Qed.

Lemma play_restart_user_roll (fuel : nat) (dice : list Dice) (w : World)
    t1 first w1 t2 c u w2 t3 v w3 t4 w4 :
  IndexTs.determineFirst w = (t1, Done (Some first) w1) ->
  IndexTs.selectDice dice first w1 = (t2, Done (Some c, Some u) w2) ->
  IndexTs.roll c "Computer" w2 = (t3, Done (Some v) w3) ->
  IndexTs.roll u "You" w3 = (t4, Done None w4) ->
  IndexTs.play (S fuel) dice w
  = prepend (t1 ++ t2 ++ t3 ++ t4
               ++ [IndexTs.WinProbabilityTable (IndexTs.table_rows dice)])
            (IndexTs.play fuel dice w4).
Proof.
  intros H1 H2 H3 H4. cbn [IndexTs.play]. rewrite bind_run, H1.
  rewrite bind_run, H2. rewrite bind_run, H3. rewrite bind_run, H4.
  rewrite bind_run. unfold IndexTs.render. cbn [log].
  rewrite !prepend_prepend. now rewrite <- !app_assoc.
Qed.

End Help.

(** C5, as amended.  [game.js]: at the question of a session a help line
    only prints the help text and asks again; the number finally returned,
    the lines and random tapes left, the digest published and the pair
    revealed are those of the run without the line, in [getUserNumber] and
    in each of the three sessions.  [index.ts]: a help line ends the session
    with no result and no reveal, the commitment being used up; [play] then
    prints the probability table and starts over from the first-mover step
    with the next commitment, whichever step the line was typed at. *)
Theorem help_in_a_session :
  (forall range line rest w,
      is_help line ->
      GameJs.getUserNumber range (with_stdin (line :: rest) w)
      = prepend [GameJs.AddYourNumber range; GameJs.HelpText]
                (GameJs.getUserNumber range (with_stdin rest w))) /\
  (forall range,
      side_query js_display js_question (GameJs.getUserNumber range)) /\
  side_query js_display js_question GameJs.firstMove /\
  (forall d, side_query js_display js_question (GameJs.computerRoll d)) /\
  (forall d, side_query js_display js_question (GameJs.userRoll d)) /\
  (forall range prompt line rest w k x w1,
      is_help line ->
      next_commitment range w = Some (k, x, w1) ->
      IndexTs.generate range prompt (with_stdin (line :: rest) w)
      = ([IndexTs.Published (range - 1) (IndexTs.calculateHMAC k x);
          IndexTs.Menu prompt range; IndexTs.YourChoice],
         Done None (with_stdin rest w1))) /\
  (forall die player line rest w k x w1,
      is_help line ->
      next_commitment (IndexTs.numFaces die) w = Some (k, x, w1) ->
      exists t,
        IndexTs.roll die player (with_stdin (line :: rest) w)
        = (t, Done None (with_stdin rest w1)) /\
        ts_published t = [IndexTs.calculateHMAC k x] /\
        ts_revealed t = []) /\
  (forall fuel dice w t w1,
      IndexTs.determineFirst w = (t, Done None w1) ->
      IndexTs.play (S fuel) dice w
      = prepend (t ++ [IndexTs.WinProbabilityTable (IndexTs.table_rows dice)])
                (IndexTs.play fuel dice w1)) /\
  (forall fuel dice w t1 first w1 t2 c u w2 t3 w3,
      IndexTs.determineFirst w = (t1, Done (Some first) w1) ->
      IndexTs.selectDice dice first w1 = (t2, Done (Some c, Some u) w2) ->
      IndexTs.roll c "Computer" w2 = (t3, Done None w3) ->
      IndexTs.play (S fuel) dice w
      = prepend (t1 ++ t2 ++ t3
                   ++ [IndexTs.WinProbabilityTable (IndexTs.table_rows dice)])
                (IndexTs.play fuel dice w3)) /\
  (forall fuel dice w t1 first w1 t2 c u w2 t3 v w3 t4 w4,
      IndexTs.determineFirst w = (t1, Done (Some first) w1) ->
      IndexTs.selectDice dice first w1 = (t2, Done (Some c, Some u) w2) ->
      IndexTs.roll c "Computer" w2 = (t3, Done (Some v) w3) ->
      IndexTs.roll u "You" w3 = (t4, Done None w4) ->
      IndexTs.play (S fuel) dice w
      = prepend (t1 ++ t2 ++ t3 ++ t4
                   ++ [IndexTs.WinProbabilityTable (IndexTs.table_rows dice)])
                (IndexTs.play fuel dice w4)).
Proof.
  repeat apply conj.
  - intros range line rest w Hhelp. unfold GameJs.getUserNumber.
    cbn [stdin with_stdin]. rewrite (getUserNumber_help _ _ _ _ Hhelp).
    now rewrite (getUserNumber_from_frame range rest
                   (with_stdin (line :: rest) w) (with_stdin rest w)).
  - apply getUserNumber_side_query.
  - apply (session_side_query _ _ _ _ _ _ firstMove_pattern); repeat split.
  - intro d.
    apply (session_side_query _ _ _ _ _ _ (computerRoll_pattern d));
      repeat split.
  - intro d.
    apply (session_side_query _ _ _ _ _ _ (userRoll_pattern d));
      repeat split.
  - apply generate_help.
  - apply roll_help.
  - apply play_restart_first.
  - apply play_restart_computer_roll.
  - apply play_restart_user_roll.
Qed.

Lemma help_in_a_session_witness :
  GameJs.getUserNumber 2 (with_stdin ["?"; "1"]%string (demo_world [] [0]))
  = prepend [GameJs.AddYourNumber 2; GameJs.HelpText]
      (GameJs.getUserNumber 2 (with_stdin ["1"%string] (demo_world [] [0]))) /\
  IndexTs.generate 6 "" (with_stdin ["?"; "5"]%string (demo_world [] [4]))
  = ([IndexTs.Published (6 - 1)
        (IndexTs.calculateHMAC (firstn 32 (repeat x00 256)) (4 mod 6));
      IndexTs.Menu "" 6; IndexTs.YourChoice],
     Done None
       (with_stdin ["5"%string]
          (mkWorld [] (skipn 32 (repeat x00 256)) []))).
Proof.
  split.
  - apply (proj1 help_in_a_session 2 "?"%string ["1"%string]
             (demo_world [] [0])).
    reflexivity.
  - apply (proj1 (proj2 (proj2 (proj2 (proj2 (proj2 help_in_a_session)))))
             6 ""%string "?"%string ["5"%string] (demo_world [] [4])).
    + reflexivity.
    + reflexivity.
Defined.

(** C5 as stated fails on [index.ts].  A help line typed at the question of
    a session ends it: [generate] returns no result where the same session
    without the line returns one.  Typed at the computer's roll, after the
    first mover and both dice are settled, it sends the game back to the
    first-mover step: that step is announced twice, three digests are
    published and only the first is ever revealed. *)
Lemma help_restarts_index_ts :
  ~ side_query ts_display ts_question (IndexTs.generate 6 "") /\
  ~ side_query ts_display ts_question (IndexTs.play 3 demo_dice) /\
  ts_restarts
    (fst (IndexTs.play 2 demo_dice
            (demo_world ["0"; "0"; "?"]%string [0; 1; 4; 0]))) = 2%nat /\
  length (ts_published
            (fst (IndexTs.play 2 demo_dice
                    (demo_world ["0"; "0"; "?"]%string [0; 1; 4; 0]))))
  = 3%nat /\
  length (ts_revealed
            (fst (IndexTs.play 2 demo_dice
                    (demo_world ["0"; "0"; "?"]%string [0; 1; 4; 0]))))
  = 1%nat.
Proof.
  split; [|split; [|split; [|split]]].
  - intro H.
    destruct (H "?"%string ["5"%string] (demo_world [] [4]) eq_refl)
      as (Hout & _).
    + exists (IndexTs.Menu "" 6). split; [|reflexivity].
      vm_compute. auto.
    + vm_compute in Hout. discriminate Hout.
  - intro H.
    destruct (H "?"%string ["1"%string] (demo_world [] [0; 1]) eq_refl)
      as (_ & Htrace).
    + exists IndexTs.YourChoice. split; [|reflexivity].
      vm_compute. auto.
    + vm_compute in Htrace. discriminate Htrace.
  - vm_compute. reflexivity.
  - vm_compute. reflexivity.
  - vm_compute. reflexivity.
Qed.

(** ** A whole game never rolls off a die *)

Section WholeGame.

Lemma bind_trace_In {E A B} (m : M E A) (k : A -> M E B) (w : World) (e : E) :
  In e (fst (bind m k w)) ->
  In e (fst (m w)) \/
  exists t a w', m w = (t, Done a w') /\ In e (fst (k a w')).
Proof.
  rewrite bind_run. destruct (m w) as [t [a w'|h w']]; cbn [fst prepend].
  - intro H. apply in_app_or in H. destruct H; eauto 6.
  - auto.
Qed.

Lemma js_rolls_defined_app (a b : list GameJs.event) :
  js_rolls_defined a -> js_rolls_defined b -> js_rolls_defined (a ++ b).
Proof.
  intros Ha Hb v [H|H]; apply in_app_or in H; destruct H; eauto.
Qed.

Lemma firstMove_no_rolls (w : World) :
  js_rolls_defined (fst (GameJs.firstMove w)).
Proof.
  intros v [Hin|Hin];
    apply (session_events _ _ _ _ _ _ firstMove_pattern) in Hin;
    destruct Hin as [Hin|[(? & Hin)|[Hin|(k & x & y & _ & _ & Hin & _)]]];
    try discriminate; pick_event Hin.
Qed.

Lemma chooseDice_no_rolls (diceList : list Dice) (r : Z) (w : World) :
  js_rolls_defined (fst (GameJs.chooseDice diceList r w)).
Proof.
  assert (Hsel : forall pool v, js_rolls_defined
                                  (fst (GameJs.selectDice diceList pool v))).
  { intros pool v z Hz. unfold GameJs.selectDice in Hz.
    destruct (GameJs.selectDice_from diceList pool (stdin v) v)
      as [t o] eqn:E.
    destruct (selectDice_from_spec _ _ _ _ _ _ E) as (_ & _ & Hr & _).
    exfalso. destruct (Hr z) as (H1 & H2). cbn [fst] in Hz. tauto. }
  assert (Hcomp : forall pool v, js_rolls_defined
                                   (fst (GameJs.computerSelectDice pool v))).
  { intros pool v z Hz.
    destruct (GameJs.computerSelectDice pool v) as [t [d w'|h w']] eqn:E;
      pose proof (computerSelectDice_spec _ _ _ _ E) as Hs; cbn [fst] in Hz.
    - destruct Hs as (_ & -> & _). destruct Hz as [Hz|Hz]; pick_event Hz.
    - simpl in Hs. rewrite Hs in Hz. destruct Hz as [[]|[]]. }
  unfold GameJs.chooseDice. intros v Hv.
  assert (Hor : forall t : list GameJs.event,
             In (GameJs.MyRoll v) t \/ In (GameJs.YourRoll v) t ->
             exists e, (e = GameJs.MyRoll v \/ e = GameJs.YourRoll v) /\
                       In e t).
  { intros t [H|H]; eauto. }
  destruct (Hor _ Hv) as (e & He & Hin). clear Hv Hor.
  assert (Hback : forall t : list GameJs.event,
             In e t -> In (GameJs.MyRoll v) t \/ In (GameJs.YourRoll v) t).
  { intros t H. destruct He as [-> | ->]; auto. }
  destruct (r =? 0).
  - apply bind_trace_In in Hin. destruct Hin as [Hin|(t & a & w1 & _ & Hin)].
    { cbn in Hin. destruct Hin as [<-|[]]. destruct He; discriminate. }
    apply bind_trace_In in Hin. destruct Hin as [Hin|(t1 & u & w2 & _ & Hin)].
    { apply Hback in Hin. now apply Hsel in Hin. }
    apply bind_trace_In in Hin. destruct Hin as [Hin|(t2 & c & w3 & _ & Hin)].
    { apply Hback in Hin. now apply Hcomp in Hin. }
    destruct Hin.
  - apply bind_trace_In in Hin. destruct Hin as [Hin|(t & a & w1 & _ & Hin)].
    { cbn in Hin. destruct Hin as [<-|[]]. destruct He; discriminate. }
    apply bind_trace_In in Hin. destruct Hin as [Hin|(t1 & c & w2 & _ & Hin)].
    { apply Hback in Hin. now apply Hcomp in Hin. }
    apply bind_trace_In in Hin. destruct Hin as [Hin|(t2 & u & w3 & _ & Hin)].
    { apply Hback in Hin. now apply Hsel in Hin. }
    destruct Hin.
Qed.

Lemma js_rolls_on_defined (d : Dice) (t : list GameJs.event) :
  js_rolls_on d t -> js_rolls_defined t.
Proof.
  intros (_ & H) v Hv. destruct (H v Hv) as (r & z & _ & _ & -> & _). eauto.
Qed.

Lemma start_rolls_defined (diceList : list Dice) (w : World) :
  (forall d, In d diceList -> length (faces d) = 6%nat) ->
  js_rolls_defined (fst (GameJs.start diceList w)).
Proof.
  intros Hsix v Hv.
  assert (Hor : exists e, (e = GameJs.MyRoll v \/ e = GameJs.YourRoll v) /\
                          In e (fst (GameJs.start diceList w))).
  { destruct Hv; eauto. }
  destruct Hor as (e & He & Hin). clear Hv.
  assert (Hback : forall t : list GameJs.event,
             In e t -> In (GameJs.MyRoll v) t \/ In (GameJs.YourRoll v) t).
  { intros t H. destruct He as [-> | ->]; auto. }
  unfold GameJs.start in Hin.
  apply bind_trace_In in Hin. destruct Hin as [Hin|(t0 & r & w1 & _ & Hin)].
  { apply Hback in Hin. now apply firstMove_no_rolls in Hin. }
  apply bind_trace_In in Hin.
  destruct Hin as [Hin|(t1 & [u c] & w2 & Hchoose & Hin)].
  { apply Hback in Hin. now apply chooseDice_no_rolls in Hin. }
  destruct (chooseDice_spec _ _ _ _ _ _ _ Hchoose) as (_ & Hspec).
  assert (Hdice : In u diceList /\ In c diceList).
  { destruct (r =? 0); destruct Hspec as (H1 & H2 & _);
      apply remaining_In in H2; tauto. }
  destruct Hdice as (Hu & Hc).
  apply bind_trace_In in Hin. destruct Hin as [Hin|(t2 & cr & w3 & _ & Hin)].
  { apply Hback in Hin.
    apply (js_rolls_on_defined c) in Hin; [exact Hin|].
    apply computerRoll_on_die. auto. }
  apply bind_trace_In in Hin. destruct Hin as [Hin|(t3 & ur & w4 & _ & Hin)].
  { apply Hback in Hin.
    apply (js_rolls_on_defined u) in Hin; [exact Hin|].
    apply userRoll_on_die. auto. }
  unfold GameJs.announce in Hin.
  destruct (js_gt ur cr); [|destruct (js_gt cr ur)];
    cbn in Hin; destruct Hin as [<-|[]]; destruct He; discriminate.
Qed.

Lemma main_rolls_defined (args : list string) (w : World) :
  js_rolls_defined (fst (GameJs.main args w)).
Proof.
  unfold GameJs.main.
  destruct (GameJs.parseDiceConfigs args) as [e|diceList] eqn:Hparse.
  - intros v [H|H]; pick_event H.
  - apply start_rolls_defined.
    now destruct (parseDiceConfigs_spec _ _ Hparse).
Qed.

End WholeGame.

Section WholeGameTs.
Import IndexTs.

Lemma randomInt_silent {E} (max : Z) (w : World) :
  fst (randomInt (E:=E) max w) = [].
Proof.
  unfold randomInt. destruct (max <=? 0); [reflexivity|].
  destruct (rints w); reflexivity.
Qed.

Lemma getNumber_no_rolls (range : Z) (prompt : string) (w : World) p v :
  ~ In (Rolled p v) (fst (getNumber range prompt w)).
Proof.
  destruct (getNumber range prompt w) as [t o] eqn:E.
  destruct (getNumber_spec _ _ _ _ _ E) as ([-> | ->] & _);
    intro H; pick_event H.
Qed.

Lemma generate_no_rolls (range : Z) (prompt : string) (w : World) p v :
  ~ In (Rolled p v) (fst (generate range prompt w)).
Proof.
  pose proof (generate_cases range prompt w) as Hc.
  destruct (next_commitment range w) as [[[k x] w1]|].
  - destruct Hc as [(y & w2 & _ & E)|[(t' & w2 & Ht & E)|(h & w2 & E)]];
      rewrite E; intro H; try destruct Ht as [-> | ->]; pick_event H.
  - destruct Hc as (h & w' & E). rewrite E. intros [].
Qed.

Lemma determineFirst_no_rolls (w : World) p v :
  ~ In (Rolled p v) (fst (determineFirst w)).
Proof.
  rewrite determineFirst_run.
  pose proof (generate_no_rolls 2 "Guess my number (0 or 1):" w p v) as Hg.
  destruct (generate 2 _ w) as [t [[r|] w'|h w']]; cbn [fst prepend app] in *;
    intros [H|H]; try discriminate; auto.
Qed.

Lemma ts_selectDice_no_rolls (dice : list Dice) (first : party) (w : World)
    p v :
  ~ In (Rolled p v) (fst (selectDice dice first w)).
Proof.
  unfold selectDice, ui_selectDice. intro Hin. destruct first.
  - apply bind_trace_In in Hin. destruct Hin as [Hin|(t & i & w1 & _ & Hin)].
    { now rewrite randomInt_silent in Hin. }
    destruct (splice1 dice i) as [cd avail].
    apply bind_trace_In in Hin. destruct Hin as [Hin|(t1 & [] & w2 & _ & Hin)].
    { pick_event Hin. }
    apply bind_trace_In in Hin.
    destruct Hin as [Hin|(t2 & userIdx & w3 & _ & Hin)].
    { now apply getNumber_no_rolls in Hin. }
    destruct userIdx as [userIdx|]; [|destruct Hin].
    apply bind_trace_In in Hin. destruct Hin as [Hin|(t3 & [] & w4 & _ & Hin)].
    { pick_event Hin. }
    destruct Hin.
  - apply bind_trace_In in Hin.
    destruct Hin as [Hin|(t2 & userIdx & w3 & _ & Hin)].
    { now apply getNumber_no_rolls in Hin. }
    destruct userIdx as [userIdx|]; [|destruct Hin].
    destruct (splice1 dice userIdx) as [ud avail].
    apply bind_trace_In in Hin. destruct Hin as [Hin|(t3 & [] & w4 & _ & Hin)].
    { pick_event Hin. }
    apply bind_trace_In in Hin. destruct Hin as [Hin|(t & i & w1 & _ & Hin)].
    { now rewrite randomInt_silent in Hin. }
    apply bind_trace_In in Hin. destruct Hin as [Hin|(t1 & [] & w2 & _ & Hin)].
    { pick_event Hin. }
    destruct Hin.
Qed.

Lemma roll_rolls_defined (d : Dice) (player : string) (w : World) :
  ts_rolls_defined (fst (roll d player w)).
Proof.
  intros p v Hin. destruct (roll_on_die d player w) as ((_ & H) & _).
  destruct (H p v Hin) as (r & z & _ & _ & -> & _). eauto.
Qed.

Lemma play_rolls_defined (fuel : nat) (dice : list Dice) (w : World) :
  ts_rolls_defined (fst (play fuel dice w)).
Proof.
  revert w. induction fuel as [|fuel IH]; intros w p v Hin.
  { destruct Hin. }
  assert (Hagain : forall w0,
             In (Rolled p v) (fst (bind (render dice)
                                        (fun _ => play fuel dice) w0)) ->
             exists z, v = Some z).
  { intros w0 H. apply bind_trace_In in H.
    destruct H as [H|(t & [] & w1 & _ & H)]; [pick_event H|].
    eapply IH; eauto. }
  cbn [play] in Hin.
  apply bind_trace_In in Hin. destruct Hin as [Hin|(t0 & first & w1 & _ & Hin)].
  { now apply determineFirst_no_rolls in Hin. }
  destruct first as [first|]; [|now apply Hagain in Hin].
  apply bind_trace_In in Hin.
  destruct Hin as [Hin|(t1 & [cd ud] & w2 & _ & Hin)].
  { now apply ts_selectDice_no_rolls in Hin. }
  destruct cd as [c|]; [|now apply Hagain in Hin].
  destruct ud as [u|]; [|now apply Hagain in Hin].
  apply bind_trace_In in Hin. destruct Hin as [Hin|(t2 & cr & w3 & _ & Hin)].
  { eapply roll_rolls_defined; eauto. }
  destruct cr as [cr|]; [|now apply Hagain in Hin].
  apply bind_trace_In in Hin. destruct Hin as [Hin|(t3 & ur & w4 & _ & Hin)].
  { eapply roll_rolls_defined; eauto. }
  destruct ur as [ur|]; [|now apply Hagain in Hin].
  apply bind_trace_In in Hin. destruct Hin as [Hin|(t4 & [] & w5 & _ & Hin)].
  { pick_event Hin. }
  destruct (js_gt ur cr); [|destruct (js_lt ur cr)]; pick_event Hin.
Qed.

Lemma ts_main_rolls_defined (fuel : nat) (args : list string) (w : World) :
  ts_rolls_defined (fst (main fuel args w)).
Proof.
  unfold main. destruct (parse args) as [msg|dice].
  - intros p v H. pick_event H.
  - pose proof (play_rolls_defined fuel dice w) as Hp.
    destruct (play fuel dice w) as [t [[] w'|h w']]; cbn [fst] in *;
      try exact Hp.
    destruct h; cbn [fst]; try exact Hp.
    intros p v H. apply in_app_or in H. destruct H as [H|H]; [eauto|].
    pick_event H.
Qed.

End WholeGameTs.

(** ** The loop of index.ts needs no more turns than there are lines *)

Section Progress.
Import IndexTs.
Context {E : Type}.

Lemma advances_weaken {A} (m : M E A) : advances true m -> advances false m.
Proof.
  intros H w t o Hrun. specialize (H w t o Hrun).
  destruct o; [simpl in *; lia|exact H].
Qed.

Lemma advances_bind {A B} (b1 b2 : bool) (m : M E A) (k : A -> M E B) :
  advances b1 m -> (forall a, advances b2 (k a)) ->
  advances (b1 || b2) (bind m k).
Proof.
  intros Hm Hk w t o. rewrite bind_run.
  destruct (m w) as [t1 [a w1|h w1]] eqn:E1.
  - destruct (k a w1) as [t2 o2] eqn:E2. unfold prepend. cbn [fst snd].
    intro H; inversion H; subst; clear H.
    specialize (Hm _ _ _ E1). specialize (Hk a _ _ _ E2). simpl in Hm.
    destruct o; [|exact Hk].
    destruct b1, b2; simpl in *; lia.
  - intro H; inversion H; subst; clear H. exact (Hm _ _ _ E1).
Qed.

Lemma advances_ret {A} (a : A) : advances false (ret (E:=E) a).
Proof. intros w t o H. inversion H; subst. simpl. lia. Qed.

Lemma advances_log (e : E) : advances false (log e).
Proof. intros w t o H. inversion H; subst. simpl. lia. Qed.

Lemma advances_randomBytes (n : nat) : advances false (randomBytes (E:=E) n).
Proof.
  intros w t o. unfold randomBytes.
  destruct (length (rbytes w) <? n)%nat; intro H; inversion H; subst;
    simpl; [discriminate|lia].
Qed.

Lemma advances_randomInt (max : Z) : advances false (randomInt (E:=E) max).
Proof.
  intros w t o. unfold randomInt.
  destruct (max <=? 0); [intro H; inversion H; subst; discriminate|].
  destruct (rints w); intro H; inversion H; subst; simpl;
    [discriminate|lia].
Qed.

End Progress.

Section ProgressTs.
Import IndexTs.

Lemma advances_getNumber (range : Z) (prompt : string) :
  advances true (getNumber range prompt).
Proof.
  intros w t o Hrun. destruct (getNumber_spec _ _ _ _ _ Hrun) as (_ & Ho).
  destruct o as [r w'|h w'].
  - tauto.
  - destruct Ho as ([-> | ->] & _); discriminate.
Qed.

Lemma advances_generate (range : Z) (prompt : string) :
  advances true (generate range prompt).
Proof.
  unfold generate.
  apply (advances_bind false true); [apply advances_randomBytes|]. intro key.
  apply (advances_bind false true); [apply advances_randomInt|]. intro n.
  apply (advances_bind false true); [apply advances_log|]. intros _.
  apply (advances_bind true false); [apply advances_getNumber|].
  intros [userNum|]; [|apply advances_ret].
  apply (advances_bind false false); [apply advances_log|]. intros _.
  apply (advances_bind false false); [apply advances_log|]. intros _.
  apply advances_ret.
Qed.

Lemma advances_determineFirst : advances true determineFirst.
Proof.
  unfold determineFirst.
  apply (advances_bind false true); [apply advances_log|]. intros _.
  apply (advances_bind true false); [apply advances_generate|].
  intros [r|]; apply advances_ret.
Qed.

Lemma advances_selectDice (dice : list Dice) (first : party) :
  advances false (selectDice dice first).
Proof.
  unfold selectDice, ui_selectDice. destruct first.
  - apply (advances_bind false false); [apply advances_randomInt|]. intro i.
    destruct (splice1 dice i) as [cd avail].
    apply (advances_bind false false); [apply advances_log|]. intros _.
    apply (advances_bind false false);
      [apply advances_weaken, advances_getNumber|].
    intros [userIdx|]; [|apply advances_ret].
    apply (advances_bind false false); [apply advances_log|]. intros _.
    apply advances_ret.
  - apply (advances_bind false false);
      [apply advances_weaken, advances_getNumber|].
    intros [userIdx|]; [|apply advances_ret].
    destruct (splice1 dice userIdx) as [ud avail].
    apply (advances_bind false false); [apply advances_log|]. intros _.
    apply (advances_bind false false); [apply advances_randomInt|]. intro i.
    apply (advances_bind false false); [apply advances_log|]. intros _.
    apply advances_ret.
Qed.

Lemma advances_roll (die : Dice) (player : string) :
  advances true (roll die player).
Proof.
  unfold roll.
  apply (advances_bind false true); [apply advances_log|]. intros _.
  apply (advances_bind true false); [apply advances_generate|].
  intros [i|]; [|apply advances_ret].
  apply (advances_bind false false); [apply advances_log|]. intros _.
  apply advances_ret.
Qed.

(** With more fuel than lines on standard input, [play] never stops for
    lack of fuel: it ends the game, exits, waits for input, or fails as the
    program would. *)
Lemma play_has_fuel (fuel : nat) (dice : list Dice) (w : World) t h w' :
  (length (stdin w) < fuel)%nat ->
  play fuel dice w = (t, Halt h w') -> h <> OutOfFuel.
Proof.
  revert w t h w'. induction fuel as [|fuel IH]; intros w t h w' Hlen;
    [lia|].
  assert (Hagain : forall w0 t0 h0 w0',
             (length (stdin w0) < length (stdin w))%nat ->
             bind (render dice) (fun _ => play fuel dice) w0
             = (t0, Halt h0 w0') -> h0 <> OutOfFuel).
  { intros w0 t0 h0 w0' Hl. rewrite bind_run. unfold render. cbn [log].
    destruct (play fuel dice w0) as [t1 [[] w1|h1 w1]] eqn:Ep;
      unfold prepend; cbn [fst snd]; intro H; inversion H; subst.
    eapply IH; [|exact Ep]. lia. }
  cbn [play]. rewrite bind_run.
  destruct (determineFirst w) as [t0 [first w1|h0 w1]] eqn:E0;
    pose proof (advances_determineFirst _ _ _ E0) as H0; simpl in H0.
  2: { intro H; inversion H; subst. exact H0. }
  unfold prepend; cbn [fst snd].
  destruct first as [first|].
  2: { destruct (bind (render dice) _ w1) as [t1 o1] eqn:E1.
       intro H; inversion H; subst. eapply Hagain; eauto. }
  rewrite bind_run.
  destruct (selectDice dice first w1) as [t1 [[cd ud] w2|h1 w2]] eqn:E1;
    pose proof (advances_selectDice _ _ _ _ _ E1) as H1; simpl in H1.
  2: { intro H; inversion H; subst. exact H1. }
  unfold prepend; cbn [fst snd].
  assert (Hnull : forall t2 o2,
             bind (render dice) (fun _ => play fuel dice) w2 = (t2, o2) ->
             (t0 ++ t1 ++ t2, o2) = (t, Halt h w') -> h <> OutOfFuel).
  { intros t2 o2 E2 H. inversion H; subst. eapply Hagain; [|exact E2]. lia. }
  destruct cd as [c|].
  2: { destruct (bind (render dice) _ w2) as [t2 o2] eqn:E2.
       destruct ud; now apply Hnull. }
  destruct ud as [u|].
  2: { destruct (bind (render dice) _ w2) as [t2 o2] eqn:E2. now apply Hnull. }
  rewrite bind_run.
  destruct (roll c "Computer" w2) as [t2 [cr w3|h2 w3]] eqn:E2;
    pose proof (advances_roll _ _ _ _ _ E2) as H2; simpl in H2.
  2: { intro H; inversion H; subst. exact H2. }
  unfold prepend; cbn [fst snd].
  destruct cr as [cr|].
  2: { destruct (bind (render dice) _ w3) as [t3 o3] eqn:E3.
       intro H; inversion H; subst. eapply Hagain; [|exact E3]. lia. }
  rewrite bind_run.
  destruct (roll u "You" w3) as [t3 [ur w4|h3 w4]] eqn:E3;
    pose proof (advances_roll _ _ _ _ _ E3) as H3; simpl in H3.
  2: { intro H; inversion H; subst. exact H3. }
  unfold prepend; cbn [fst snd].
  destruct ur as [ur|].
  2: { destruct (bind (render dice) _ w4) as [t4 o4] eqn:E4.
       intro H; inversion H; subst. eapply Hagain; [|exact E4]. lia. }
  rewrite bind_run. cbn [log]. unfold prepend; cbn [fst snd].
  destruct (js_gt ur cr); [|destruct (js_lt ur cr)]; cbn [log snd];
    intro H; inversion H.
Qed.

End ProgressTs.

(** C10.  For every die the parser of [game.js] lets through (six faces),
    every index its two roll sessions compute is below the face count and
    every value they print or return is a face of the die, never
    [undefined]; in [index.ts] the same holds of [roll] for every die its
    parser lets through, the range of the session being the die's own face
    count.  In a whole run of either program, from the arguments on, no
    roll printed is [undefined]. *)
Theorem rolls_never_leave_the_die :
  (forall args diceList d,
      GameJs.parseDiceConfigs args = inr diceList -> In d diceList ->
      forall w,
        js_rolls_on d (fst (GameJs.computerRoll d w)) /\
        js_rolls_on d (fst (GameJs.userRoll d w)) /\
        (forall t v w', GameJs.computerRoll d w = (t, Done v w') ->
                        exists z, v = Some z /\ In z (faces d)) /\
        (forall t v w', GameJs.userRoll d w = (t, Done v w') ->
                        exists z, v = Some z /\ In z (faces d))) /\
  (forall args dice d,
      IndexTs.parse args = inr dice -> In d dice ->
      forall player w,
        ts_rolls_on d (fst (IndexTs.roll d player w)) /\
        (forall t v w', IndexTs.roll d player w = (t, Done (Some v) w') ->
                        exists z, v = Some z /\ In z (faces d))) /\
  (forall args w, js_rolls_defined (fst (GameJs.main args w))) /\
  (forall fuel args w, ts_rolls_defined (fst (IndexTs.main fuel args w))).
Proof.
  split; [|split; [|split]].
  - intros args diceList d Hparse Hin w.
    destruct (parseDiceConfigs_spec _ _ Hparse) as (Hsix & _).
    specialize (Hsix d Hin).
    destruct (js_rolls_return_faces d Hsix) as (Hc & Hu).
    split; [now apply computerRoll_on_die|].
    split; [now apply userRoll_on_die|].
    split; [apply Hc|apply Hu].
  - intros args dice d _ _ player w. apply roll_on_die.
  - apply main_rolls_defined.
  - apply ts_main_rolls_defined.
Qed.

Lemma rolls_never_leave_the_die_witness :
  js_rolls_on dieA
    (fst (GameJs.computerRoll dieA (demo_world ["3"%string] [4]))) /\
  ts_rolls_on dieC
    (fst (IndexTs.roll dieC "You" (demo_world ["3"%string] [4]))).
Proof.
  split.
  - apply (proj1 rolls_never_leave_the_die demo_args demo_dice dieA);
      [reflexivity|left; reflexivity].
  - apply (proj1 (proj2 rolls_never_leave_the_die) demo_args demo_dice dieC);
      [reflexivity|right; right; left; reflexivity].
Defined.

(** * Further properties of the code *)

(** ** More on the probability engine *)

Section EngineFacts.

Lemma wins_over_perm_left (A A' B : list Z) :
  Permutation A A' -> wins_over A B = wins_over A' B.
Proof.
  unfold wins_over. induction 1 as [|a A A' _ IH|a b A|A A' A'' _ IH1 _ IH2].
  - reflexivity.
  - rewrite !(count_cons_left Z.gtb). now rewrite IH.
  - rewrite !(count_cons_left Z.gtb). lia.
  - congruence.
Qed.

Lemma wins_over_perm_right (A B B' : list Z) :
  Permutation B B' -> wins_over A B = wins_over A B'.
Proof.
  unfold wins_over. induction 1 as [|b B B' _ IH|a b B|B B' B'' _ IH1 _ IH2].
  - reflexivity.
  - rewrite !(count_cons_right Z.gtb). now rewrite IH.
  - rewrite !(count_cons_right Z.gtb). lia.
  - congruence.
Qed.

Lemma win_fraction_bounds (A B : Dice) :
  (0 <= win_fraction A B <= 1)%Q.
Proof.
  unfold win_fraction, cross_size.
  pose proof (wins_le_cross (faces A) (faces B)) as Hle.
  destruct (Nat.eq_dec (length (faces A) * length (faces B)) 0) as [E|Hne].
  - rewrite E in *. replace (wins_over (faces A) (faces B)) with 0%nat by lia.
    unfold Qdiv. simpl. rewrite Qmult_0_l. split; [apply Qle_refl|discriminate].
  - assert (Hpos : (0 < inject_Z (Z.of_nat (length (faces A) * length (faces B))))%Q).
    { change 0%Q with (inject_Z 0). rewrite <- Zlt_Qlt. lia. }
    split.
    + apply Qle_shift_div_l; [exact Hpos|]. rewrite Qmult_0_l.
      change 0%Q with (inject_Z 0). rewrite <- Zle_Qle. lia.
    + apply Qle_shift_div_r; [exact Hpos|]. rewrite Qmult_1_l.
      rewrite <- Zle_Qle. lia.
Qed.

End EngineFacts.

(** X1.  The win probability does not depend on the order of the faces
    within either die: permuting the faces of the first die, of the second,
    or of both leaves the answer of [calculate] ([index.ts]) and of
    [calculateWinProbability] ([game.js]) unchanged. *)
Theorem win_probability_order_independent (A A' B B' : Dice) :
  Permutation (faces A) (faces A') ->
  Permutation (faces B) (faces B') ->
  IndexTs.calculate A B = IndexTs.calculate A' B' /\
  GameJs.calculateWinProbability A B = GameJs.calculateWinProbability A' B'.
Proof.
  intros HA HB.
  unfold IndexTs.calculate, GameJs.calculateWinProbability, GameJs.getFaces,
    IndexTs.numFaces.
  cbv zeta. rewrite ?count_wins_ts, ?count_wins_js.
  rewrite (wins_over_perm_left _ _ _ HA), (wins_over_perm_right _ _ _ HB).
  rewrite (Permutation_length HA), (Permutation_length HB).
  split; reflexivity.
Qed.

Lemma win_probability_order_independent_witness :
  IndexTs.calculate dieA dieB
  = IndexTs.calculate (mkDice 10 (rev (faces dieA)))
                      (mkDice 11 (rev (faces dieB))) /\
  GameJs.calculateWinProbability dieA dieB
  = GameJs.calculateWinProbability (mkDice 10 (rev (faces dieA)))
                                   (mkDice 11 (rev (faces dieB))).
Proof.
  apply (win_probability_order_independent dieA _ dieB _);
    apply Permutation_rev.
Defined.

(** X2.  [calculate] of [index.ts] always answers a rational of [0, 1], and
    0 as soon as one die has no face (its guard against dividing by zero);
    [calculateWinProbability] of [game.js] is never negative, is at most 1
    whenever the two face counts multiply to at most 36, and exceeds 1 as soon
    as more than 36 face pairs are won. *)
Theorem win_probability_bounds :
  (forall A B : Dice, (0 <= IndexTs.calculate A B <= 1)%Q) /\
  (forall A B : Dice,
      faces A = [] \/ faces B = [] -> IndexTs.calculate A B = 0%Q) /\
  (forall A B : Dice, (0 <= GameJs.calculateWinProbability A B)%Q) /\
  (forall A B : Dice,
      (length (faces A) * length (faces B) <= 36)%nat ->
      (GameJs.calculateWinProbability A B <= 1)%Q) /\
  (forall A B : Dice,
      (36 < wins_over (faces A) (faces B))%nat ->
      (1 < GameJs.calculateWinProbability A B)%Q).
Proof.
  split; [|split; [|split; [|split]]].
  - intros A B. rewrite calculate_fraction_ts. apply win_fraction_bounds.
  - intros A B H. unfold IndexTs.calculate, IndexTs.numFaces.
    destruct H as [-> | ->]; simpl; [reflexivity|].
    now rewrite Z.mul_0_r.
  - intros A B. unfold GameJs.calculateWinProbability, GameJs.getFaces.
    cbv zeta. rewrite count_wins_js. unfold Qle. simpl. lia.
  - intros A B H. unfold GameJs.calculateWinProbability, GameJs.getFaces.
    cbv zeta. rewrite count_wins_js. pose proof (wins_le_cross (faces A) (faces B)).
    unfold Qle. simpl. lia.
  - intros A B H. unfold GameJs.calculateWinProbability, GameJs.getFaces.
    cbv zeta. rewrite count_wins_js. unfold Qlt. simpl. lia.
Qed.

Lemma win_probability_bounds_witness :
  IndexTs.calculate (mkDice 0 []) dieA = 0%Q /\
  (GameJs.calculateWinProbability dieA dieB <= 1)%Q /\
  (1 < GameJs.calculateWinProbability seven_twos seven_ones)%Q.
Proof.
  split; [|split].
  - apply (proj1 (proj2 win_probability_bounds)). left. reflexivity.
  - apply (proj1 (proj2 (proj2 (proj2 win_probability_bounds)))).
    simpl. lia.
  - apply (proj2 (proj2 (proj2 (proj2 win_probability_bounds)))).
    vm_compute. lia.
Defined.

Section TableFacts.

Lemma same_object_positions (pool : list Dice) (i j : nat) (a b : Dice) :
  distinct_objects pool ->
  nth_error pool i = Some a -> nth_error pool j = Some b ->
  same_object a b = (i =? j)%nat.
Proof.
  unfold distinct_objects, same_object. intros Hnd Ha Hb.
  destruct (Nat.eqb_spec i j) as [->|Hne].
  - rewrite Ha in Hb. inversion Hb; subst. apply Nat.eqb_refl.
  - apply Nat.eqb_neq. intro E. apply Hne.
    rewrite NoDup_nth_error in Hnd. apply Hnd.
    + rewrite length_map. apply nth_error_Some. congruence.
    + rewrite !nth_error_map, Ha, Hb. simpl. now rewrite E.
Qed.

End TableFacts.

(** X3.  The probability table is the full square matrix over the dice
    list: row i is headed by the faces of die i and has one cell per die, the
    cell of column j holding the probability of die i against die j, for
    every ordered pair.  When the dice are distinct objects the cell is
    marked as a die against itself exactly on the diagonal: [game.js] flags
    it (and still computes its probability), [index.ts] puts "-" there. *)
Theorem probability_table_cells (diceList : list Dice) (i j : nat)
    (di dj : Dice) :
  distinct_objects diceList ->
  nth_error diceList i = Some di ->
  nth_error diceList j = Some dj ->
  length (GameJs.generateProbabilityTable diceList) = length diceList /\
  length (IndexTs.table_rows diceList) = length diceList /\
  (exists row,
      nth_error (GameJs.generateProbabilityTable diceList) i
      = Some (faces di, row) /\
      length row = length diceList /\
      nth_error row j
      = Some ((i =? j)%nat, GameJs.calculateWinProbability di dj)) /\
  (exists row,
      nth_error (IndexTs.table_rows diceList) i = Some (faces di, row) /\
      length row = length diceList /\
      nth_error row j
      = Some (if (i =? j)%nat then None
              else Some (IndexTs.calculate di dj))).
Proof.
  intros Hnd Hi Hj.
  unfold GameJs.generateProbabilityTable, IndexTs.table_rows, GameJs.getFaces.
  rewrite !length_map. split; [reflexivity|]. split; [reflexivity|].
  split; eexists; rewrite nth_error_map, Hi; cbn [option_map];
    (split; [reflexivity|]); rewrite length_map;
    (split; [reflexivity|]); rewrite nth_error_map, Hj; cbn [option_map];
    now rewrite (same_object_positions _ _ _ _ _ Hnd Hi Hj).
Qed.

Lemma probability_table_cells_witness :
  exists row,
    nth_error (IndexTs.table_rows demo_dice) 1 = Some (faces dieB, row) /\
    length row = length demo_dice /\
    nth_error row 2 = Some (if (1 =? 2)%nat then None
                            else Some (IndexTs.calculate dieB dieC)).
Proof.
  apply (probability_table_cells demo_dice 1 2 dieB dieC).
  - repeat constructor; simpl; intuition discriminate.
  - reflexivity.
  - reflexivity.
Defined.

(** ** What the parsers accept *)

Section ParserFacts.

Lemma parse_args_js_accepts (args : list string) (acc dl : list Dice) :
  GameJs.parse_args args acc = inr dl <->
  exists vss,
    Forall2 (fun arg vs =>
               GameJs.parse_values (split_comma arg) = Some vs /\
               length vs = 6%nat) args vss /\
    dl = acc ++ number_dice (length acc) vss.
Proof.
  revert acc. induction args as [|arg args IH]; intro acc;
    cbn [GameJs.parse_args].
  - split.
    + intro H. inversion H; subst. exists []. split; [constructor|].
      simpl. now rewrite app_nil_r.
    + intros (vss & HF & ->). inversion HF; subst. simpl.
      now rewrite app_nil_r.
  - destruct (GameJs.parse_values (split_comma arg)) as [values|] eqn:Ev.
    + destruct (Nat.eqb_spec (length values) 6) as [Hlen|Hlen]; cbn [negb].
      * rewrite IH. split.
        -- intros (vss & HF & ->). exists (values :: vss).
           split; [constructor; auto|].
           rewrite length_app, <- app_assoc. simpl.
           now replace (length acc + 1)%nat with (S (length acc)) by lia.
        -- intros (vss & HF & ->). inversion HF as [|? vs ? vss' (Hv & _) HF']; subst.
           rewrite Ev in Hv. inversion Hv; subst.
           exists vss'. split; [exact HF'|].
           rewrite length_app, <- app_assoc. simpl.
           now replace (length acc + 1)%nat with (S (length acc)) by lia.
      * split; [discriminate|].
        intros (vss & HF & _). inversion HF as [|? vs ? vss' (Hv & Hl) HF']; subst.
        rewrite Ev in Hv. inversion Hv; subst. contradiction.
    + split; [discriminate|].
      intros (vss & HF & _). inversion HF as [|? vs ? vss' (Hv & Hl) HF']; subst.
      rewrite Ev in Hv. discriminate.
Qed.

Lemma parse_args_js_error (args : list string) (acc : list Dice) :
  GameJs.parse_args args acc <> inl GameJs.TooFewDice.
Proof.
  revert acc. induction args as [|arg args IH]; intro acc;
    cbn [GameJs.parse_args]; [discriminate|].
  destruct (GameJs.parse_values (split_comma arg)); [|discriminate].
  destruct (negb _); [discriminate|apply IH].
Qed.

Lemma parse_args_ts_accepts (args : list string) (acc dl : list Dice)
    (n : nat) :
  n <> 0%nat ->
  IndexTs.parse_args args acc (Some n) = inr dl <->
  exists vss,
    Forall2 (fun arg vs =>
               IndexTs.parse_faces (split_comma arg) = Some vs /\
               length vs = n) args vss /\
    dl = acc ++ number_dice (length acc) vss.
Proof.
  intro Hn. revert acc. induction args as [|arg args IH]; intro acc;
    cbn [IndexTs.parse_args].
  - split.
    + intro H. inversion H; subst. exists []. split; [constructor|].
      simpl. now rewrite app_nil_r.
    + intros (vss & HF & ->). inversion HF; subst. simpl.
      now rewrite app_nil_r.
  - destruct (IndexTs.parse_faces (split_comma arg)) as [fs|] eqn:Ev.
    + destruct (Nat.eqb_spec (length fs) 0) as [Hz|Hz].
      { split; [discriminate|].
        intros (vss & HF & _).
        inversion HF as [|? vs ? vss' (Hv & Hl) HF']; subst.
        rewrite Ev in Hv. inversion Hv; subst. contradiction. }
      destruct (Nat.eqb_spec (length fs) n) as [Hlen|Hlen]; cbn [negb].
      * rewrite IH. split.
        -- intros (vss & HF & ->). exists (fs :: vss).
           split; [constructor; auto|].
           rewrite length_app, <- app_assoc. simpl.
           now replace (length acc + 1)%nat with (S (length acc)) by lia.
        -- intros (vss & HF & ->).
           inversion HF as [|? vs ? vss' (Hv & _) HF']; subst.
           rewrite Ev in Hv. inversion Hv; subst.
           exists vss'. split; [exact HF'|].
           rewrite length_app, <- app_assoc. simpl.
           now replace (length acc + 1)%nat with (S (length acc)) by lia.
      * split; [discriminate|].
        intros (vss & HF & _).
        inversion HF as [|? vs ? vss' (Hv & Hl) HF']; subst.
        rewrite Ev in Hv. inversion Hv; subst. contradiction.
    + split; [discriminate|].
      intros (vss & HF & _).
      inversion HF as [|? vs ? vss' (Hv & Hl) HF']; subst.
      rewrite Ev in Hv. discriminate.
Qed.

Lemma split_comma_nonempty (s : string) : split_comma s <> [].
Proof.
  destruct s as [|c r]; cbn [split_comma]; [discriminate|].
  destruct (Ascii.eqb c ","); [discriminate|].
  destruct (split_comma r); discriminate.
Qed.

Lemma parse_faces_length (pieces : list string) (fs : list Z) :
  IndexTs.parse_faces pieces = Some fs -> length fs = length pieces.
Proof.
  revert fs. induction pieces as [|p pieces IH]; intros fs; simpl.
  - intro H; inversion H; reflexivity.
  - destruct (parseInt p); [|discriminate].
    destruct (IndexTs.parse_faces pieces) as [ps|]; [|discriminate].
    intro H; inversion H; subst. simpl. f_equal. now apply IH.
Qed.

End ParserFacts.

(** ** How a game may stop *)

Section Halts.
Context {E : Type}.
Variable P : halt -> Prop.

Lemma halts_in_bind {A B} (m : M E A) (k : A -> M E B) :
  halts_in P m ->
  (forall w t a w', m w = (t, Done a w') -> halts_in P (k a)) ->
  halts_in P (bind m k).
Proof.
  intros Hm Hk w t h w'. rewrite bind_run.
  destruct (m w) as [t1 [a w1|h1 w1]] eqn:E1.
  - destruct (k a w1) as [t2 o2] eqn:E2. unfold prepend. cbn [fst snd].
    intro H; inversion H; subst. eapply Hk; eauto.
  - intro H; inversion H; subst. eapply Hm; eauto.
Qed.

Lemma halts_in_ret {A} (a : A) : halts_in P (ret (E:=E) a).
Proof. intros w t h w' H. inversion H. Qed.

Lemma halts_in_log (e : E) : halts_in P (log e).
Proof. intros w t h w' H. inversion H. Qed.

End Halts.

Section HaltsJs.
Import GameJs.

Lemma halts_newFairRandomGenerator (range : Z) :
  0 < range ->
  halts_in benign (newFairRandomGenerator (E:=event) range).
Proof.
  intros Hr w t h w' Hrun.
  unfold newFairRandomGenerator, bind, randomBytes, randomInt, ret in Hrun.
  destruct (length (rbytes w) <? 32)%nat.
  { inversion Hrun; subst. unfold benign. auto. }
  cbn [rints stdin rbytes] in Hrun.
  destruct (Z.leb_spec range 0); [lia|].
  destruct (rints w); inversion Hrun; subst. unfold benign. auto.
Qed.

Lemma halts_getUserNumber (range : Z) :
  halts_in benign (getUserNumber range).
Proof.
  intros w t h w' Hrun. unfold getUserNumber in Hrun.
  destruct (getUserNumber_from_spec _ _ _ _ _ Hrun) as (_ & _ & [->| ->] & _);
    unfold benign; auto.
Qed.

Lemma halts_selectDice (diceList pool : list Dice) :
  halts_in benign (selectDice diceList pool).
Proof.
  intros w t h w'. unfold selectDice. generalize (stdin w) as lines.
  intro lines. revert t. induction lines as [|l lines IH]; intro t;
    cbn [selectDice_from].
  - intro H; inversion H; subst. unfold benign. auto.
  - assert (Hretry : forall pre,
               prepend pre (selectDice_from diceList pool lines w)
               = (t, Halt h w') -> benign h).
    { intros pre H.
      destruct (selectDice_from diceList pool lines w) as [t1 o1].
      unfold prepend in H. cbn [fst snd] in H. inversion H; subst.
      eapply IH; eauto. }
    destruct (String.eqb (toUpperCase (trim l)) "X").
    { intro H; inversion H; subst. unfold benign. auto. }
    destruct (String.eqb (toUpperCase (trim l)) "?"); [apply Hretry|].
    destruct (parseInt (toUpperCase (trim l))) as [i|]; [|apply Hretry].
    destruct ((i >=? 0) && (i <? Z.of_nat (length pool))) eqn:Hval;
      [|apply Hretry].
    apply andb_prop in Hval. destruct Hval as (H0 & H1).
    destruct (index_in_range pool i) as (d & Hd & _); [lia|].
    rewrite Hd. discriminate.
Qed.

Lemma halts_computerSelectDice (pool : list Dice) :
  pool <> [] -> halts_in benign (computerSelectDice pool).
Proof.
  intros Hne w t h w'. unfold computerSelectDice. rewrite bind_run.
  unfold randomIndex. destruct (rints w) as [|e rest].
  { intro H; inversion H; subst. unfold benign. auto. }
  rewrite prepend_nil.
  assert (Hlen : 0 < Z.of_nat (length pool)).
  { destruct pool; [contradiction|simpl; lia]. }
  destruct (Z.leb_spec (Z.of_nat (length pool)) 0); [lia|].
  destruct (index_in_range pool (e mod Z.of_nat (length pool)))
    as (d & Hd & _).
  { apply Z.mod_pos_bound. lia. }
  rewrite Hd, bind_run. cbn [log ret]. discriminate.
Qed.

Lemma halts_firstMove : halts_in benign firstMove.
Proof.
  unfold firstMove.
  apply halts_in_bind; [apply halts_in_log|]. intros _ _ _ _ _.
  apply halts_in_bind; [now apply halts_newFairRandomGenerator|].
  intros _ _ frg _ _.
  apply halts_in_bind; [apply halts_in_log|]. intros _ _ _ _ _.
  apply halts_in_bind; [apply halts_getUserNumber|]. intros _ _ y _ _.
  cbv zeta. destruct (reveal frg) as [x key].
  apply halts_in_bind; [apply halts_in_log|]. intros _ _ _ _ _.
  apply halts_in_ret.
Qed.

Lemma halts_computerRoll (d : Dice) : halts_in benign (computerRoll d).
Proof.
  unfold computerRoll.
  apply halts_in_bind; [apply halts_in_log|]. intros _ _ _ _ _.
  apply halts_in_bind; [now apply halts_newFairRandomGenerator|].
  intros _ _ frg _ _.
  apply halts_in_bind; [apply halts_in_log|]. intros _ _ _ _ _.
  apply halts_in_bind; [apply halts_getUserNumber|]. intros _ _ y _ _.
  cbv zeta. destruct (reveal frg) as [x key].
  repeat (apply halts_in_bind; [apply halts_in_log|]; intros _ _ _ _ _).
  apply halts_in_ret.
Qed.

Lemma halts_userRoll (d : Dice) : halts_in benign (userRoll d).
Proof.
  unfold userRoll.
  apply halts_in_bind; [apply halts_in_log|]. intros _ _ _ _ _.
  apply halts_in_bind; [now apply halts_newFairRandomGenerator|].
  intros _ _ frg _ _.
  apply halts_in_bind; [apply halts_in_log|]. intros _ _ _ _ _.
  apply halts_in_bind; [apply halts_getUserNumber|]. intros _ _ y _ _.
  cbv zeta. destruct (reveal frg) as [x key].
  repeat (apply halts_in_bind; [apply halts_in_log|]; intros _ _ _ _ _).
  apply halts_in_ret.
Qed.

Lemma remaining_nonempty (diceList : list Dice) (chosen : Dice) :
  distinct_objects diceList -> (2 <= length diceList)%nat ->
  In chosen diceList -> remaining diceList chosen <> [].
Proof.
  intros Hnd Hlen Hin E.
  pose proof (remaining_length _ _ Hnd Hin) as Hl. rewrite E in Hl.
  simpl in Hl. lia.
Qed.

Lemma halts_chooseDice (diceList : list Dice) (r : Z) :
  distinct_objects diceList -> (2 <= length diceList)%nat ->
  halts_in benign (chooseDice diceList r).
Proof.
  intros Hnd Hlen. unfold chooseDice. destruct (r =? 0).
  - apply halts_in_bind; [apply halts_in_log|]. intros _ _ _ _ _.
    apply halts_in_bind; [apply halts_selectDice|]. intros w t u w' Hu.
    unfold selectDice in Hu.
    destruct (selectDice_from_spec _ _ _ _ _ _ Hu) as (_ & _ & _ & Hin & _).
    apply halts_in_bind.
    + apply halts_computerSelectDice. now apply remaining_nonempty.
    + intros _ _ c _ _. apply halts_in_ret.
  - apply halts_in_bind; [apply halts_in_log|]. intros _ _ _ _ _.
    apply halts_in_bind.
    + apply halts_computerSelectDice. destruct diceList; [simpl in Hlen; lia|].
      discriminate.
    + intros _ _ c _ _.
      apply halts_in_bind; [apply halts_selectDice|]. intros _ _ u _ _.
      apply halts_in_ret.
Qed.

Lemma halts_start (diceList : list Dice) :
  distinct_objects diceList -> (2 <= length diceList)%nat ->
  halts_in benign (start diceList).
Proof.
  intros Hnd Hlen. unfold start.
  apply halts_in_bind; [apply halts_firstMove|]. intros _ _ r _ _.
  apply halts_in_bind; [now apply halts_chooseDice|].
  intros _ _ [u c] _ _.
  apply halts_in_bind; [apply halts_computerRoll|]. intros _ _ cr _ _.
  apply halts_in_bind; [apply halts_userRoll|]. intros _ _ ur _ _.
  unfold announce.
  destruct (js_gt ur cr); [|destruct (js_gt cr ur)]; apply halts_in_log.
Qed.

End HaltsJs.

(** X6.  A run of [game.js] from its arguments stops short in one of four
    ways only.  Rejected arguments print the error and exit with status 1
    before anything is read or drawn; after accepted arguments the game ends
    early only because the user typed X (exit status 0), the input ran dry or
    the random source did: no exception is ever raised, neither the
    TypeError of an undefined die nor the RangeError of an empty range. *)
Theorem game_js_stops (args : list string) (w : World) t h w' :
  GameJs.main args w = (t, Halt h w') ->
  (exists e, GameJs.parseDiceConfigs args = inl e /\
             h = ProcessExit 1 /\ t = [GameJs.ErrorMessage e] /\ w' = w) \/
  (exists diceList, GameJs.parseDiceConfigs args = inr diceList /\ benign h).
Proof.
  unfold GameJs.main.
  destruct (GameJs.parseDiceConfigs args) as [e|diceList] eqn:Hp.
  - rewrite bind_run. cbn [log stop]. unfold prepend; cbn [fst snd app].
    intro H; inversion H; subst. left. exists e. auto.
  - intro H. right. exists diceList. split; [reflexivity|].
    destruct (parseDiceConfigs_spec _ _ Hp) as (_ & Hid & Hlen).
    eapply (halts_start diceList); eauto.
    + now apply seq_idents_distinct.
    + lia.
Qed.

Lemma game_js_stops_witness :
  (exists e, GameJs.parseDiceConfigs ["1,2,3"%string] = inl e /\
             ProcessExit 1 = ProcessExit 1 /\
             [GameJs.ErrorMessage GameJs.TooFewDice]
             = [GameJs.ErrorMessage e] /\
             demo_world [] [] = demo_world [] []) \/
  (exists diceList,
      GameJs.parseDiceConfigs ["1,2,3"%string] = inr diceList /\
      benign (ProcessExit 1)).
Proof.
  apply (game_js_stops ["1,2,3"%string] (demo_world [] [])).
  reflexivity.
Defined.

Section HaltsTs.
Import IndexTs.

Lemma halts_randomInt {E} (max : Z) :
  0 < max -> halts_in benign (randomInt (E:=E) max).
Proof.
  intros Hm w t h w'. unfold randomInt.
  destruct (Z.leb_spec max 0) as [Hle|_]; [lia|].
  destruct (rints w); intro Hrun; inversion Hrun; subst. unfold benign. auto.
Qed.

Lemma halts_randomBytes {E} (n : nat) :
  halts_in benign (randomBytes (E:=E) n).
Proof.
  intros w t h w'. unfold randomBytes.
  destruct (length (rbytes w) <? n)%nat; intro H; inversion H; subst.
  unfold benign. auto.
Qed.

Lemma halts_getNumber (range : Z) (prompt : string) :
  halts_in benign (getNumber range prompt).
Proof.
  intros w t h w' Hrun.
  destruct (getNumber_spec _ _ _ _ _ Hrun) as (_ & [->| ->] & _);
    unfold benign; auto.
Qed.

Lemma halts_generate (range : Z) (prompt : string) :
  0 < range -> halts_in benign (generate range prompt).
Proof.
  intro Hr. unfold generate.
  apply halts_in_bind; [apply halts_randomBytes|]. intros _ _ key _ _.
  apply halts_in_bind; [now apply halts_randomInt|]. intros _ _ n _ _.
  apply halts_in_bind; [apply halts_in_log|]. intros _ _ _ _ _.
  apply halts_in_bind; [apply halts_getNumber|]. intros _ _ [y|] _ _.
  - repeat (apply halts_in_bind; [apply halts_in_log|]; intros _ _ _ _ _).
    apply halts_in_ret.
  - apply halts_in_ret.
Qed.

Lemma halts_determineFirst : halts_in benign determineFirst.
Proof.
  unfold determineFirst.
  apply halts_in_bind; [apply halts_in_log|]. intros _ _ _ _ _.
  apply halts_in_bind; [apply halts_generate; lia|]. intros _ _ [r|] _ _;
    apply halts_in_ret.
Qed.

Lemma halts_roll (die : Dice) (player : string) :
  faces die <> [] -> halts_in benign (roll die player).
Proof.
  intro Hne. unfold roll.
  apply halts_in_bind; [apply halts_in_log|]. intros _ _ _ _ _.
  apply halts_in_bind.
  - apply halts_generate. unfold numFaces.
    destruct (faces die); [contradiction|simpl; lia].
  - intros _ _ [i|] _ _; [|apply halts_in_ret].
    apply halts_in_bind; [apply halts_in_log|]. intros _ _ _ _ _.
    apply halts_in_ret.
Qed.

Lemma splice1_length {A} (l : list A) (i : Z) (a : A) (rest : list A) :
  splice1 l i = (Some a, rest) -> (length rest + 1 = length l)%nat.
Proof.
  intro H. destruct (splice1_spec _ _ _ _ H) as (l1 & l2 & -> & ->).
  rewrite !length_app. simpl. lia.
Qed.

Lemma splice1_in_range {A} (l : list A) (i : Z) :
  0 <= i < Z.of_nat (length l) ->
  exists a rest, splice1 l i = (Some a, rest).
Proof.
  intro Hi. destruct (index_in_range l i Hi) as (a & Ha & _).
  unfold splice1. rewrite Ha. eauto.
Qed.

Lemma halts_ts_selectDice (dice : list Dice) (first : party) :
  (2 <= length dice)%nat -> halts_in benign (selectDice dice first).
Proof.
  intro Hlen. unfold selectDice, ui_selectDice. destruct first.
  - apply halts_in_bind; [apply halts_randomInt; lia|]. intros _ _ i _ _.
    destruct (splice1 dice i) as [cd avail].
    apply halts_in_bind; [apply halts_in_log|]. intros _ _ _ _ _.
    apply halts_in_bind; [apply halts_getNumber|]. intros _ _ [userIdx|] _ _;
      [|apply halts_in_ret].
    apply halts_in_bind; [apply halts_in_log|]. intros _ _ _ _ _.
    apply halts_in_ret.
  - apply halts_in_bind; [apply halts_getNumber|].
    intros w t [userIdx|] w' Hrun; [|apply halts_in_ret].
    destruct (getNumber_spec _ _ _ _ _ Hrun) as (_ & Hy & _).
    destruct (Hy userIdx eq_refl) as (Hidx & _).
    destruct (splice1_in_range dice userIdx Hidx) as (ud & avail & Es).
    rewrite Es. pose proof (splice1_length _ _ _ _ Es) as Hl.
    apply halts_in_bind; [apply halts_in_log|]. intros _ _ _ _ _.
    apply halts_in_bind; [apply halts_randomInt; lia|]. intros _ _ i _ _.
    apply halts_in_bind; [apply halts_in_log|]. intros _ _ _ _ _.
    apply halts_in_ret.
Qed.

Lemma ts_selectDice_members (dice : list Dice) (first : party) (w : World)
    t c u w' :
  selectDice dice first w = (t, Done (Some c, Some u) w') ->
  In c dice /\ In u dice.
Proof.
  intro Hrun.
  destruct (ts_selectDice_spec _ _ _ _ _ _ _ Hrun) as (i & pool & Hs & Hin & _).
  destruct (splice1_spec _ _ _ _ Hs) as (l1 & l2 & Hl & ->).
  assert (Hsub : forall x d, In d (l1 ++ l2) -> In d (l1 ++ x :: l2)).
  { intros x d Hd. apply in_app_or in Hd. apply in_or_app. simpl. tauto. }
  rewrite Hl. destruct first; split; auto; apply in_elt.
Qed.

Lemma halts_weaken {E A} (P Q : halt -> Prop) (m : M E A) :
  (forall h, P h -> Q h) -> halts_in P m -> halts_in Q m.
Proof. intros HPQ Hm w t h w' H. eauto. Qed.

Lemma halts_play (fuel : nat) (dice : list Dice) :
  (2 <= length dice)%nat ->
  (forall d, In d dice -> faces d <> []) ->
  halts_in (fun h => benign h \/ h = OutOfFuel) (play fuel dice).
Proof.
  intros Hlen Hfaces. induction fuel as [|fuel IH]; cbn [play].
  { intros w t h w' H. inversion H; subst. auto. }
  assert (Hagain : halts_in (fun h => benign h \/ h = OutOfFuel)
                     (bind (render dice) (fun _ => play fuel dice))).
  { apply halts_in_bind; [apply halts_in_log|]. intros _ _ _ _ _. exact IH. }
  assert (Hb : forall A (m : M event A),
             halts_in benign m ->
             halts_in (fun h => benign h \/ h = OutOfFuel) m).
  { intros A m. apply halts_weaken. auto. }
  apply halts_in_bind; [apply Hb, halts_determineFirst|].
  intros _ _ [first|] _ _; [|exact Hagain].
  apply halts_in_bind; [now apply Hb, halts_ts_selectDice|].
  intros w1 t1 [[c|] [u|]] w2 Hsel; try exact Hagain.
  destruct (ts_selectDice_members _ _ _ _ _ _ _ Hsel) as (Hc & Hu).
  apply halts_in_bind; [apply Hb, halts_roll; auto|].
  intros _ _ [cr|] _ _; [|exact Hagain].
  apply halts_in_bind; [apply Hb, halts_roll; auto|].
  intros _ _ [ur|] _ _; [|exact Hagain].
  apply halts_in_bind; [apply halts_in_log|]. intros _ _ _ _ _.
  destruct (js_gt ur cr); [|destruct (js_lt ur cr)]; apply halts_in_log.
Qed.

End HaltsTs.

(** X7.  A run of [index.ts] from its arguments, its loop unfolded more
    often than there are input lines, stops short in one of four ways only.
    Rejected arguments print the error and the usage and exit with status 1
    before anything is read or drawn; after accepted arguments the game ends
    early only because the user typed X (exit status 0), the input ran dry or
    the random source did: [play] raises no exception for the [catch] of the
    script to report, so status 1 always means rejected arguments. *)
Theorem index_ts_stops (fuel : nat) (args : list string) (w : World) t h w' :
  (length (stdin w) < fuel)%nat ->
  IndexTs.main fuel args w = (t, Halt h w') ->
  (exists message, IndexTs.parse args = inl message /\
                   h = ProcessExit 1 /\
                   t = [IndexTs.ErrorUsage message] /\ w' = w) \/
  (exists dice, IndexTs.parse args = inr dice /\ benign h /\
                IndexTs.play fuel dice w = (t, Halt h w')).
Proof.
  intros Hfuel. unfold IndexTs.main.
  destruct (IndexTs.parse args) as [message|dice] eqn:Hp.
  - intro H; inversion H; subst. left. exists message. auto.
  - destruct (parse_spec _ _ Hp) as (Hfaces & _ & Hlen).
    assert (Hplay : halts_in (fun h => benign h \/ h = OutOfFuel)
                      (IndexTs.play fuel dice)).
    { apply halts_play; [lia|]. intros d Hd E. specialize (Hfaces d Hd).
      rewrite E in Hfaces. simpl in Hfaces. lia. }
    destruct (IndexTs.play fuel dice w) as [t1 [[] w1|h1 w1]] eqn:Ep;
      [discriminate|].
    assert (Hh1 : benign h1).
    { destruct (Hplay _ _ _ _ Ep) as [Hb | ->]; [exact Hb|].
      exfalso. now apply (play_has_fuel _ _ _ _ _ _ Hfuel Ep). }
    intro H. right. exists dice. split; [reflexivity|].
    destruct h1; try (inversion H; subst; auto; fail).
    destruct Hh1 as [Hh|[Hh|Hh]]; discriminate Hh.
Qed.

Lemma index_ts_stops_witness :
  (exists message,
      IndexTs.parse ["1,2"; "3,4"; "5"]%string = inl message /\
      ProcessExit 1 = ProcessExit 1 /\
      [IndexTs.ErrorUsage "All dice must have the same number of faces."]
      = [IndexTs.ErrorUsage message] /\
      demo_world [] [] = demo_world [] []) \/
  (exists dice,
      IndexTs.parse ["1,2"; "3,4"; "5"]%string = inr dice /\
      benign (ProcessExit 1) /\
      IndexTs.play 1 dice (demo_world [] [])
      = ([IndexTs.ErrorUsage "All dice must have the same number of faces."],
         Halt (ProcessExit 1) (demo_world [] []))).
Proof.
  apply (index_ts_stops 1 ["1,2"; "3,4"; "5"]%string (demo_world [] [])).
  - simpl. lia.
  - reflexivity.
Defined.

(** ** What the questions of game.js accept *)

(** X8.  On plain-text input, [getUserNumber] reads lines until one
    decides.  The number it returns is the integer typed on the last line it
    read and lies in [0, range); the lines before were each a help request
    or rejected (not an integer of the range), answered by the help text or
    by "Please enter a number ..." and the question again; nothing after the
    deciding line is consumed.  It exits with status 0 exactly at the first line that is X,
    and waits for input when every line was passed over. *)
Theorem getUserNumber_contract (range : Z) (w : World) t o :
  Forall (fun l => plain_text l = true) (stdin w) ->
  GameJs.getUserNumber range w = (t, o) ->
  exists skipped rest,
    Forall (passed_over range) skipped /\
    t = js_reprompts range skipped ++ [GameJs.AddYourNumber range] /\
    match o with
    | Done y w' =>
        exists line,
          stdin w = skipped ++ line :: rest /\
          parseInt (toUpperCase (trim line)) = Some y /\
          0 <= y < range /\ w' = with_stdin rest w
    | Halt h w' =>
        (h = ProcessExit 0 /\
         exists line, stdin w = skipped ++ line :: rest /\
                      toUpperCase (trim line) = "X"%string /\
                      w' = with_stdin rest w) \/
        (h = AwaitInput /\ stdin w = skipped /\ w' = with_stdin [] w)
    end.
Proof.
  intros _. unfold GameJs.getUserNumber. generalize (stdin w) as lines. intro lines.
  revert t o. induction lines as [|l lines IH]; intros t o;
    cbn [GameJs.getUserNumber_from].
  - intro H; inversion H; subst. exists [], []. split; [constructor|].
    split; [reflexivity|]. right. auto.
  - assert (Hretry : forall ev,
               passed_over range l ->
               ev = (if String.eqb (toUpperCase (trim l)) "?"
                     then GameJs.HelpText else GameJs.PleaseEnter range) ->
               prepend [GameJs.AddYourNumber range; ev]
                 (GameJs.getUserNumber_from range lines w) = (t, o) ->
               exists skipped rest,
                 Forall (passed_over range) skipped /\
                 t = js_reprompts range skipped ++ [GameJs.AddYourNumber range] /\
                 match o with
                 | Done y w' =>
                     exists line,
                       l :: lines = skipped ++ line :: rest /\
                       parseInt (toUpperCase (trim line)) = Some y /\
                       0 <= y < range /\ w' = with_stdin rest w
                 | Halt h w' =>
                     (h = ProcessExit 0 /\
                      exists line, l :: lines = skipped ++ line :: rest /\
                                   toUpperCase (trim line) = "X"%string /\
                                   w' = with_stdin rest w) \/
                     (h = AwaitInput /\ l :: lines = skipped /\
                      w' = with_stdin [] w)
                 end).
    { intros ev Hpass Hev H.
      destruct (GameJs.getUserNumber_from range lines w) as [t1 o1].
      unfold prepend in H. cbn [fst snd] in H. inversion H; subst; clear H.
      destruct (IH _ _ eq_refl) as (skipped & rest & HF & -> & Ho).
      exists (l :: skipped), rest. split; [constructor; assumption|].
      split; [reflexivity|].
      destruct o as [y w'|h w'].
      - destruct Ho as (line & -> & Hrest). exists line. auto.
      - destruct Ho as [(-> & line & -> & Hrest)|(-> & -> & ->)].
        + left. split; [reflexivity|]. exists line. auto.
        + right. auto. }
    destruct (String.eqb_spec (toUpperCase (trim l)) "X") as [EX|NX].
    { intro H; inversion H; subst. exists [], lines.
      split; [constructor|]. split; [reflexivity|]. left.
      split; [reflexivity|]. exists l. auto. }
    destruct (String.eqb_spec (toUpperCase (trim l)) "?") as [EH|NH].
    { apply Hretry; [|reflexivity]. split; [exact NX|]. now left. }
    destruct (parseInt (toUpperCase (trim l))) as [num|] eqn:Ep.
    2: { apply Hretry; [|reflexivity]. split; [exact NX|].
         right. intros n Hn. rewrite Ep in Hn. discriminate. }
    destruct ((num >=? 0) && (num <? range)) eqn:Hval.
    2: { apply Hretry; [|reflexivity]. split; [exact NX|].
         right. intros n Hn Hr. rewrite Ep in Hn. inversion Hn; subst.
         apply andb_false_iff in Hval. destruct Hval as [Hv|Hv]; lia. }
    intro H; inversion H; subst. apply andb_prop in Hval.
    exists [], lines. split; [constructor|]. split; [reflexivity|].
    exists l. repeat split; auto; lia.
Qed.

Lemma getUserNumber_contract_witness :
  exists skipped rest,
    Forall (passed_over 6) skipped /\
    fst (GameJs.getUserNumber 6 (demo_world ["?"; "9"; " 4 "; "5"]%string []))
    = js_reprompts 6 skipped ++ [GameJs.AddYourNumber 6] /\
    exists line,
      ["?"; "9"; " 4 "; "5"]%string = skipped ++ line :: rest /\
      parseInt (toUpperCase (trim line)) = Some 4 /\
      0 <= 4 < 6 /\
      demo_world ["5"%string] []
      = with_stdin rest (demo_world ["?"; "9"; " 4 "; "5"]%string []).
Proof.
  apply (getUserNumber_contract 6 (demo_world ["?"; "9"; " 4 "; "5"]%string []) _
           (Done 4 (demo_world ["5"%string] []))).
  - repeat constructor.
  - reflexivity.
Defined.

(** X9.  On plain-text input, [selectDice] of [game.js] reads lines until
    one decides.  The die it returns is the entry of the offered pool at the
    index typed on the last line it read; the lines before were each a help
    request, answered by the probability table of the whole dice list (the
    dice already taken included), or rejected with "Invalid selection"; each
    time the offered pool is listed again, and nothing after the deciding
    line is consumed.
    It exits with status 0 at the first line that is X. *)
Theorem selectDice_contract (diceList pool : list Dice) (w : World) t o :
  Forall (fun l => plain_text l = true) (stdin w) ->
  GameJs.selectDice diceList pool w = (t, o) ->
  exists skipped rest,
    Forall (passed_over (Z.of_nat (length pool))) skipped /\
    t = js_reselects diceList pool skipped
        ++ [GameJs.ChooseYourDie pool; GameJs.YourSelection] /\
    match o with
    | Done d w' =>
        exists line i,
          stdin w = skipped ++ line :: rest /\
          parseInt (toUpperCase (trim line)) = Some i /\
          0 <= i < Z.of_nat (length pool) /\
          nth_error pool (Z.to_nat i) = Some d /\
          w' = with_stdin rest w
    | Halt h w' =>
        (h = ProcessExit 0 /\
         exists line, stdin w = skipped ++ line :: rest /\
                      toUpperCase (trim line) = "X"%string /\
                      w' = with_stdin rest w) \/
        (h = AwaitInput /\ stdin w = skipped /\ w' = with_stdin [] w)
    end.
Proof.
  intros _. unfold GameJs.selectDice. generalize (stdin w) as lines. intro lines.
  revert t o. induction lines as [|l lines IH]; intros t o;
    cbn [GameJs.selectDice_from].
  - intro H; inversion H; subst. exists [], []. split; [constructor|].
    split; [reflexivity|]. right. auto.
  - assert (Hretry : forall ev,
               passed_over (Z.of_nat (length pool)) l ->
               ev = (if String.eqb (toUpperCase (trim l)) "?"
                     then GameJs.Table
                            (GameJs.generateProbabilityTable diceList)
                     else GameJs.InvalidSelection) ->
               prepend [GameJs.ChooseYourDie pool; GameJs.YourSelection; ev]
                 (GameJs.selectDice_from diceList pool lines w) = (t, o) ->
               exists skipped rest,
                 Forall (passed_over (Z.of_nat (length pool))) skipped /\
                 t = js_reselects diceList pool skipped
                     ++ [GameJs.ChooseYourDie pool; GameJs.YourSelection] /\
                 match o with
                 | Done d w' =>
                     exists line i,
                       l :: lines = skipped ++ line :: rest /\
                       parseInt (toUpperCase (trim line)) = Some i /\
                       0 <= i < Z.of_nat (length pool) /\
                       nth_error pool (Z.to_nat i) = Some d /\
                       w' = with_stdin rest w
                 | Halt h w' =>
                     (h = ProcessExit 0 /\
                      exists line, l :: lines = skipped ++ line :: rest /\
                                   toUpperCase (trim line) = "X"%string /\
                                   w' = with_stdin rest w) \/
                     (h = AwaitInput /\ l :: lines = skipped /\
                      w' = with_stdin [] w)
                 end).
    { intros ev Hpass Hev H.
      destruct (GameJs.selectDice_from diceList pool lines w) as [t1 o1].
      unfold prepend in H. cbn [fst snd] in H. inversion H; subst; clear H.
      destruct (IH _ _ eq_refl) as (skipped & rest & HF & -> & Ho).
      exists (l :: skipped), rest. split; [constructor; assumption|].
      split; [reflexivity|].
      destruct o as [y w'|h w'].
      - destruct Ho as (line & i & -> & Hrest). exists line, i. auto.
      - destruct Ho as [(-> & line & -> & Hrest)|(-> & -> & ->)].
        + left. split; [reflexivity|]. exists line. auto.
        + right. auto. }
    destruct (String.eqb_spec (toUpperCase (trim l)) "X") as [EX|NX].
    { intro H; inversion H; subst. exists [], lines.
      split; [constructor|]. split; [reflexivity|]. left.
      split; [reflexivity|]. exists l. auto. }
    destruct (String.eqb_spec (toUpperCase (trim l)) "?") as [EH|NH].
    { apply Hretry; [|reflexivity]. split; [exact NX|]. now left. }
    destruct (parseInt (toUpperCase (trim l))) as [i|] eqn:Ep.
    2: { apply Hretry; [|reflexivity]. split; [exact NX|].
         right. intros n Hn. rewrite Ep in Hn. discriminate. }
    destruct ((i >=? 0) && (i <? Z.of_nat (length pool))) eqn:Hval.
    2: { apply Hretry; [|reflexivity]. split; [exact NX|].
         right. intros n Hn Hr. rewrite Ep in Hn. inversion Hn; subst.
         apply andb_false_iff in Hval. destruct Hval as [Hv|Hv]; lia. }
    apply andb_prop in Hval. destruct Hval as (H0 & H1).
    destruct (index_in_range pool i) as (d & Hd & _); [lia|].
    rewrite Hd. intro H; inversion H; subst.
    exists [], lines. split; [constructor|]. split; [reflexivity|].
    exists l, i. repeat split; auto; try lia.
    unfold index in Hd. destruct (i <? 0) eqn:Hneg; [discriminate|exact Hd].
Qed.

Lemma selectDice_contract_witness :
  exists skipped rest,
    Forall (passed_over (Z.of_nat (length [dieA; dieC]))) skipped /\
    fst (GameJs.selectDice demo_dice [dieA; dieC]
           (demo_world ["?"; "2"; "1"]%string []))
    = js_reselects demo_dice [dieA; dieC] skipped
      ++ [GameJs.ChooseYourDie [dieA; dieC]; GameJs.YourSelection] /\
    exists line i,
      ["?"; "2"; "1"]%string = skipped ++ line :: rest /\
      parseInt (toUpperCase (trim line)) = Some i /\
      0 <= i < Z.of_nat (length [dieA; dieC]) /\
      nth_error [dieA; dieC] (Z.to_nat i) = Some dieC /\
      demo_world [] [] = with_stdin rest (demo_world ["?"; "2"; "1"]%string []).
Proof.
  apply (selectDice_contract demo_dice [dieA; dieC]
           (demo_world ["?"; "2"; "1"]%string []) _
           (Done dieC (demo_world [] []))).
  - repeat constructor.
  - reflexivity.
Defined.

(** ** A whole game of game.js, phase by phase *)

Section JsPhases.
Import GameJs.

Lemma js_rolls_app (a b : list event) :
  js_rolls (a ++ b) = js_rolls a ++ js_rolls b.
Proof. apply flat_map_app. Qed.

Lemma js_outcome_app (a b : list event) :
  filter js_outcome (a ++ b) = filter js_outcome a ++ filter js_outcome b.
Proof. apply filter_app. Qed.

(** A trace made of events none of which publishes, reveals, rolls or
    gives a verdict. *)
Lemma quiet_trace (t : list event) :
  Forall (fun e => match e with
                   | ISelected _ _ | MySelection _ _ | MyNumber _ _
                   | MyRoll _ | YourRoll _
                   | YouWin _ _ | IWin _ _ | Draw _ _ => False
                   | _ => True
                   end) t ->
  js_published t = [] /\ js_revealed t = [] /\ js_rolls t = [] /\
  filter js_outcome t = [].
Proof.
  induction 1 as [|e t He _ (IH1 & IH2 & IH3 & IH4)]; [auto|].
  destruct e; try contradiction; simpl; auto.
Qed.

Lemma prompts_quiet (t : list event) :
  Forall (fun e => js_prompt e = true) t ->
  js_rolls t = [] /\ filter js_outcome t = [].
Proof.
  intro H. apply quiet_trace. eapply Forall_impl; [|exact H].
  intros e He. destruct e; auto; discriminate.
Qed.

Lemma selectDice_from_events (diceList pool : list Dice)
    (lines : list string) (w : World) :
  Forall (fun e => match e with
                   | ChooseYourDie _ | YourSelection | Table _
                   | InvalidSelection => True
                   | _ => False
                   end) (fst (selectDice_from diceList pool lines w)).
Proof.
  induction lines as [|l lines IH]; cbn [selectDice_from].
  { repeat constructor. }
  destruct (String.eqb _ "X"); [repeat constructor|].
  destruct (String.eqb _ "?"); [unfold prepend; repeat constructor; exact IH|].
  destruct (parseInt _) as [i|];
    [|unfold prepend; repeat constructor; exact IH].
  destruct (_ && _); [|unfold prepend; repeat constructor; exact IH].
  destruct (index pool i); repeat constructor.
Qed.

Lemma selectDice_quiet (diceList pool : list Dice) (w : World) :
  js_published (fst (selectDice diceList pool w)) = [] /\
  js_revealed (fst (selectDice diceList pool w)) = [] /\
  js_rolls (fst (selectDice diceList pool w)) = [] /\
  filter js_outcome (fst (selectDice diceList pool w)) = [].
Proof.
  apply quiet_trace. unfold selectDice.
  eapply Forall_impl; [|apply selectDice_from_events].
  intros e He. destruct e; auto.
Qed.

Lemma selectDice_tapes (diceList pool : list Dice) (w : World) t d w' :
  selectDice diceList pool w = (t, Done d w') ->
  rbytes w' = rbytes w /\ rints w' = rints w.
Proof.
  intro E. unfold selectDice in E.
  destruct (selectDice_from_spec _ _ _ _ _ _ E) as (_ & _ & _ & _ & Hb & Hi).
  auto.
Qed.

Lemma computerSelectDice_tapes (pool : list Dice) (w : World) t d w' :
  computerSelectDice pool w = (t, Done d w') ->
  rbytes w' = rbytes w /\ exists e, rints w = e :: rints w'.
Proof.
  unfold computerSelectDice. rewrite bind_run. unfold randomIndex.
  destruct (rints w) as [|e rest] eqn:Er; [discriminate|].
  rewrite prepend_nil. destruct (index pool _) as [sel|]; [|discriminate].
  rewrite bind_run. cbn [log ret]. unfold prepend; cbn [fst snd].
  intro H; inversion H; subst. simpl. eauto.
Qed.

Lemma chooseDice_quiet (diceList : list Dice) (r : Z) (w : World) :
  js_published (fst (chooseDice diceList r w)) = [] /\
  js_revealed (fst (chooseDice diceList r w)) = [] /\
  js_rolls (fst (chooseDice diceList r w)) = [] /\
  filter js_outcome (fst (chooseDice diceList r w)) = [].
Proof.
  unfold chooseDice. destruct (r =? 0).
  - rewrite bind_run. cbn [log]. rewrite bind_run.
    pose proof (selectDice_quiet diceList diceList w) as (S1 & S2 & S3 & S4).
    destruct (selectDice diceList diceList w) as [t1 [u w1|h w1]];
      cbn [fst] in *; unfold prepend; cbn [fst snd].
    + rewrite bind_run.
      destruct (computerSelectDice (remaining diceList u) w1)
        as [t2 [c w2|h w2]] eqn:E2;
        pose proof (computerSelectDice_spec _ _ _ _ E2) as Hs;
        cbn [prepend fst snd ret]; unfold prepend; cbn [fst snd].
      * destruct Hs as (_ & -> & _).
        change (YouSelectFirst :: ?l) with ([YouSelectFirst] ++ l).
        rewrite !js_published_app, !js_revealed_app, !js_rolls_app,
          !js_outcome_app, S1, S2, S3, S4. auto.
      * simpl in Hs. subst t2.
        change (YouSelectFirst :: ?l) with ([YouSelectFirst] ++ l).
        rewrite !js_published_app, !js_revealed_app, !js_rolls_app,
          !js_outcome_app, S1, S2, S3, S4. auto.
    + change (YouSelectFirst :: ?l) with ([YouSelectFirst] ++ l).
      rewrite !js_published_app, !js_revealed_app, !js_rolls_app,
        !js_outcome_app, S1, S2, S3, S4. auto.
  - rewrite bind_run. cbn [log]. rewrite bind_run.
    destruct (computerSelectDice diceList w) as [t1 [c w1|h w1]] eqn:E1;
      pose proof (computerSelectDice_spec _ _ _ _ E1) as Hs;
      unfold prepend; cbn [fst snd].
    + destruct Hs as (_ & -> & _). rewrite bind_run.
      pose proof (selectDice_quiet diceList (remaining diceList c) w1)
        as (S1 & S2 & S3 & S4).
      destruct (selectDice diceList (remaining diceList c) w1)
        as [t2 [u w2|h w2]]; cbn [fst] in *; unfold prepend;
        cbn [fst snd ret];
        change (ISelectFirst :: [IChoose c] ++ ?l)
          with ([ISelectFirst; IChoose c] ++ l);
        rewrite !js_published_app, !js_revealed_app, !js_rolls_app,
          !js_outcome_app, ?S1, ?S2, ?S3, ?S4; auto.
    + simpl in Hs. subst t1. auto.
Qed.

End JsPhases.

Section BindInversion.
Context {E A B : Type}.

Lemma bind_inv (m : M E A) (k : A -> M E B) (w : World) t o :
  bind m k w = (t, o) ->
  (exists t1 a w1 t2,
      m w = (t1, Done a w1) /\ k a w1 = (t2, o) /\ t = t1 ++ t2) \/
  (exists h w1, m w = (t, Halt h w1) /\ o = Halt h w1).
Proof.
  rewrite bind_run. destruct (m w) as [t1 [a w1|h w1]].
  - destruct (k a w1) as [t2 o2] eqn:E2. unfold prepend. cbn [fst snd].
    intro H; inversion H; subst. left. exists t1, a, w1, t2. auto.
  - intro H; inversion H; subst. right. eauto.
Qed.

End BindInversion.

(** The sessions of [game.js] once more, now with the world they leave. *)
Section JsSessionRuns.
Import GameJs.

Context {A : Type}.
Variable s : M event A.
Variable range hi : Z.
Variable e0 : event.
Variable tail : list byte -> Z -> Z -> list event.
Variable val : Z -> Z -> A.

Hypothesis s_run : forall w,
  match next_commitment range w with
  | Some (k, x, w1) =>
      s w = prepend [e0; ISelected hi (computeHMAC k x)]
              match getUserNumber range w1 with
              | (t, Done y w2) => (t ++ tail k x y, Done (val x y) w2)
              | (t, Halt h w2) => (t, Halt h w2)
              end
  | None => exists h w', s w = ([e0], Halt h w')
  end.

Lemma session_done (w : World) t r w' :
  s w = (t, Done r w') ->
  exists k x w1 y t',
    next_commitment range w = Some (k, x, w1) /\
    0 <= x < range /\ 0 <= y < range /\ r = val x y /\
    Forall (fun e => js_prompt e = true) t' /\
    t = e0 :: ISelected hi (computeHMAC k x) :: AddYourNumber range
           :: t' ++ tail k x y /\
    rbytes w' = rbytes w1 /\ rints w' = rints w1.
Proof.
  intro Hrun. pose proof (s_run w) as Hs.
  destruct (next_commitment range w) as [[[k x] w1]|] eqn:Hn.
  2: { destruct Hs as (h & w'' & Hs). congruence. }
  destruct (next_commitment_spec _ _ _ _ _ Hn) as (Hx & _).
  destruct (after_number range w1 (tail k x) (val x)) as (t' & Hall & Hcase).
  destruct Hcase as [(y & w2 & Hy & Hb & Hi & _ & E)|(h & w2 & _ & E)];
    rewrite E in Hs; rewrite Hs in Hrun; unfold prepend in Hrun;
    cbn [fst snd app] in Hrun; inversion Hrun; subst.
  exists k, x, w1, y, t'. repeat split; auto; lia.
Qed.

Lemma session_halt (w : World) t h w' :
  s w = (t, Halt h w') ->
  t = [e0] \/
  exists d t', Forall (fun e => js_prompt e = true) t' /\
               t = e0 :: ISelected hi d :: AddYourNumber range :: t'.
Proof.
  intro Hrun. pose proof (s_run w) as Hs.
  destruct (next_commitment range w) as [[[k x] w1]|] eqn:Hn.
  2: { destruct Hs as (h' & w'' & Hs). left. congruence. }
  destruct (after_number range w1 (tail k x) (val x)) as (t' & Hall & Hcase).
  destruct Hcase as [(y & w2 & Hy & Hb & Hi & _ & E)|(h' & w2 & _ & E)];
    rewrite E in Hs; rewrite Hs in Hrun; unfold prepend in Hrun;
    cbn [fst snd app] in Hrun; inversion Hrun; subst.
  right. eauto.
Qed.

Lemma session_halt_commitment (w : World) t h w' :
  s w = (t, Halt h w') ->
  t = [e0] \/
  exists k x w1 t',
    next_commitment range w = Some (k, x, w1) /\
    Forall (fun e => js_prompt e = true) t' /\
    t = e0 :: ISelected hi (computeHMAC k x) :: AddYourNumber range :: t'.
Proof.
  intro Hrun. pose proof (s_run w) as Hs.
  destruct (next_commitment range w) as [[[k x] w1]|] eqn:Hn.
  2: { destruct Hs as (h' & w'' & Hs). left. congruence. }
  destruct (after_number range w1 (tail k x) (val x)) as (t' & Hall & Hcase).
  destruct Hcase as [(y & w2 & Hy & Hb & Hi & _ & E)|(h' & w2 & _ & E)];
    rewrite E in Hs; rewrite Hs in Hrun; unfold prepend in Hrun;
    cbn [fst snd app] in Hrun; inversion Hrun; subst.
  right. exists k, x, w1, t'. auto.
Qed.

End JsSessionRuns.

Section JsWholeGame.
Import GameJs.

Lemma start_done (diceList : list Dice) (w : World) t w' :
  start diceList w = (t, Done tt w') ->
  exists t1 r w1 t2 u c w2 t3 cr w3 t4 ur,
    firstMove w = (t1, Done r w1) /\
    chooseDice diceList r w1 = (t2, Done (u, c) w2) /\
    computerRoll c w2 = (t3, Done cr w3) /\
    userRoll u w3 = (t4, Done ur w') /\
    t = t1 ++ t2 ++ t3 ++ t4 ++ fst (announce ur cr w').
Proof.
  unfold start. intro H.
  apply bind_inv in H.
  destruct H as [(t1 & r & w1 & t' & H1 & H & ->)|(h & w1 & _ & H)];
    [|discriminate].
  apply bind_inv in H.
  destruct H as [(t2 & [u c] & w2 & t'' & H2 & H & ->)|(h & w2 & _ & H)];
    [|discriminate].
  apply bind_inv in H.
  destruct H as [(t3 & cr & w3 & t''' & H3 & H & ->)|(h & w3 & _ & H)];
    [|discriminate].
  apply bind_inv in H.
  destruct H as [(t4 & ur & w4 & t5 & H4 & H & ->)|(h & w4 & _ & H)];
    [|discriminate].
  assert (Hw : w4 = w' /\ t5 = fst (announce ur cr w4)).
  { unfold announce in H |- *.
    destruct (js_gt ur cr); [|destruct (js_gt cr ur)];
      inversion H; subst; auto. }
  destruct Hw as (-> & ->).
  exists t1, r, w1, t2, u, c, w2, t3, cr, w3, t4, ur. auto.
Qed.

End JsWholeGame.

Section JsWholeGameFacts.
Import GameJs.

Lemma chooseDice_tapes (diceList : list Dice) (r : Z) (w : World) t u c w' :
  chooseDice diceList r w = (t, Done (u, c) w') ->
  rbytes w' = rbytes w /\ exists e, rints w = e :: rints w'.
Proof.
  unfold chooseDice. destruct (r =? 0); intro H.
  - apply bind_inv in H. destruct H as [(t0 & [] & w0 & t1 & H0 & H & _)|(h & w0 & _ & H)];
      [|discriminate]. inversion H0; subst; clear H0.
    apply bind_inv in H. destruct H as [(t2 & u' & w2 & t3 & H2 & H & _)|(h & w2 & _ & H)];
      [|discriminate].
    apply bind_inv in H. destruct H as [(t4 & c' & w4 & t5 & H4 & H & _)|(h & w4 & _ & H)];
      [|discriminate].
    inversion H; subst.
    destruct (selectDice_tapes _ _ _ _ _ _ H2) as (Hb & Hi).
    destruct (computerSelectDice_tapes _ _ _ _ _ H4) as (Hb' & e & Hi').
    split; [congruence|]. exists e. congruence.
  - apply bind_inv in H. destruct H as [(t0 & [] & w0 & t1 & H0 & H & _)|(h & w0 & _ & H)];
      [|discriminate]. inversion H0; subst; clear H0.
    apply bind_inv in H. destruct H as [(t4 & c' & w4 & t5 & H4 & H & _)|(h & w4 & _ & H)];
      [|discriminate].
    apply bind_inv in H. destruct H as [(t2 & u' & w2 & t3 & H2 & H & _)|(h & w2 & _ & H)];
      [|discriminate].
    inversion H; subst.
    destruct (selectDice_tapes _ _ _ _ _ _ H2) as (Hb & Hi).
    destruct (computerSelectDice_tapes _ _ _ _ _ H4) as (Hb' & e & Hi').
    split; [congruence|]. exists e. congruence.
Qed.

Lemma session_shape_published (e0 : event) (hi range : Z) (d : string)
    (t' tl : list event) :
  js_published [e0] = [] ->
  Forall (fun e => js_prompt e = true) t' ->
  js_published (e0 :: ISelected hi d :: AddYourNumber range :: t' ++ tl)
  = d :: js_published tl.
Proof.
  intros H0 Hall. destruct (prompts_are_silent _ Hall) as (Hp & _).
  change (js_published ([e0] ++ [ISelected hi d; AddYourNumber range]
                          ++ t' ++ tl) = d :: js_published tl).
  now rewrite !js_published_app, H0, Hp.
Qed.

Lemma session_shape_revealed (e0 : event) (hi range : Z) (d : string)
    (t' tl : list event) :
  js_revealed [e0] = [] ->
  Forall (fun e => js_prompt e = true) t' ->
  js_revealed (e0 :: ISelected hi d :: AddYourNumber range :: t' ++ tl)
  = js_revealed tl.
Proof.
  intros H0 Hall. destruct (prompts_are_silent _ Hall) as (_ & Hr & _).
  change (js_revealed ([e0] ++ [ISelected hi d; AddYourNumber range]
                         ++ t' ++ tl) = js_revealed tl).
  now rewrite !js_revealed_app, H0, Hr.
Qed.

Lemma session_shape_rolls (e0 : event) (hi range : Z) (d : string)
    (t' tl : list event) :
  js_rolls [e0] = [] ->
  Forall (fun e => js_prompt e = true) t' ->
  js_rolls (e0 :: ISelected hi d :: AddYourNumber range :: t' ++ tl)
  = js_rolls tl.
Proof.
  intros H0 Hall. destruct (prompts_quiet _ Hall) as (Hr & _).
  change (js_rolls ([e0] ++ [ISelected hi d; AddYourNumber range]
                      ++ t' ++ tl) = js_rolls tl).
  now rewrite !js_rolls_app, H0, Hr.
Qed.

Lemma session_shape_outcome (e0 : event) (hi range : Z) (d : string)
    (t' tl : list event) :
  filter js_outcome [e0] = [] ->
  Forall (fun e => js_prompt e = true) t' ->
  filter js_outcome
    (e0 :: ISelected hi d :: AddYourNumber range :: t' ++ tl)
  = filter js_outcome tl.
Proof.
  intros H0 Hall. destruct (prompts_quiet _ Hall) as (_ & Ho).
  change (filter js_outcome ([e0] ++ [ISelected hi d; AddYourNumber range]
                               ++ t' ++ tl) = filter js_outcome tl).
  now rewrite !js_outcome_app, H0, Ho.
Qed.

Lemma halted_session_quiet (e0 : event) (hi range : Z) (t : list event) :
  js_rolls [e0] = [] -> filter js_outcome [e0] = [] ->
  (t = [e0] \/
   exists d t', Forall (fun e => js_prompt e = true) t' /\
                t = e0 :: ISelected hi d :: AddYourNumber range :: t') ->
  js_rolls t = [] /\ filter js_outcome t = [].
Proof.
  intros Hr Ho [->|(d & t' & Hall & ->)]; [auto|].
  rewrite <- (app_nil_r t').
  rewrite session_shape_rolls, session_shape_outcome by assumption. auto.
Qed.

End JsWholeGameFacts.

(** X10.  A game of [game.js] that runs to its end holds exactly three
    sessions, for the first move and for the two rolls.  It publishes three
    digests and reveals three (secret, key) pairs, in the same order, each
    digest being the keyed hash of its pair; the secrets lie in [0, 2),
    [0, 6) and [0, 6), and the three keys are the first three 32-byte blocks
    of the random bytes, none used twice.  The game takes 96 random bytes
    and four random draws: the three secrets and, second, the computer's
    choice of a die. *)
Theorem game_js_three_commitments (diceList : list Dice) (w : World) t w' :
  GameJs.start diceList w = (t, Done tt w') ->
  exists e1 e2 e3 e4,
    rints w = e1 :: e2 :: e3 :: e4 :: rints w' /\
    rbytes w' = skipn 96 (rbytes w) /\
    js_published t
    = [GameJs.computeHMAC (firstn 32 (rbytes w)) (e1 mod 2);
       GameJs.computeHMAC (firstn 32 (skipn 32 (rbytes w))) (e3 mod 6);
       GameJs.computeHMAC (firstn 32 (skipn 64 (rbytes w))) (e4 mod 6)] /\
    js_revealed t
    = [(e1 mod 2, to_hex (firstn 32 (rbytes w)));
       (e3 mod 6, to_hex (firstn 32 (skipn 32 (rbytes w))));
       (e4 mod 6, to_hex (firstn 32 (skipn 64 (rbytes w))))].
Proof.
  intro Hrun.
  destruct (start_done _ _ _ _ Hrun)
    as (t1 & r & w1 & t2 & u & c & w2 & t3 & cr & w3 & t4 & ur
        & H1 & H2 & H3 & H4 & ->).
  destruct (session_done _ _ _ _ _ _ firstMove_pattern _ _ _ _ H1)
    as (k1 & x1 & v1 & y1 & p1 & N1 & _ & _ & _ & A1 & -> & B1 & I1).
  destruct (session_done _ _ _ _ _ _ (computerRoll_pattern c) _ _ _ _ H3)
    as (k2 & x2 & v2 & y2 & p2 & N2 & _ & _ & _ & A2 & -> & B2 & I2).
  destruct (session_done _ _ _ _ _ _ (userRoll_pattern u) _ _ _ _ H4)
    as (k3 & x3 & v3 & y3 & p3 & N3 & _ & _ & _ & A3 & -> & B3 & I3).
  destruct (next_commitment_spec _ _ _ _ _ N1)
    as (_ & -> & (e1 & E1 & ->) & _ & R1).
  destruct (next_commitment_spec _ _ _ _ _ N2)
    as (_ & -> & (e3 & E3 & ->) & _ & R2).
  destruct (next_commitment_spec _ _ _ _ _ N3)
    as (_ & -> & (e4 & E4 & ->) & _ & R3).
  destruct (chooseDice_tapes _ _ _ _ _ _ _ H2) as (Bc & e2 & Ic).
  destruct (chooseDice_quiet diceList r w1) as (Q1 & Q2 & _).
  rewrite H2 in Q1, Q2. cbn [fst] in Q1, Q2.
  assert (Hb2 : rbytes w2 = skipn 32 (rbytes w)) by congruence.
  assert (Hb3 : rbytes w3 = skipn 64 (rbytes w)).
  { rewrite B2, R2, Hb2, skipn_skipn. reflexivity. }
  exists e1, e2, e3, e4. split; [|split; [|split]].
  - rewrite E1, <- I1, Ic, E3, <- I2, E4, <- I3. reflexivity.
  - rewrite B3, R3, Hb3, skipn_skipn. reflexivity.
  - rewrite !js_published_app, Q1.
    rewrite !session_shape_published by (assumption || reflexivity).
    unfold GameJs.announce.
    rewrite Hb2, Hb3.
    destruct (js_gt ur cr); [|destruct (js_gt cr ur)]; reflexivity.
  - rewrite !js_revealed_app, Q2.
    rewrite !session_shape_revealed by (assumption || reflexivity).
    unfold GameJs.announce.
    rewrite Hb2, Hb3.
    destruct (js_gt ur cr); [|destruct (js_gt cr ur)]; reflexivity.
Qed.

Lemma game_js_three_commitments_witness :
  exists e1 e2 e3 e4,
    [0; 1; 4; 5] = e1 :: e2 :: e3 :: e4 :: [] /\
    skipn 96 (repeat x00 256) = skipn 96 (repeat x00 256) /\
    js_published
      (fst (GameJs.start demo_dice
              (demo_world ["1"; "0"; "3"; "2"]%string [0; 1; 4; 5])))
    = [GameJs.computeHMAC (firstn 32 (repeat x00 256)) (e1 mod 2);
       GameJs.computeHMAC (firstn 32 (skipn 32 (repeat x00 256))) (e3 mod 6);
       GameJs.computeHMAC (firstn 32 (skipn 64 (repeat x00 256))) (e4 mod 6)] /\
    js_revealed
      (fst (GameJs.start demo_dice
              (demo_world ["1"; "0"; "3"; "2"]%string [0; 1; 4; 5])))
    = [(e1 mod 2, to_hex (firstn 32 (repeat x00 256)));
       (e3 mod 6, to_hex (firstn 32 (skipn 32 (repeat x00 256))));
       (e4 mod 6, to_hex (firstn 32 (skipn 64 (repeat x00 256))))].
Proof.
  apply (game_js_three_commitments demo_dice
           (demo_world ["1"; "0"; "3"; "2"]%string [0; 1; 4; 5]) _
           (mkWorld [] (skipn 96 (repeat x00 256)) [])).
  vm_compute. reflexivity.
Defined.

Section JsVerdict.
Import GameJs.

Lemma announce_verdict (u c : Z) (w : World) :
  announce (Some u) (Some c) w = ([js_verdict u c], Done tt w).
Proof.
  unfold announce, js_verdict, js_gt.
  destruct (u >? c); [|destruct (c >? u)]; reflexivity.
Qed.

Lemma chooseDice_members (diceList : list Dice) (r : Z) (w : World) t u c w' :
  chooseDice diceList r w = (t, Done (u, c) w') ->
  In u diceList /\ In c diceList /\ ident u <> ident c.
Proof.
  intro H. destruct (chooseDice_spec _ _ _ _ _ _ _ H) as (_ & Hc).
  destruct (r =? 0).
  - destruct Hc as (Hu & Hin & _). apply remaining_In in Hin.
    destruct Hin. repeat split; auto.
  - destruct Hc as (Hu & Hin & _). apply remaining_In in Hin.
    destruct Hin. repeat split; auto.
Qed.

End JsVerdict.

Section JsVerdictRolls.
Import GameJs.

Lemma js_rolled_values (t : list event) : map snd (js_rolled t) = js_rolls t.
Proof.
  induction t as [|e t IH]; [reflexivity|].
  destruct e; simpl; rewrite ?IH; reflexivity.
Qed.

Lemma js_rolled_none (t : list event) : js_rolls t = [] -> js_rolled t = [].
Proof.
  intro H. rewrite <- js_rolled_values in H. now apply map_eq_nil in H.
Qed.

Lemma js_rolled_app (a b : list event) :
  js_rolled (a ++ b) = js_rolled a ++ js_rolled b.
Proof. apply flat_map_app. Qed.

Lemma js_results_app (a b : list event) :
  js_results (a ++ b) = js_results a ++ js_results b.
Proof. apply flat_map_app. Qed.

Lemma prompts_no_results (t : list event) :
  Forall (fun e => js_prompt e = true) t -> js_results t = [].
Proof.
  induction 1 as [|e t He _ IH]; [reflexivity|].
  destruct e; try discriminate; simpl; exact IH.
Qed.

(** The lines of a roll, as [computerRoll] and [userRoll] print them. *)
Lemma roll_lines (e0 : event) (d : string) (p tl : list event) :
  js_rolls [e0] = [] -> js_results [e0] = [] ->
  Forall (fun e => js_prompt e = true) p ->
  js_rolled (e0 :: ISelected 5 d :: AddYourNumber 6 :: p ++ tl) = js_rolled tl /\
  js_results (e0 :: ISelected 5 d :: AddYourNumber 6 :: p ++ tl)
  = js_results tl.
Proof.
  intros H0 R0 Hall.
  change (e0 :: ISelected 5 d :: AddYourNumber 6 :: p ++ tl)
    with ([e0] ++ [ISelected 5 d; AddYourNumber 6] ++ p ++ tl).
  rewrite !js_rolled_app, !js_results_app.
  rewrite (js_rolled_none [e0] H0), R0.
  rewrite (js_rolled_none p (proj1 (prompts_quiet p Hall))).
  rewrite (prompts_no_results p Hall). split; reflexivity.
Qed.

End JsVerdictRolls.

(** X11.  The verdict of [game.js].  With six-faced dice, a game that runs
    to its end prints exactly two rolls, after the dice are chosen: the
    computer's roll, then the user's.  The computer's roll is the face of
    the computer's die at the result of the first "Result:" line, the
    user's roll the face of the user's die at the result of the second, the
    two dice being the pair chosen in this game, different dice of the
    configuration.  The last line is the only verdict and is decided by
    these two numbers: the strictly greater roll wins, equal rolls are a
    draw.  A game that stops earlier prints no verdict and at most one
    roll. *)
Theorem game_js_verdict (diceList : list Dice) (w : World) t o :
  (forall d, In d diceList -> length (faces d) = 6%nat) ->
  GameJs.start diceList w = (t, o) ->
  match o with
  | Done _ _ =>
      exists t1 r w1 t2 userDice compDice w2 t3 rc ru c u,
        GameJs.firstMove w = (t1, Done r w1) /\
        GameJs.chooseDice diceList r w1
        = (t2, Done (userDice, compDice) w2) /\
        In userDice diceList /\ In compDice diceList /\
        ident userDice <> ident compDice /\
        t = t1 ++ t2 ++ t3 ++ [js_verdict u c] /\
        js_rolled (t1 ++ t2) = [] /\
        js_results t3 = [rc; ru] /\
        js_rolled t3 = [(Computer, Some c); (User, Some u)] /\
        GameJs.getFace compDice rc = Some c /\
        GameJs.getFace userDice ru = Some u /\
        In c (faces compDice) /\ In u (faces userDice) /\
        filter js_outcome (t1 ++ t2 ++ t3) = []
  | Halt _ _ =>
      filter js_outcome t = [] /\ (length (js_rolled t) <= 1)%nat
  end.
Proof.
  intros Hsix Hrun. destruct o as [[] w'|h w'].
  - destruct (start_done _ _ _ _ Hrun)
      as (t1 & r & w1 & t2 & ud & cd & w2 & t3 & cr & w3 & t4 & ur
          & H1 & H2 & H3 & H4 & ->).
    destruct (chooseDice_members _ _ _ _ _ _ _ H2) as (Hu & Hc & Hne).
    pose proof H1 as H1'.
    destruct (session_done _ _ _ _ _ _ firstMove_pattern _ _ _ _ H1)
      as (k1 & x1 & v1 & y1 & p1 & _ & _ & _ & _ & A1 & E1 & _).
    destruct (session_done _ _ _ _ _ _ (computerRoll_pattern cd)
                _ _ _ _ H3)
      as (k2 & x2 & v2 & y2 & p2 & _ & X2 & Y2 & -> & A2 & -> & _).
    destruct (session_done _ _ _ _ _ _ (userRoll_pattern ud)
                _ _ _ _ H4)
      as (k3 & x3 & v3 & y3 & p3 & _ & X3 & Y3 & -> & A3 & -> & _).
    destruct (js_roll_on_die cd x2 y2 (Hsix _ Hc) X2 Y2) as (_ & c & Ec & Hcin).
    destruct (js_roll_on_die ud x3 y3 (Hsix _ Hu) X3 Y3) as (_ & u & Eu & Huin).
    destruct (chooseDice_quiet diceList r w1) as (_ & _ & Q3 & Q4).
    rewrite H2 in Q3, Q4. cbn [fst] in Q3, Q4.
    rewrite Ec, Eu, announce_verdict. cbn [fst].
    exists t1, r, w1, t2, ud, cd, w2.
    exists ((GameJs.TimeForMyRoll :: GameJs.ISelected 5 (GameJs.computeHMAC k2 x2)
               :: GameJs.AddYourNumber 6
               :: p2 ++ computerRoll_tail cd k2 x2 y2)
            ++ (GameJs.TimeForYourRoll
                  :: GameJs.ISelected 5 (GameJs.computeHMAC k3 x3)
                  :: GameJs.AddYourNumber 6
                  :: p3 ++ userRoll_tail ud k3 x3 y3)).
    exists (Z.rem (x2 + y2) 6), (Z.rem (x3 + y3) 6), c, u.
    split; [exact H1'|]. split; [exact H2|].
    split; [exact Hu|]. split; [exact Hc|]. split; [exact Hne|].
    split; [cbn [app]; rewrite <- ?app_assoc; cbn [app]; rewrite <- ?app_assoc; reflexivity|].
    assert (F1 : js_rolls t1 = [] /\ filter js_outcome t1 = []).
    { rewrite E1.
      rewrite session_shape_rolls, session_shape_outcome
        by (assumption || reflexivity). split; reflexivity. }
    destruct F1 as (F1r & F1o).
    split.
    { rewrite js_rolled_app, (js_rolled_none t1 F1r), (js_rolled_none t2 Q3).
      reflexivity. }
    destruct (roll_lines GameJs.TimeForMyRoll (GameJs.computeHMAC k2 x2) p2
                (computerRoll_tail cd k2 x2 y2) eq_refl eq_refl A2)
      as (Rc & Sc).
    destruct (roll_lines GameJs.TimeForYourRoll (GameJs.computeHMAC k3 x3) p3
                (userRoll_tail ud k3 x3 y3) eq_refl eq_refl A3)
      as (Ru & Su).
    split.
    { rewrite js_results_app, Sc, Su. reflexivity. }
    split.
    { rewrite js_rolled_app, Rc, Ru.
      unfold computerRoll_tail, userRoll_tail. rewrite Ec, Eu. reflexivity. }
    split; [exact Ec|]. split; [exact Eu|].
    split; [exact Hcin|]. split; [exact Huin|].
    rewrite !js_outcome_app, F1o, Q4.
    rewrite !session_shape_outcome by (assumption || reflexivity).
    reflexivity.
  - assert (Hold : filter js_outcome t = [] /\ (length (js_rolls t) <= 1)%nat).
    { unfold GameJs.start in Hrun.
      apply bind_inv in Hrun.
      destruct Hrun as [(t1 & r & w1 & t' & H1 & Hrun & ->)|(h1 & w1 & H1 & _)].
      2: { destruct (halted_session_quiet GameJs.LetsDetermine 1 2 t
                       eq_refl eq_refl
                       (session_halt _ _ _ _ _ _ firstMove_pattern
                          _ _ _ _ H1)) as (-> & ->).
           simpl; split; [reflexivity|lia]. }
      destruct (session_done _ _ _ _ _ _ firstMove_pattern _ _ _ _ H1)
        as (k1 & x1 & v1 & y1 & p1 & _ & _ & _ & _ & A1 & -> & _).
      assert (F1 : forall tl,
                 js_rolls ((GameJs.LetsDetermine
                              :: GameJs.ISelected 1 (GameJs.computeHMAC k1 x1)
                              :: GameJs.AddYourNumber 2
                              :: p1 ++ firstMove_tail k1 x1 y1) ++ tl)
                 = js_rolls tl /\
                 filter js_outcome
                   ((GameJs.LetsDetermine
                       :: GameJs.ISelected 1 (GameJs.computeHMAC k1 x1)
                       :: GameJs.AddYourNumber 2
                       :: p1 ++ firstMove_tail k1 x1 y1) ++ tl)
                 = filter js_outcome tl).
      { intro tl. rewrite js_rolls_app, js_outcome_app.
        rewrite session_shape_rolls, session_shape_outcome
          by (assumption || reflexivity). auto. }
      apply bind_inv in Hrun.
      destruct Hrun as [(t2 & [ud cd] & w2 & t'' & H2 & Hrun & ->)
                       |(h2 & w2 & H2 & _)].
      2: { destruct (chooseDice_quiet diceList r w1) as (_ & _ & Q3 & Q4).
           rewrite H2 in Q3, Q4. cbn [fst] in Q3, Q4.
           destruct (F1 t') as (-> & ->). rewrite Q3, Q4.
           simpl; split; [reflexivity|lia]. }
      destruct (chooseDice_quiet diceList r w1) as (_ & _ & Q3 & Q4).
      rewrite H2 in Q3, Q4. cbn [fst] in Q3, Q4.
      apply bind_inv in Hrun.
      destruct Hrun as [(t3 & cr & w3 & t''' & H3 & Hrun & ->)
                       |(h3 & w3 & H3 & _)].
      2: { destruct (halted_session_quiet GameJs.TimeForMyRoll 5 6 t''
                       eq_refl eq_refl
                       (session_halt _ _ _ _ _ _ (computerRoll_pattern cd)
                          _ _ _ _ H3)) as (R & O).
           destruct (F1 (t2 ++ t'')) as (-> & ->).
           rewrite js_rolls_app, js_outcome_app, Q3, Q4, R, O.
           simpl; split; [reflexivity|lia]. }
      destruct (session_done _ _ _ _ _ _ (computerRoll_pattern cd)
                  _ _ _ _ H3)
        as (k2 & x2 & v2 & y2 & p2 & _ & X2 & Y2 & -> & A2 & -> & _).
      apply bind_inv in Hrun.
      destruct Hrun as [(t4 & ur & w4 & t5 & H4 & Hrun & ->)
                       |(h4 & w4 & H4 & _)].
      { exfalso. unfold GameJs.announce in Hrun.
        destruct (js_gt ur _); [|destruct (js_gt _ ur)]; discriminate. }
      destruct (halted_session_quiet GameJs.TimeForYourRoll 5 6 t'''
                  eq_refl eq_refl
                  (session_halt _ _ _ _ _ _ (userRoll_pattern ud)
                     _ _ _ _ H4)) as (R & O).
      destruct (F1 (t2 ++ (GameJs.TimeForMyRoll
                             :: GameJs.ISelected 5 (GameJs.computeHMAC k2 x2)
                             :: GameJs.AddYourNumber 6
                             :: p2 ++ computerRoll_tail cd k2 x2 y2) ++ t'''))
        as (-> & ->).
      rewrite !js_rolls_app, !js_outcome_app, Q3, Q4, R, O.
      rewrite <- (app_nil_r (computerRoll_tail cd k2 x2 y2)).
      rewrite session_shape_rolls, session_shape_outcome
        by (assumption || reflexivity).
      simpl; split; [reflexivity|lia]. }
    destruct Hold as (Ho & Hl). split; [exact Ho|].
    now rewrite <- js_rolled_values, length_map in Hl.
Qed.

Lemma game_js_verdict_witness :
  exists t1 r w1 t2 userDice compDice w2 t3 rc ru c u,
    GameJs.firstMove (demo_world ["1"; "0"; "3"; "2"]%string [0; 1; 4; 5])
    = (t1, Done r w1) /\
    GameJs.chooseDice demo_dice r w1 = (t2, Done (userDice, compDice) w2) /\
    In userDice demo_dice /\ In compDice demo_dice /\
    ident userDice <> ident compDice /\
    fst (GameJs.start demo_dice
           (demo_world ["1"; "0"; "3"; "2"]%string [0; 1; 4; 5]))
    = t1 ++ t2 ++ t3 ++ [js_verdict u c] /\
    js_rolled (t1 ++ t2) = [] /\
    js_results t3 = [rc; ru] /\
    js_rolled t3 = [(Computer, Some c); (User, Some u)] /\
    GameJs.getFace compDice rc = Some c /\
    GameJs.getFace userDice ru = Some u /\
    In c (faces compDice) /\ In u (faces userDice) /\
    filter js_outcome (t1 ++ t2 ++ t3) = [].
Proof.
  refine (game_js_verdict demo_dice
            (demo_world ["1"; "0"; "3"; "2"]%string [0; 1; 4; 5]) _
            (Done tt (mkWorld [] (skipn 96 (repeat x00 256)) [])) _ _).
  - intros d [<-|[<-|[<-|[]]]]; reflexivity.
  - vm_compute. reflexivity.
Defined.

(** ** What a computation prints *)

Section Emits.
Context {E : Type}.
Variable P : E -> Prop.

Lemma emits_bind {A B} (m : M E A) (k : A -> M E B) :
  emits P m -> (forall a, emits P (k a)) -> emits P (bind m k).
Proof.
  intros Hm Hk w. rewrite bind_run. specialize (Hm w).
  destruct (m w) as [t1 [a w1|h w1]]; cbn [fst] in *; [|exact Hm].
  unfold prepend. cbn [fst]. apply Forall_app. split; [exact Hm|apply Hk].
Qed.

Lemma emits_ret {A} (a : A) : emits P (ret (E:=E) a).
Proof. intro w. constructor. Qed.

Lemma emits_stop {A} (h : halt) : emits P (stop (E:=E) (A:=A) h).
Proof. intro w. constructor. Qed.

Lemma emits_log (e : E) : P e -> emits P (log e).
Proof. intros He w. repeat constructor. exact He. Qed.

Lemma emits_randomInt (max : Z) : emits P (randomInt (E:=E) max).
Proof.
  intro w. unfold randomInt. destruct (max <=? 0); [constructor|].
  destruct (rints w); constructor.
Qed.

Lemma emits_randomBytes (n : nat) : emits P (randomBytes (E:=E) n).
Proof.
  intro w. unfold randomBytes. destruct (_ <? _)%nat; constructor.
Qed.

End Emits.

Section TsVerdict.
Import IndexTs.

Lemma ts_rolled_app (a b : list event) :
  ts_rolled (a ++ b) = ts_rolled a ++ ts_rolled b.
Proof. apply flat_map_app. Qed.

Lemma ts_final_app (a b : list event) :
  filter ts_final (a ++ b) = filter ts_final a ++ filter ts_final b.
Proof. apply filter_app. Qed.

Lemma not_final_filter (t : list event) :
  Forall (fun e => ts_final e = false) t -> filter ts_final t = [].
Proof.
  induction 1 as [|e t He _ IH]; [reflexivity|]. simpl. now rewrite He.
Qed.

Lemma emits_getNumber (P : event -> Prop) (range : Z) (prompt : string) :
  P (Menu prompt range) -> P YourChoice -> P InvalidInput ->
  emits P (getNumber range prompt).
Proof.
  intros H1 H2 H3 w. unfold getNumber.
  destruct (stdin w) as [|line rest]; [repeat constructor; auto|].
  destruct (String.eqb _ "X"); [repeat constructor; auto|].
  destruct (String.eqb _ "?"); [repeat constructor; auto|].
  destruct (parseInt _) as [num|]; [|repeat constructor; auto].
  destruct (_ && _); repeat constructor; auto.
Qed.

Lemma emits_generate (P : event -> Prop) (range : Z) (prompt : string) :
  (forall e, ts_final e = false -> (forall p v, e <> Rolled p v) -> P e) ->
  emits P (generate range prompt).
Proof.
  intro HP. unfold generate.
  assert (Q : forall e, match e with
                        | FinalResult _ _ | YouWin | ComputerWins | Tie
                        | Rolled _ _ => False
                        | _ => True
                        end -> P e).
  { intros e He. apply HP; destruct e; try contradiction; auto; discriminate. }
  apply emits_bind; [apply emits_randomBytes|]. intro key.
  apply emits_bind; [apply emits_randomInt|]. intro x.
  apply emits_bind; [apply emits_log, Q; exact I|]. intros _.
  apply emits_bind; [apply emits_getNumber; apply Q; exact I|].
  intros [y|]; [|apply emits_ret].
  apply emits_bind; [apply emits_log, Q; exact I|]. intros _.
  apply emits_bind; [apply emits_log, Q; exact I|]. intros _.
  apply emits_ret.
Qed.

Lemma plain_quiet (t : list event) :
  Forall ts_plain t -> filter ts_final t = [] /\ ts_rolled t = [].
Proof.
  induction 1 as [|e t (He & Hr) _ (IH1 & IH2)]; [auto|].
  simpl. rewrite He, IH1. split; [reflexivity|].
  destruct e; auto. exfalso. eapply Hr; reflexivity.
Qed.

Lemma emits_plain_generate (range : Z) (prompt : string) :
  emits ts_plain (generate range prompt).
Proof. apply emits_generate. intros e H1 H2. split; assumption. Qed.

Lemma plain_event (e : event) :
  match e with
  | FinalResult _ _ | YouWin | ComputerWins | Tie | Rolled _ _ => False
  | _ => True
  end -> ts_plain e.
Proof.
  intro He. split; destruct e; try contradiction; auto; discriminate.
Qed.

Lemma emits_determineFirst : emits ts_plain determineFirst.
Proof.
  unfold determineFirst.
  apply emits_bind; [apply emits_log, plain_event; exact I|]. intros _.
  apply emits_bind; [apply emits_plain_generate|].
  intros [r|]; apply emits_ret.
Qed.

Lemma emits_selectDice (dice : list Dice) (first : party) :
  emits ts_plain (selectDice dice first).
Proof.
  unfold selectDice, ui_selectDice. destruct first.
  - apply emits_bind; [apply emits_randomInt|]. intro i.
    destruct (splice1 dice i) as [cd avail].
    apply emits_bind; [apply emits_log, plain_event; exact I|]. intros _.
    apply emits_bind; [apply emits_getNumber; apply plain_event; exact I|].
    intros [userIdx|]; [|apply emits_ret].
    apply emits_bind; [apply emits_log, plain_event; exact I|]. intros _.
    apply emits_ret.
  - apply emits_bind; [apply emits_getNumber; apply plain_event; exact I|].
    intros [userIdx|]; [|apply emits_ret].
    destruct (splice1 dice userIdx) as [ud avail].
    apply emits_bind; [apply emits_log, plain_event; exact I|]. intros _.
    apply emits_bind; [apply emits_randomInt|]. intro i.
    apply emits_bind; [apply emits_log, plain_event; exact I|]. intros _.
    apply emits_ret.
Qed.

Lemma emits_roll (die : Dice) (player : string) :
  emits (fun e => ts_final e = false) (roll die player).
Proof.
  unfold roll.
  apply emits_bind; [now apply emits_log|]. intros _.
  apply emits_bind.
  - apply emits_generate. auto.
  - intros [i|]; [|apply emits_ret].
    apply emits_bind; [now apply emits_log|]. intros _. apply emits_ret.
Qed.

Lemma roll_done (die : Dice) (player : string) (w : World) t v w' :
  roll die player w = (t, Done (Some v) w') ->
  exists t' z,
    t = t' ++ [Rolled player (Some z)] /\ v = Some z /\ In z (faces die) /\
    filter ts_final t' = [] /\ ts_rolled t' = [].
Proof.
  intro Hrun.
  destruct (roll_on_die die player w) as (_ & Hv).
  destruct (Hv _ _ _ Hrun) as (z & -> & Hin).
  rewrite roll_run in Hrun.
  pose proof (emits_plain_generate (numFaces die)
                ("Enter a number (0-" ++ toString (numFaces die - 1)
                   ++ "):")%string w) as Hg.
  destruct (generate _ _ w) as [tg [[i|] wg|h wg]]; cbn [fst] in Hg;
    unfold prepend in Hrun; cbn [fst snd] in Hrun;
    inversion Hrun as [[Ht Hv' Hw]].
  exists (RollOf player :: tg), z.
  destruct (plain_quiet _ Hg) as (F & R).
  repeat split; auto. rewrite Hv'. reflexivity.
Qed.

End TsVerdict.

(** X12.  The verdict of [index.ts].  A game that ends, after any number of
    abandoned rounds, closes with the result line and one verdict, and
    prints neither before: the two numbers of the result line are the last
    two rolls printed, the computer's and then the user's, each a face of a
    die of the configuration, and the strictly greater roll wins, equal
    rolls being a tie.  A game that stops short prints no result and no
    verdict. *)
Theorem index_ts_verdict (fuel : nat) (dice : list Dice) (w : World) t o :
  IndexTs.play fuel dice w = (t, o) ->
  match o with
  | Done _ _ =>
      exists t0 rolls computerDie userDie u c,
        t = t0 ++ [IndexTs.FinalResult (Some u) (Some c); ts_verdict u c] /\
        filter ts_final t0 = [] /\
        ts_rolled t0
        = rolls ++ [("Computer"%string, Some c); ("You"%string, Some u)] /\
        In computerDie dice /\ In userDie dice /\
        In c (faces computerDie) /\ In u (faces userDie)
  | Halt _ _ => filter ts_final t = []
  end.
Proof.
  revert w t o. induction fuel as [|fuel IH]; intros w t o; cbn [IndexTs.play].
  { intro H; inversion H; subst. reflexivity. }
  set (goal := fun (t : list IndexTs.event) (o : outcome unit) =>
    match o with
    | Done _ _ =>
        exists t0 rolls computerDie userDie u c,
          t = t0 ++ [IndexTs.FinalResult (Some u) (Some c); ts_verdict u c] /\
          filter ts_final t0 = [] /\
          ts_rolled t0
          = rolls ++ [("Computer"%string, Some c); ("You"%string, Some u)] /\
          In computerDie dice /\ In userDie dice /\
          In c (faces computerDie) /\ In u (faces userDie)
    | Halt _ _ => filter ts_final t = []
    end).
  assert (Hpre : forall pre t o,
             filter ts_final pre = [] -> goal t o -> goal (pre ++ t) o).
  { intros pre t1 [[] w1|h w1] Hq; unfold goal.
    - intros (t0 & rolls & cd & ud & u & c & -> & F & R & Hrest).
      exists (pre ++ t0), (ts_rolled pre ++ rolls), cd, ud, u, c.
      rewrite ts_final_app, ts_rolled_app, Hq, F, R, <- !app_assoc. auto.
    - intro F. now rewrite ts_final_app, Hq, F. }
  assert (Hagain : forall w1 t1 o1,
             bind (IndexTs.render dice) (fun _ => IndexTs.play fuel dice) w1
             = (t1, o1) -> goal t1 o1).
  { intros w1 t1 o1. rewrite bind_run. unfold IndexTs.render. cbn [log].
    destruct (IndexTs.play fuel dice w1) as [t2 o2] eqn:E2.
    unfold prepend. cbn [fst snd]. intro H; inversion H; subst.
    apply (Hpre [_]); [reflexivity|]. exact (IH _ _ _ E2). }
  intro Hrun. change (goal t o). apply bind_inv in Hrun.
  destruct Hrun as [(t1 & first & w1 & t' & H1 & Hrun & ->)|(h & w1 & H1 & ->)].
  2: { pose proof (emits_determineFirst w) as Hq. rewrite H1 in Hq.
       exact (proj1 (plain_quiet _ Hq)). }
  pose proof (emits_determineFirst w) as Hq1. rewrite H1 in Hq1.
  apply plain_quiet in Hq1. destruct Hq1 as (F1 & _).
  apply Hpre; [exact F1|]. clear F1 H1 t1.
  destruct first as [first|]; [|exact (Hagain _ _ _ Hrun)].
  apply bind_inv in Hrun.
  destruct Hrun as [(t2 & [cd ud] & w2 & t'' & H2 & Hrun & ->)
                   |(h & w2 & H2 & ->)].
  2: { pose proof (emits_selectDice dice first w1) as Hq. rewrite H2 in Hq.
       exact (proj1 (plain_quiet _ Hq)). }
  pose proof (emits_selectDice dice first w1) as Hq2. rewrite H2 in Hq2.
  apply plain_quiet in Hq2. destruct Hq2 as (F2 & _).
  apply Hpre; [exact F2|]. clear F2.
  destruct cd as [cd|]; [|exact (Hagain _ _ _ Hrun)].
  destruct ud as [ud|]; [|exact (Hagain _ _ _ Hrun)].
  destruct (ts_selectDice_members _ _ _ _ _ _ _ H2) as (Hc & Hu).
  apply bind_inv in Hrun.
  destruct Hrun as [(t3 & cr & w3 & t''' & H3 & Hrun & ->)
                   |(h & w3 & H3 & ->)].
  2: { pose proof (emits_roll cd "Computer" w2) as Hq. rewrite H3 in Hq.
       exact (not_final_filter _ Hq). }
  destruct cr as [cr|].
  2: { apply Hpre; [|exact (Hagain _ _ _ Hrun)].
       pose proof (emits_roll cd "Computer" w2) as Hq. rewrite H3 in Hq.
       exact (not_final_filter _ Hq). }
  destruct (roll_done _ _ _ _ _ _ H3) as (p3 & c & -> & -> & Hcin & F3 & R3).
  apply bind_inv in Hrun.
  destruct Hrun as [(t4 & ur & w4 & t5 & H4 & Hrun & ->)
                   |(h & w4 & H4 & ->)].
  2: { pose proof (emits_roll ud "You" w3) as Hq. rewrite H4 in Hq.
       cbn [fst] in Hq. unfold goal. rewrite !ts_final_app, F3, (not_final_filter _ Hq).
       reflexivity. }
  destruct ur as [ur|].
  2: { apply Hpre.
       - now rewrite ts_final_app, F3.
       - apply Hpre; [|exact (Hagain _ _ _ Hrun)].
         pose proof (emits_roll ud "You" w3) as Hq. rewrite H4 in Hq.
         exact (not_final_filter _ Hq). }
  destruct (roll_done _ _ _ _ _ _ H4) as (p4 & u & -> & -> & Huin & F4 & R4).
  assert (Hend : o = Done tt w4 /\
                 t5 = [IndexTs.FinalResult (Some u) (Some c); ts_verdict u c]).
  { rewrite bind_run in Hrun. cbn [log] in Hrun.
    unfold ts_verdict. unfold IndexTs.js_lt, js_gt in Hrun.
    rewrite (Z.gtb_ltb c u) in Hrun.
    destruct (u >? c); [|destruct (u <? c)];
      unfold prepend in Hrun; cbn [fst snd log app] in Hrun;
      inversion Hrun; auto. }
  destruct Hend as (-> & ->). unfold goal.
  exists ((p3 ++ [IndexTs.Rolled "Computer" (Some c)])
            ++ p4 ++ [IndexTs.Rolled "You" (Some u)]), [], cd, ud, u, c.
  rewrite !ts_final_app, !ts_rolled_app, F3, F4, R3, R4, <- !app_assoc.
  repeat split; auto.
Qed.

Lemma index_ts_verdict_witness :
  exists t0 rolls computerDie userDie u c,
    fst (IndexTs.play 2 demo_dice
           (demo_world ["?"; "1"; "0"; "3"; "2"]%string [0; 0; 1; 4; 5]))
    = t0 ++ [IndexTs.FinalResult (Some u) (Some c); ts_verdict u c] /\
    filter ts_final t0 = [] /\
    ts_rolled t0
    = rolls ++ [("Computer"%string, Some c); ("You"%string, Some u)] /\
    In computerDie demo_dice /\ In userDie demo_dice /\
    In c (faces computerDie) /\ In u (faces userDie).
Proof.
  refine (index_ts_verdict 2 demo_dice
            (demo_world ["?"; "1"; "0"; "3"; "2"]%string [0; 0; 1; 4; 5]) _
            (Done tt (mkWorld [] (skipn 128 (repeat x00 256)) [])) _).
  vm_compute. reflexivity.
Defined.

(** ** What [parseInt] reads of a string *)

Section ParseInt.

Lemma digit_not_space (c : ascii) : is_digit c = true -> is_space c = false.
Proof.
  unfold is_digit, is_space. intro H.
  apply andb_prop in H. destruct H as [H1 H2].
  apply Nat.leb_le in H1. apply Nat.leb_le in H2.
  apply orb_false_iff. split.
  - apply andb_false_iff. right. apply Nat.leb_gt. lia.
  - apply Nat.eqb_neq. lia.
Qed.

Lemma upper_char_cases (c : ascii) :
  upper_char c = c \/
  ((97 <= nat_of_ascii c <= 122)%nat /\
   (65 <= nat_of_ascii (upper_char c) <= 90)%nat).
Proof.
  unfold upper_char.
  destruct ((97 <=? nat_of_ascii c) && (nat_of_ascii c <=? 122))%nat eqn:E;
    [|now left].
  right. apply andb_prop in E. destruct E as [H1 H2].
  apply Nat.leb_le in H1. apply Nat.leb_le in H2.
  rewrite nat_ascii_embedding by lia. lia.
Qed.

Lemma upper_char_space (c : ascii) : is_space (upper_char c) = is_space c.
Proof.
  destruct (upper_char_cases c) as [->|(H1 & H2)]; [reflexivity|].
  unfold is_space.
  replace (nat_of_ascii (upper_char c) <=? 13)%nat with false
    by (symmetry; apply Nat.leb_gt; lia).
  replace (nat_of_ascii c <=? 13)%nat with false
    by (symmetry; apply Nat.leb_gt; lia).
  replace (nat_of_ascii (upper_char c) =? 32)%nat with false
    by (symmetry; apply Nat.eqb_neq; lia).
  replace (nat_of_ascii c =? 32)%nat with false
    by (symmetry; apply Nat.eqb_neq; lia).
  now rewrite !andb_false_r.
Qed.

Lemma upper_char_digit (c : ascii) : is_digit (upper_char c) = is_digit c.
Proof.
  destruct (upper_char_cases c) as [->|(H1 & H2)]; [reflexivity|].
  unfold is_digit.
  replace (nat_of_ascii (upper_char c) <=? 57)%nat with false
    by (symmetry; apply Nat.leb_gt; lia).
  replace (nat_of_ascii c <=? 57)%nat with false
    by (symmetry; apply Nat.leb_gt; lia).
  now rewrite !andb_false_r.
Qed.

Lemma upper_char_of_digit (c : ascii) : is_digit c = true -> upper_char c = c.
Proof.
  intro H. destruct (upper_char_cases c) as [E|(H1 & _)]; [exact E|].
  unfold is_digit in H. apply andb_prop in H. destruct H as [_ H].
  apply Nat.leb_le in H. lia.
Qed.

(** A character that is not a small letter is its own upper case, and no
    small letter has a sign as its upper case. *)
Lemma upper_char_is (c d : ascii) :
  (nat_of_ascii d < 65)%nat -> upper_char c = d <-> c = d.
Proof.
  intro Hd. split.
  - intro E. destruct (upper_char_cases c) as [E'|(_ & H)]; [congruence|].
    rewrite E in H. lia.
  - intros ->. destruct (upper_char_cases d) as [E|(H & _)]; [exact E|lia].
Qed.

Lemma digits_value_upper (acc : Z) (s : string) :
  digits_value acc (toUpperCase s) = digits_value acc s.
Proof.
  revert acc. induction s as [|c r IH]; intro acc; [reflexivity|].
  cbn [toUpperCase digits_value]. rewrite upper_char_digit.
  destruct (is_digit c) eqn:E; [|reflexivity].
  now rewrite (upper_char_of_digit c E), IH.
Qed.

Lemma drop_trailing_spaces_cons (c : ascii) (r : string) :
  is_space c = false ->
  drop_trailing_spaces (String c r) = String c (drop_trailing_spaces r).
Proof.
  intro H. cbn [drop_trailing_spaces].
  destruct (drop_trailing_spaces r); [now rewrite H|reflexivity].
Qed.

Lemma drop_trailing_spaces_head (c : ascii) (r : string) :
  drop_trailing_spaces (String c r) = EmptyString \/
  drop_trailing_spaces (String c r) = String c (drop_trailing_spaces r).
Proof.
  cbn [drop_trailing_spaces].
  destruct (drop_trailing_spaces r); [|now right].
  destruct (is_space c); auto.
Qed.

Lemma digits_value_drop (acc : Z) (s : string) :
  digits_value acc (drop_trailing_spaces s) = digits_value acc s.
Proof.
  revert acc. induction s as [|c r IH]; intro acc; [reflexivity|].
  destruct (is_digit c) eqn:E.
  - rewrite drop_trailing_spaces_cons by now apply digit_not_space.
    cbn [digits_value]. now rewrite E, IH.
  - cbn [digits_value]. rewrite E.
    destruct (drop_trailing_spaces_head c r) as [-> | ->]; [reflexivity|].
    cbn [digits_value]. now rewrite E.
Qed.

Lemma digits_value_app (acc : Z) (s junk : string) :
  starts_with_digit junk = false ->
  digits_value acc (s ++ junk) = digits_value acc s.
Proof.
  intro Hj. revert acc. induction s as [|c r IH]; intro acc.
  - simpl. destruct junk as [|c r]; [reflexivity|].
    simpl in Hj. cbn [digits_value]. now rewrite Hj.
  - cbn [append digits_value]. destruct (is_digit c); [apply IH|reflexivity].
Qed.

Lemma parseInt_eq (s : string) :
  parseInt s =
  match skip_spaces s with
  | String c r =>
      if Ascii.eqb c "-" then unsigned true r
      else if Ascii.eqb c "+" then unsigned false r
      else unsigned false (String c r)
  | EmptyString => None
  end.
Proof.
  unfold parseInt. destruct (skip_spaces s) as [|c r]; [reflexivity|].
  destruct c as [[] [] [] [] [] [] [] []]; reflexivity.
Qed.

Lemma unsigned_upper (neg : bool) (s : string) :
  unsigned neg (toUpperCase s) = unsigned neg s.
Proof.
  destruct s as [|c r]; [reflexivity|].
  unfold unsigned. rewrite digits_value_upper. cbn [toUpperCase].
  now rewrite upper_char_digit.
Qed.

Lemma unsigned_drop (neg : bool) (s : string) :
  unsigned neg (drop_trailing_spaces s) = unsigned neg s.
Proof.
  destruct s as [|c r]; [reflexivity|].
  destruct (is_digit c) eqn:E.
  - unfold unsigned. rewrite digits_value_drop.
    rewrite drop_trailing_spaces_cons by now apply digit_not_space.
    reflexivity.
  - destruct (drop_trailing_spaces_head c r) as [-> | ->];
      unfold unsigned; now rewrite E.
Qed.

Lemma unsigned_app (neg : bool) (s junk : string) (y : Z) :
  starts_with_digit junk = false ->
  unsigned neg s = Some y -> unsigned neg (s ++ junk) = Some y.
Proof.
  intros Hj. destruct s as [|c r]; [discriminate|].
  unfold unsigned. rewrite (digits_value_app 0 (String c r) junk Hj).
  cbn [append]. auto.
Qed.

Lemma skip_spaces_upper (s : string) :
  skip_spaces (toUpperCase s) = toUpperCase (skip_spaces s).
Proof.
  induction s as [|c r IH]; [reflexivity|].
  cbn [toUpperCase skip_spaces]. rewrite upper_char_space.
  destruct (is_space c); [exact IH|reflexivity].
Qed.

Lemma skip_spaces_head (s : string) :
  match skip_spaces s with
  | String c _ => is_space c = false
  | EmptyString => True
  end.
Proof.
  induction s as [|c r IH]; [exact I|].
  cbn [skip_spaces]. destruct (is_space c) eqn:E; [exact IH|exact E].
Qed.

Lemma skip_spaces_app (s junk : string) :
  skip_spaces s <> EmptyString ->
  skip_spaces (s ++ junk) = (skip_spaces s ++ junk)%string.
Proof.
  induction s as [|c r IH]; [contradiction|].
  cbn [append skip_spaces]. destruct (is_space c); [exact IH|reflexivity].
Qed.

Lemma eqb_upper_char (c d : ascii) :
  (nat_of_ascii d < 65)%nat ->
  Ascii.eqb (upper_char c) d = Ascii.eqb c d.
Proof.
  intro Hd. destruct (Ascii.eqb_spec c d) as [E|N].
  - apply Ascii.eqb_eq. now apply upper_char_is.
  - apply Ascii.eqb_neq. intro E. apply N. now apply (upper_char_is c d).
Qed.

Lemma parseInt_upper (s : string) : parseInt (toUpperCase s) = parseInt s.
Proof.
  rewrite !parseInt_eq, skip_spaces_upper.
  destruct (skip_spaces s) as [|c r]; [reflexivity|].
  cbn [toUpperCase].
  rewrite !eqb_upper_char by (vm_compute; lia).
  rewrite !unsigned_upper.
  change (String (upper_char c) (toUpperCase r))
    with (toUpperCase (String c r)).
  now rewrite unsigned_upper.
Qed.

Lemma parseInt_trim (s : string) : parseInt (trim s) = parseInt s.
Proof.
  unfold trim. rewrite !parseInt_eq.
  pose proof (skip_spaces_head s) as Hh.
  destruct (skip_spaces s) as [|c r]; [reflexivity|].
  rewrite (drop_trailing_spaces_cons c r Hh).
  cbn [skip_spaces]. rewrite Hh.
  rewrite !unsigned_drop.
  rewrite <- (drop_trailing_spaces_cons c r Hh).
  now rewrite unsigned_drop.
Qed.

Lemma parseInt_app (s junk : string) (y : Z) :
  starts_with_digit junk = false ->
  parseInt s = Some y -> parseInt (s ++ junk) = Some y.
Proof.
  intro Hj. rewrite !parseInt_eq.
  destruct (skip_spaces s) as [|c r] eqn:E; [discriminate|].
  rewrite skip_spaces_app by (rewrite E; discriminate).
  rewrite E. cbn [append].
  destruct (Ascii.eqb c "-"); [now apply unsigned_app|].
  destruct (Ascii.eqb c "+"); [now apply unsigned_app|].
  exact (unsigned_app false (String c r) junk y Hj).
Qed.

(** What both programs make of an input line. *)
Lemma parseInt_line (s : string) :
  parseInt (toUpperCase (trim s)) = parseInt s.
Proof. now rewrite parseInt_upper, parseInt_trim. Qed.

End ParseInt.

Section Lenient.

Lemma values_are_faces (pieces : list string) :
  GameJs.parse_values pieces = IndexTs.parse_faces pieces.
Proof.
  induction pieces as [|p pieces IH]; [reflexivity|].
  cbn [GameJs.parse_values IndexTs.parse_faces].
  now rewrite parseInt_trim, IH.
Qed.

Lemma args_js_ts (args : list string) (acc dl : list Dice)
    (faceCount : option nat) :
  faceCount = None \/ faceCount = Some 6%nat ->
  GameJs.parse_args args acc = inr dl ->
  IndexTs.parse_args args acc faceCount = inr dl.
Proof.
  revert acc faceCount. induction args as [|arg args IH];
    intros acc faceCount Hfc; cbn [GameJs.parse_args IndexTs.parse_args];
    [intro H; inversion H; reflexivity|].
  rewrite values_are_faces.
  destruct (IndexTs.parse_faces (split_comma arg)) as [fs|]; [|discriminate].
  destruct (Nat.eqb_spec (length fs) 6) as [E|N]; [|discriminate].
  cbn [negb]. rewrite E. cbn [Nat.eqb]. intro H.
  destruct Hfc as [-> | ->]; cbn [Nat.eqb negb]; apply IH; auto.
Qed.

Lemma args_ts_extend (args : list string) (acc dl : list Dice)
    (faceCount : option nat) :
  IndexTs.parse_args args acc faceCount = inr dl ->
  forall d, In d acc -> In d dl.
Proof.
  revert acc faceCount. induction args as [|arg args IH];
    intros acc faceCount; cbn [IndexTs.parse_args].
  - intro H; inversion H; auto.
  - destruct (IndexTs.parse_faces (split_comma arg)) as [fs|]; [|discriminate].
    destruct (length fs =? 0)%nat; [discriminate|].
    destruct faceCount as [n|].
    + destruct (negb _); [discriminate|].
      intros H d Hd. eapply IH; [exact H|]. apply in_or_app. now left.
    + intros H d Hd. eapply IH; [exact H|]. apply in_or_app. now left.
Qed.

Lemma args_ts_js (args : list string) (acc dl : list Dice)
    (faceCount : option nat) :
  IndexTs.parse_args args acc faceCount = inr dl ->
  (forall d, In d dl -> length (faces d) = 6%nat) ->
  GameJs.parse_args args acc = inr dl.
Proof.
  revert acc faceCount. induction args as [|arg args IH];
    intros acc faceCount; cbn [GameJs.parse_args IndexTs.parse_args];
    [intros H _; inversion H; reflexivity|].
  rewrite values_are_faces.
  destruct (IndexTs.parse_faces (split_comma arg)) as [fs|]; [|discriminate].
  destruct (length fs =? 0)%nat; [discriminate|].
  assert (Hstep : forall fc,
             IndexTs.parse_args args (acc ++ [mkDice (length acc) fs]) fc
             = inr dl ->
             (forall d, In d dl -> length (faces d) = 6%nat) ->
             (if negb (length fs =? 6)%nat
              then inl (GameJs.NotSixFaces (length fs) arg)
              else GameJs.parse_args args
                     (acc ++ [mkDice (length acc) fs])) = inr dl).
  { intros fc H Hsix.
    assert (Hl : length fs = 6%nat).
    { apply (Hsix (mkDice (length acc) fs)).
      eapply args_ts_extend; [exact H|]. apply in_or_app. right. now left. }
    rewrite Hl. cbn [Nat.eqb negb]. eapply IH; eauto. }
  destruct faceCount as [n|].
  - destruct (negb (length fs =? n)%nat); [discriminate|]. apply Hstep.
  - apply Hstep.
Qed.

End Lenient.

(** X13.  A line that begins with a number of the range, after white space
    and an optional sign, is accepted as that number by the prompts of both
    programs whatever text follows the digits: [parseInt] stops reading at
    the first character that is no digit, and neither program looks at the
    rest. *)
Theorem number_prefix_accepted (range y : Z) (line junk : string)
    (rest : list string) (w : World) :
  starts_with_digit junk = false ->
  parseInt line = Some y -> 0 <= y < range ->
  GameJs.getUserNumber range (with_stdin ((line ++ junk)%string :: rest) w)
  = ([GameJs.AddYourNumber range], Done y (with_stdin rest w)) /\
  forall prompt,
    IndexTs.getNumber range prompt
      (with_stdin ((line ++ junk)%string :: rest) w)
    = ([IndexTs.Menu prompt range; IndexTs.YourChoice],
       Done (Some y) (with_stdin rest w)).
Proof.
  intros Hj Hp Hy.
  pose proof (parseInt_app line junk y Hj Hp) as Hp'.
  rewrite <- parseInt_line in Hp'.
  assert (HX : String.eqb (toUpperCase (trim (line ++ junk))) "X" = false).
  { apply String.eqb_neq. intro E. rewrite E in Hp'. discriminate. }
  assert (HQ : String.eqb (toUpperCase (trim (line ++ junk))) "?" = false).
  { apply String.eqb_neq. intro E. rewrite E in Hp'. discriminate. }
  assert (Hr : (y >=? 0) && (y <? range) = true).
  { apply andb_true_intro. split; [apply Z.geb_le|apply Z.ltb_lt]; lia. }
  split.
  - unfold GameJs.getUserNumber. cbn [stdin with_stdin].
    cbn [GameJs.getUserNumber_from]. rewrite HX, HQ, Hp', Hr. reflexivity.
  - intro prompt. unfold IndexTs.getNumber. cbn [stdin with_stdin].
    rewrite HX, HQ, Hp', Hr. reflexivity.
Qed.

Lemma number_prefix_accepted_witness :
  GameJs.getUserNumber 6
    (with_stdin [" 4.75 or so"%string] (demo_world [] []))
  = ([GameJs.AddYourNumber 6], Done 4 (with_stdin [] (demo_world [] []))) /\
  forall prompt,
    IndexTs.getNumber 6 prompt
      (with_stdin [" 4.75 or so"%string] (demo_world [] []))
    = ([IndexTs.Menu prompt 6; IndexTs.YourChoice],
       Done (Some 4) (with_stdin [] (demo_world [] []))).
Proof.
  apply (number_prefix_accepted 6 4 " 4" ".75 or so" [] (demo_world [] [])).
  - reflexivity.
  - reflexivity.
  - lia.
Defined.

(** X14.  The two parsers read one language of dice.  Whatever [game.js]
    accepts, [index.ts] accepts as the same dice; whatever [index.ts]
    accepts as dice of six faces each, [game.js] accepts as the same dice.
    The [trim] of [game.js] changes nothing, [parseInt] skipping the white
    space by itself. *)
Theorem parsers_agree (args : list string) (dice : list Dice) :
  (GameJs.parseDiceConfigs args = inr dice -> IndexTs.parse args = inr dice) /\
  (IndexTs.parse args = inr dice ->
   (forall d, In d dice -> length (faces d) = 6%nat) ->
   GameJs.parseDiceConfigs args = inr dice).
Proof.
  unfold GameJs.parseDiceConfigs, IndexTs.parse.
  destruct (length args <? 3)%nat; [split; discriminate|]. split.
  - apply args_js_ts. now left.
  - apply args_ts_js.
Qed.

Lemma parsers_agree_witness :
  IndexTs.parse demo_args = inr demo_dice /\
  GameJs.parseDiceConfigs demo_args = inr demo_dice.
Proof.
  split.
  - apply (proj1 (parsers_agree demo_args demo_dice)). reflexivity.
  - apply (proj2 (parsers_agree demo_args demo_dice)); [reflexivity|].
    intros d [<-|[<-|[<-|[]]]]; reflexivity.
Defined.

(** ** Plain text: where the numbers read are exact *)

Section PlainText.

Lemma plain_from_weaken (m n : nat) (s : string) :
  (m <= n)%nat -> plain_from n s = true -> plain_from m s = true.
Proof.
  revert m n. induction s as [|c r IH]; intros m n Hmn; [reflexivity|].
  cbn [plain_from]. intro H. apply andb_prop in H. destruct H as (Ha & H).
  rewrite Ha. cbn [andb]. destruct (is_digit c); [|exact H].
  apply andb_prop in H. destruct H as (Hr & H).
  apply Nat.ltb_lt in Hr.
  apply andb_true_intro. split; [apply Nat.ltb_lt; lia|].
  apply (IH (S m) (S n)); [lia|exact H].
Qed.

Lemma plain_from_tail (run : nat) (c : ascii) (r : string) :
  plain_from run (String c r) = true -> plain_from 0 r = true.
Proof.
  cbn [plain_from]. intro H. apply andb_prop in H. destruct H as (_ & H).
  destruct (is_digit c); [|exact H].
  apply andb_prop in H. destruct H as (_ & H).
  apply (plain_from_weaken 0 (S run)); [lia|exact H].
Qed.

Lemma plain_skip_spaces (run : nat) (s : string) :
  plain_from run s = true -> plain_from 0 (skip_spaces s) = true.
Proof.
  revert run. induction s as [|c r IH]; intros run H; [reflexivity|].
  cbn [skip_spaces]. destruct (is_space c).
  - apply (IH 0%nat). exact (plain_from_tail run c r H).
  - apply (plain_from_weaken 0 run); [lia|exact H].
Qed.

Lemma digits_value_bound (run : nat) (s : string) (acc : Z) :
  (run <= 15)%nat -> 0 <= acc -> plain_from run s = true ->
  0 <= digits_value acc s < (acc + 1) * 10 ^ Z.of_nat (15 - run).
Proof.
  revert run acc. induction s as [|c r IH]; intros run acc Hrun Hacc H.
  - simpl. pose proof (Z.pow_pos_nonneg 10 (Z.of_nat (15 - run))). nia.
  - cbn [digits_value]. cbn [plain_from] in H.
    apply andb_prop in H. destruct H as (_ & H).
    destruct (is_digit c) eqn:Ed.
    + apply andb_prop in H. destruct H as (Hr & H).
      apply Nat.ltb_lt in Hr.
      assert (Hd : 0 <= Z.of_nat (nat_of_ascii c) - 48 <= 9).
      { unfold is_digit in Ed. apply andb_prop in Ed. destruct Ed as (E1 & E2).
        apply Nat.leb_le in E1. apply Nat.leb_le in E2. lia. }
      destruct (IH (S run) (10 * acc + (Z.of_nat (nat_of_ascii c) - 48)))
        as (L & U); [lia|lia|exact H|].
      split; [exact L|].
      replace (Z.of_nat (15 - run)) with (Z.succ (Z.of_nat (15 - S run)))
        by lia.
      rewrite Z.pow_succ_r by lia.
      pose proof (Z.pow_pos_nonneg 10 (Z.of_nat (15 - S run))). nia.
    + pose proof (Z.pow_pos_nonneg 10 (Z.of_nat (15 - run))). nia.
Qed.

Lemma unsigned_exact (neg : bool) (s : string) (n : Z) :
  plain_from 0 s = true -> unsigned neg s = Some n -> exact_number n.
Proof.
  intros Hp. unfold unsigned. destruct s as [|c r]; [discriminate|].
  destruct (digits_value_bound 0 (String c r) 0) as (L & U);
    [lia|lia|exact Hp|].
  change (Z.of_nat (15 - 0)) with 15 in U.
  remember (digits_value 0 (String c r)) as v eqn:Ev. clear Ev.
  destruct (is_digit c); [|discriminate].
  intro H; inversion H; subst; clear H. unfold exact_number.
  set (bound := 10 ^ 15) in *. destruct neg; apply Z.abs_lt; lia.
Qed.

Lemma parseInt_exact (s : string) (n : Z) :
  plain_text s = true -> parseInt s = Some n -> exact_number n.
Proof.
  unfold plain_text. intro Hp. apply plain_skip_spaces in Hp.
  rewrite parseInt_eq. destruct (skip_spaces s) as [|c r]; [discriminate|].
  pose proof (plain_from_tail 0 c r Hp) as Hr.
  destruct (Ascii.eqb c "-"); [now apply unsigned_exact|].
  destruct (Ascii.eqb c "+"); [now apply unsigned_exact|].
  now apply unsigned_exact.
Qed.

Lemma plain_pieces (run : nat) (s : string) :
  plain_from run s = true ->
  Forall (fun p => plain_text p = true) (split_comma s).
Proof.
  revert run. induction s as [|c r IH]; intros run H.
  - repeat constructor.
  - assert (Ha : (nat_of_ascii c <? 128)%nat = true).
    { cbn [plain_from] in H. now apply andb_prop in H. }
    cbn [split_comma]. destruct (Ascii.eqb_spec c ",") as [->|Hc].
    + constructor; [reflexivity|]. apply (IH 0%nat).
      exact (plain_from_tail run _ r H).
    + assert (Hrest : exists run', plain_from run' r = true /\
                        plain_from 0 (String c EmptyString) = true /\
                        forall p, plain_from run' p = true ->
                                  plain_from 0 (String c p) = true).
      { cbn [plain_from] in H |- *. rewrite Ha in H |- *. cbn [andb] in H |- *.
        destruct (is_digit c).
        - apply andb_prop in H. destruct H as (_ & H).
          exists 1%nat. split; [apply (plain_from_weaken 1 (S run)); [lia|exact H]|].
          split; [reflexivity|]. intros p Hp. exact Hp.
        - exists 0%nat. split; [exact H|]. split; [reflexivity|]. auto. }
      destruct Hrest as (run' & Hr & H1 & Hcons).
      assert (Hsplit : match split_comma r with
                       | [] => True
                       | p :: ps => plain_from run' p = true /\
                                    Forall (fun q => plain_text q = true) ps
                       end).
      { clear - Hr. revert run' Hr.
        induction r as [|d r IHr]; intros run' Hr.
        - cbn [split_comma]. split; [reflexivity|constructor].
        - cbn [split_comma]. destruct (Ascii.eqb_spec d ",") as [->|Hd].
          + split; [reflexivity|].
            pose proof (plain_from_tail run' _ r Hr) as Ht.
            specialize (IHr 0%nat Ht).
            destruct (split_comma r) as [|p ps]; [constructor|].
            destruct IHr as (Hp & Hps). constructor; assumption.
          + cbn [plain_from] in Hr. apply andb_prop in Hr.
            destruct Hr as (Ha & Hr).
            destruct (is_digit d) eqn:Ed.
            * apply andb_prop in Hr. destruct Hr as (Hlt & Hr).
              specialize (IHr (S run') Hr).
              destruct (split_comma r) as [|p ps].
              { split; [|constructor]. cbn [plain_from].
                now rewrite Ha, Ed, Hlt. }
              destruct IHr as (Hp & Hps). split; [|exact Hps].
              cbn [plain_from]. now rewrite Ha, Ed, Hlt, Hp.
            * specialize (IHr 0%nat Hr).
              destruct (split_comma r) as [|p ps].
              { split; [|constructor]. cbn [plain_from].
                now rewrite Ha, Ed. }
              destruct IHr as (Hp & Hps). split; [|exact Hps].
              cbn [plain_from]. now rewrite Ha, Ed, Hp. }
      destruct (split_comma r) as [|p ps].
      * constructor; [exact H1|constructor].
      * destruct Hsplit as (Hp & Hps). constructor; [|exact Hps].
        unfold plain_text. now apply Hcons.
Qed.

Lemma parse_faces_exact (pieces : list string) (fs : list Z) :
  Forall (fun p => plain_text p = true) pieces ->
  IndexTs.parse_faces pieces = Some fs -> Forall exact_number fs.
Proof.
  intro Hall. revert fs. induction Hall as [|p pieces Hp _ IH]; intro fs;
    cbn [IndexTs.parse_faces].
  - intro H; inversion H; constructor.
  - destruct (parseInt p) as [n|] eqn:En; [|discriminate].
    destruct (IndexTs.parse_faces pieces) as [ps|]; [|discriminate].
    intro H; inversion H; subst. constructor; [|now apply IH].
    exact (parseInt_exact p n Hp En).
Qed.

Lemma faces_exact (arg : string) (fs : list Z) :
  plain_text arg = true ->
  IndexTs.parse_faces (split_comma arg) = Some fs -> Forall exact_number fs.
Proof.
  intros Hp. apply parse_faces_exact. exact (plain_pieces 0 arg Hp).
Qed.

Lemma all_faces_exact (P : string -> list Z -> Prop)
    (args : list string) (vss : list (list Z)) :
  Forall (fun a => plain_text a = true) args ->
  Forall2 (fun arg vs =>
             IndexTs.parse_faces (split_comma arg) = Some vs /\ P arg vs)
          args vss ->
  Forall2 (fun arg vs =>
             IndexTs.parse_faces (split_comma arg) = Some vs /\ P arg vs /\
             Forall exact_number vs) args vss.
Proof.
  intros Hall HF. induction HF as [|a vs args' vss' (Hv & HP) HF IH];
    constructor.
  - inversion Hall; subst. split; [exact Hv|]. split; [exact HP|].
    now apply (faces_exact a).
  - inversion Hall; subst. auto.
Qed.

End PlainText.

(** X4.  On plain text, [parseDiceConfigs] of [game.js] accepts exactly the
    argument lists of at least three arguments in which every argument
    splits at its commas into six integers; the dice it returns are then one
    per argument, in order, each a new object whose faces are the integers
    of its argument in order, every one of them held exactly by a number.
    "At least three dice are required" is the error of fewer than three
    arguments and of nothing else. *)
Theorem parseDiceConfigs_accepts (args : list string) :
  Forall (fun a => plain_text a = true) args ->
  (forall diceList,
      GameJs.parseDiceConfigs args = inr diceList <->
      (3 <= length args)%nat /\
      exists vss,
        Forall2 (fun arg vs =>
                   GameJs.parse_values (split_comma arg) = Some vs /\
                   length vs = 6%nat /\ Forall exact_number vs) args vss /\
        diceList = number_dice 0 vss) /\
  (GameJs.parseDiceConfigs args = inl GameJs.TooFewDice <->
   (length args < 3)%nat).
Proof.
  intro Hplain. unfold GameJs.parseDiceConfigs. split.
  - intro diceList. destruct (Nat.ltb_spec (length args) 3) as [Hlt|Hge].
    + split; [discriminate|]. intros (H & _). lia.
    + rewrite parse_args_js_accepts. cbn [length app]. split.
      * intros (vss & HF & ->). split; [exact Hge|]. exists vss.
        split; [|reflexivity].
        assert (HF' : Forall2 (fun arg vs =>
                         IndexTs.parse_faces (split_comma arg) = Some vs /\
                         length vs = 6%nat) args vss).
        { eapply Forall2_impl; [|exact HF].
          intros a vs (Hv & Hl). now rewrite <- values_are_faces. }
        apply (all_faces_exact _ _ _ Hplain) in HF'.
        eapply Forall2_impl; [|exact HF'].
        intros a vs (Hv & Hl & He). now rewrite values_are_faces.
      * intros (_ & vss & HF & ->). exists vss. split; [|reflexivity].
        eapply Forall2_impl; [|exact HF]. intros a vs (Hv & Hl & _). auto.
  - destruct (Nat.ltb_spec (length args) 3) as [Hlt|Hge].
    + tauto.
    + split; [|lia]. intro H. now apply parse_args_js_error in H.
Qed.

Lemma parseDiceConfigs_accepts_witness :
  GameJs.parseDiceConfigs demo_args
  = inr (number_dice 0 [faces dieA; faces dieB; faces dieC]).
Proof.
  assert (Hplain : Forall (fun a => plain_text a = true) demo_args)
    by (repeat constructor).
  apply (proj1 (parseDiceConfigs_accepts demo_args Hplain)). split.
  - simpl. lia.
  - exists [faces dieA; faces dieB; faces dieC].
    split; [|reflexivity].
    repeat constructor; unfold exact_number; simpl; lia.
Defined.

(** X5.  On plain text, [DiceParser.parse] of [index.ts] accepts exactly
    the argument lists of at least three arguments that all split at their
    commas into the same number of integers; the dice it returns are one per
    argument, in order, each a new object with the integers of its argument
    as faces, every one of them held exactly by a number, so that every
    accepted die has at least one face and all have the same count. *)
Theorem parse_accepts (args : list string) (dice : list Dice) :
  Forall (fun a => plain_text a = true) args ->
  (IndexTs.parse args = inr dice <->
   (3 <= length args)%nat /\
   exists n vss,
     n <> 0%nat /\
     Forall2 (fun arg vs =>
                IndexTs.parse_faces (split_comma arg) = Some vs /\
                length vs = n /\ Forall exact_number vs) args vss /\
     dice = number_dice 0 vss).
Proof.
  intro Hplain.
  assert (Hcore : IndexTs.parse args = inr dice <->
            (3 <= length args)%nat /\
            exists n vss,
              n <> 0%nat /\
              Forall2 (fun arg vs =>
                         IndexTs.parse_faces (split_comma arg) = Some vs /\
                         length vs = n) args vss /\
              dice = number_dice 0 vss).
  { unfold IndexTs.parse.
    destruct (Nat.ltb_spec (length args) 3) as [Hlt|Hge].
    { split; [discriminate|]. intros (H & _). lia. }
    destruct args as [|arg args']; [simpl in Hge; lia|].
    cbn [IndexTs.parse_args].
    destruct (IndexTs.parse_faces (split_comma arg)) as [fs|] eqn:Ev.
    2: { split; [discriminate|].
         intros (_ & n & vss & _ & HF & _).
         inversion HF as [|? vs ? vss' (Hv & Hl) HF']; subst.
         rewrite Ev in Hv. discriminate. }
    destruct (Nat.eqb_spec (length fs) 0) as [Hz|Hz].
    { exfalso. apply parse_faces_length in Ev.
      pose proof (split_comma_nonempty arg).
      destruct (split_comma arg); [contradiction|simpl in Ev; lia]. }
    rewrite (parse_args_ts_accepts args' _ dice (length fs) Hz). split.
    - intros (vss & HF & ->). split; [exact Hge|].
      exists (length fs), (fs :: vss). split; [exact Hz|].
      split; [constructor; auto|reflexivity].
    - intros (_ & n & vss & Hn & HF & ->).
      inversion HF as [|? vs ? vss' (Hv & Hl) HF']; subst.
      rewrite Ev in Hv. inversion Hv; subst.
      exists vss'. split; [exact HF'|reflexivity]. }
  rewrite Hcore. split.
  - intros (Hlen & n & vss & Hn & HF & ->). split; [exact Hlen|].
    exists n, vss. split; [exact Hn|]. split; [|reflexivity].
    exact (all_faces_exact _ _ _ Hplain HF).
  - intros (Hlen & n & vss & Hn & HF & ->). split; [exact Hlen|].
    exists n, vss. split; [exact Hn|]. split; [|reflexivity].
    eapply Forall2_impl; [|exact HF]. intros a vs (Hv & Hl & _). auto.
Qed.

Lemma parse_accepts_witness :
  IndexTs.parse ["1,2"; "3,4"; "5,6"]%string
  = inr (number_dice 0 [[1; 2]; [3; 4]; [5; 6]]).
Proof.
  assert (Hplain : Forall (fun a => plain_text a = true)
                     ["1,2"; "3,4"; "5,6"]%string)
    by (repeat constructor).
  apply (proj2 (parse_accepts _ _ Hplain)). split.
  - simpl. lia.
  - exists 2%nat, [[1; 2]; [3; 4]; [5; 6]].
    split; [discriminate|]. split; [|reflexivity].
    repeat constructor; unfold exact_number; simpl; lia.
Defined.

Section Rejections.

Lemma parse_faces_nonempty (arg : string) (fs : list Z) :
  IndexTs.parse_faces (split_comma arg) = Some fs -> (length fs =? 0)%nat = false.
Proof.
  intro H. apply parse_faces_length in H. apply Nat.eqb_neq. rewrite H.
  pose proof (split_comma_nonempty arg).
  destruct (split_comma arg); [contradiction|discriminate].
Qed.

Lemma parse_args_ts_rejects (args : list string) (acc : list Dice)
    (n : nat) (message : string) :
  IndexTs.parse_args args acc (Some n) = inl message ->
  (message = "Dice faces must be integers."%string /\
   exists arg, In arg args /\
               IndexTs.parse_faces (split_comma arg) = None) \/
  (message = "All dice must have the same number of faces."%string /\
   exists arg fs, In arg args /\
                  IndexTs.parse_faces (split_comma arg) = Some fs /\
                  length fs <> n).
Proof.
  revert acc. induction args as [|arg args IH]; intro acc;
    cbn [IndexTs.parse_args]; [discriminate|].
  destruct (IndexTs.parse_faces (split_comma arg)) as [fs|] eqn:Ef.
  2: { intro H; inversion H; subst. left. split; [reflexivity|].
       exists arg. split; [now left|exact Ef]. }
  rewrite (parse_faces_nonempty arg fs Ef).
  destruct (Nat.eqb_spec (length fs) n) as [E|N]; cbn [negb].
  - intro H. destruct (IH _ H) as [(-> & a & Ha & Hn)|(-> & a & fa & Ha & Hf & Hl)].
    + left. split; [reflexivity|]. exists a. split; [now right|exact Hn].
    + right. split; [reflexivity|]. exists a, fa. split; [now right|auto].
  - intro H; inversion H; subst. right. split; [reflexivity|].
    exists arg, fs. split; [now left|auto].
Qed.

Lemma parse_args_js_rejects (args : list string) (acc : list Dice)
    (e : GameJs.config_error) :
  GameJs.parse_args args acc = inl e ->
  exists before arg after,
    args = before ++ arg :: after /\
    Forall (fun a => exists vs, GameJs.parse_values (split_comma a) = Some vs /\
                                length vs = 6%nat) before /\
    match GameJs.parse_values (split_comma arg) with
    | None => e = GameJs.NotIntegers arg
    | Some vs => length vs <> 6%nat /\ e = GameJs.NotSixFaces (length vs) arg
    end.
Proof.
  revert acc. induction args as [|arg args IH]; intro acc;
    cbn [GameJs.parse_args]; [discriminate|].
  destruct (GameJs.parse_values (split_comma arg)) as [vs|] eqn:Ev.
  2: { intro H; inversion H; subst. exists [], arg, args.
       split; [reflexivity|]. split; [constructor|]. now rewrite Ev. }
  destruct (Nat.eqb_spec (length vs) 6) as [E|N]; cbn [negb].
  - intro H. destruct (IH _ H) as (before & a & after & -> & HF & Ha).
    exists (arg :: before), a, after. split; [reflexivity|].
    split; [|exact Ha]. constructor; [eauto|exact HF].
  - intro H; inversion H; subst. exists [], arg, args.
    split; [reflexivity|]. split; [constructor|]. rewrite Ev. auto.
Qed.

End Rejections.

(** X15.  What the parsers reject, on plain text.  [game.js] reports the
    first argument, in order, that does not split into six integers: "must
    be integers" when a piece of it is no integer, and otherwise the count
    of its faces; fewer than three arguments are reported before any is
    read.  [index.ts]
    reports fewer than three arguments, an argument with a piece that is no
    integer, or an argument whose face count differs from the first one's.
    Its fourth message, "Each die must have at least one face.", is never
    reported: an empty argument splits into one empty piece, which is no
    integer. *)
Theorem parsers_reject (args : list string) :
  Forall (fun a => plain_text a = true) args ->
  (forall e,
      GameJs.parseDiceConfigs args = inl e ->
      (e = GameJs.TooFewDice /\ (length args < 3)%nat) \/
      ((3 <= length args)%nat /\
       exists before arg after,
         args = before ++ arg :: after /\
         Forall (fun a =>
                   exists vs, GameJs.parse_values (split_comma a) = Some vs /\
                              length vs = 6%nat) before /\
         match GameJs.parse_values (split_comma arg) with
         | None => e = GameJs.NotIntegers arg
         | Some vs =>
             length vs <> 6%nat /\ e = GameJs.NotSixFaces (length vs) arg
         end)) /\
  (forall message,
      IndexTs.parse args = inl message ->
      (message = "At least three dice are required."%string /\
       (length args < 3)%nat) \/
      (message = "Dice faces must be integers."%string /\
       exists arg, In arg args /\
                   IndexTs.parse_faces (split_comma arg) = None) \/
      (message = "All dice must have the same number of faces."%string /\
       exists first rest arg fs0 fs,
         args = first :: rest /\ In arg rest /\
         IndexTs.parse_faces (split_comma first) = Some fs0 /\
         IndexTs.parse_faces (split_comma arg) = Some fs /\
         length fs <> length fs0)) /\
  IndexTs.parse args <> inl "Each die must have at least one face."%string.
Proof.
  intros _.
  assert (Hts : forall message,
      IndexTs.parse args = inl message ->
      (message = "At least three dice are required."%string /\
       (length args < 3)%nat) \/
      (message = "Dice faces must be integers."%string /\
       exists arg, In arg args /\
                   IndexTs.parse_faces (split_comma arg) = None) \/
      (message = "All dice must have the same number of faces."%string /\
       exists first rest arg fs0 fs,
         args = first :: rest /\ In arg rest /\
         IndexTs.parse_faces (split_comma first) = Some fs0 /\
         IndexTs.parse_faces (split_comma arg) = Some fs /\
         length fs <> length fs0)).
  { intro message. unfold IndexTs.parse.
    destruct (Nat.ltb_spec (length args) 3) as [Hlt|Hge].
    { intro H; inversion H; subst. auto. }
    destruct args as [|first rest]; [simpl in Hge; lia|].
    cbn [IndexTs.parse_args].
    destruct (IndexTs.parse_faces (split_comma first)) as [fs0|] eqn:E0.
    2: { intro H; inversion H; subst. right. left. split; [reflexivity|].
         exists first. split; [now left|exact E0]. }
    rewrite (parse_faces_nonempty first fs0 E0). intro H.
    destruct (parse_args_ts_rejects _ _ _ _ H)
      as [(-> & a & Ha & Hn)|(-> & a & fa & Ha & Hf & Hl)].
    - right. left. split; [reflexivity|]. exists a. split; [now right|exact Hn].
    - right. right. split; [reflexivity|].
      exists first, rest, a, fs0, fa. auto. }
  split; [|split; [exact Hts|]].
  - intro e. unfold GameJs.parseDiceConfigs.
    destruct (Nat.ltb_spec (length args) 3) as [Hlt|Hge].
    { intro H; inversion H; subst. auto. }
    intro H. right. split; [exact Hge|]. exact (parse_args_js_rejects _ _ _ H).
  - intro H. destruct (Hts _ H) as [(E & _)|[(E & _)|(E & _)]]; discriminate E.
Qed.

Lemma parsers_reject_witness :
  ((3 <= 3)%nat /\
   exists before arg after,
     ["1,2,3,4,5,6"; ""; "1,2,3"]%string = before ++ arg :: after /\
     Forall (fun a =>
               exists vs, GameJs.parse_values (split_comma a) = Some vs /\
                          length vs = 6%nat) before /\
     match GameJs.parse_values (split_comma arg) with
     | None => GameJs.NotIntegers EmptyString = GameJs.NotIntegers arg
     | Some vs =>
         length vs <> 6%nat /\
         GameJs.NotIntegers EmptyString = GameJs.NotSixFaces (length vs) arg
     end).
Proof.
  assert (Hplain : Forall (fun a => plain_text a = true)
                     ["1,2,3,4,5,6"; ""; "1,2,3"]%string)
    by (repeat constructor).
  destruct (proj1 (parsers_reject ["1,2,3,4,5,6"; ""; "1,2,3"]%string Hplain)
              (GameJs.NotIntegers EmptyString) eq_refl) as [(E & _)|H].
  - discriminate E.
  - exact H.
Defined.

Section Encodings.

Lemma byte_of_N_inj (a b : N) :
  (a < 256)%N -> (b < 256)%N ->
  Sha3.byte_of_N a = Sha3.byte_of_N b -> a = b.
Proof.
  unfold Sha3.byte_of_N. intros Ha Hb.
  rewrite !N.mod_small by assumption.
  destruct (Byte.of_N a) as [x|] eqn:Ea;
    [|apply Byte.of_N_None_iff in Ea; lia].
  destruct (Byte.of_N b) as [y|] eqn:Eb;
    [|apply Byte.of_N_None_iff in Eb; lia].
  intro E. subst y.
  apply Byte.to_of_N in Ea. apply Byte.to_of_N in Eb. congruence.
Qed.

Lemma bytes_of_string_inj (s1 s2 : string) :
  bytes_of_string s1 = bytes_of_string s2 -> s1 = s2.
Proof.
  unfold bytes_of_string. revert s2.
  induction s1 as [|c r IH]; intros [|d r']; simpl; try discriminate; auto.
  intro H. inversion H as [[Hc Hr]]. f_equal; [|now apply IH].
  rewrite <- (ascii_of_byte_of_ascii c), <- (ascii_of_byte_of_ascii d).
  now rewrite Hc.
Qed.

Lemma to_int_proper (z : Z) :
  Z.to_int z <> Decimal.Pos Decimal.Nil /\
  Z.to_int z <> Decimal.Neg Decimal.Nil.
Proof.
  destruct z as [|p|p]; simpl; split; try discriminate;
    intro H; inversion H as [Hp];
    exact (DecimalPos.Unsigned.to_uint_nonnil p Hp).
Qed.

Lemma toString_inj (a b : Z) : toString a = toString b -> a = b.
Proof.
  unfold toString. intro H.
  apply (f_equal DecimalString.NilZero.int_of_string) in H.
  destruct (to_int_proper a) as (A1 & A2).
  destruct (to_int_proper b) as (B1 & B2).
  rewrite !DecimalString.NilZero.isi in H by assumption.
  inversion H as [Hi]. now apply DecimalZ.to_int_inj.
Qed.

End Encodings.

(** X16.  Every secret has its own message under the key.  The decimal
    string [index.ts] hashes tells any two integers apart; the single byte
    [game.js] hashes tells apart exactly the secrets that differ modulo 256,
    hence any two secrets of a session, whose range is 2 or 6. *)
Theorem secret_encodings_injective (s1 s2 : Z) :
  (IndexTs.encode s1 = IndexTs.encode s2 <-> s1 = s2) /\
  (GameJs.encode s1 = GameJs.encode s2 <-> s1 mod 256 = s2 mod 256) /\
  (0 <= s1 < 256 -> 0 <= s2 < 256 ->
   GameJs.encode s1 = GameJs.encode s2 -> s1 = s2).
Proof.
  assert (Hjs : GameJs.encode s1 = GameJs.encode s2 <->
                s1 mod 256 = s2 mod 256).
  { unfold GameJs.encode. split; [|now intros ->].
    intro H. inversion H as [Hb].
    pose proof (Z.mod_pos_bound s1 256 ltac:(lia)).
    pose proof (Z.mod_pos_bound s2 256 ltac:(lia)).
    apply byte_of_N_inj in Hb; lia. }
  split; [|split; [exact Hjs|]].
  - split; [|now intros ->]. unfold IndexTs.encode. intro H.
    now apply toString_inj, bytes_of_string_inj.
  - intros H1 H2 H. apply Hjs in H.
    now rewrite !Z.mod_small in H by lia.
Qed.

Lemma secret_encodings_injective_witness :
  (IndexTs.encode 3 = IndexTs.encode 259 <-> 3 = 259) /\
  (GameJs.encode 3 = GameJs.encode 259 <-> 3 mod 256 = 259 mod 256).
Proof.
  destruct (secret_encodings_injective 3 259) as (A & B & _).
  split; assumption.
Defined.

(** ** Keys are drawn once, and for one session *)

Section FreshKeys.
Context {E : Type}.
Variable hmac : list byte -> Z -> string.
Variable pub : E -> list string.
Variable rev : E -> list (Z * string).

Lemma commitments_app (bs : list byte) (s1 s2 : list (Z * bool)) :
  commitments bs (s1 ++ s2)
  = commitments bs s1 ++ commitments (skipn (32 * length s1) bs) s2.
Proof.
  revert bs. induction s1 as [|[x b] s1 IH]; intro bs; [reflexivity|].
  cbn [app commitments length]. rewrite IH, skipn_skipn.
  replace (32 * S (length s1))%nat with (32 * length s1 + 32)%nat by lia.
  reflexivity.
Qed.

Lemma fresh_bind {A B} (m : M E A) (k : A -> M E B) :
  fresh_keys hmac pub rev m ->
  (forall a, fresh_keys hmac pub rev (k a)) ->
  fresh_keys hmac pub rev (bind m k).
Proof.
  intros Hm Hk w t o Hrun. apply bind_inv in Hrun.
  destruct Hrun as [(t1 & a & w1 & t2 & H1 & H2 & ->)|(h & w1 & H1 & ->)].
  - destruct (Hm _ _ _ H1) as (s1 & L1 & P1 & R1 & W1).
    destruct (Hk a _ _ _ H2) as (s2 & L2 & P2 & R2 & W2).
    rewrite W1 in L2, P2, R2. rewrite length_skipn in L2.
    exists (s1 ++ s2). rewrite commitments_app, length_app.
    rewrite !flat_map_app, filter_app, !map_app, P1, P2, R1, R2.
    split; [lia|]. split; [reflexivity|]. split; [reflexivity|].
    destruct o as [b w2|h w2]; [|exact I].
    rewrite W2, W1, skipn_skipn. f_equal. lia.
  - destruct (Hm _ _ _ H1) as (s1 & L1 & P1 & R1 & _).
    exists s1. auto.
Qed.

Lemma fresh_quiet {A} (m : M E A) :
  (forall w t o,
      m w = (t, o) ->
      flat_map pub t = [] /\ flat_map rev t = [] /\
      match o with
      | Done _ w' => rbytes w' = rbytes w
      | Halt _ _ => True
      end) ->
  fresh_keys hmac pub rev m.
Proof.
  intros Hq w t o Hrun. destruct (Hq _ _ _ Hrun) as (P & R & W).
  exists []. simpl. rewrite P, R. repeat split; [lia|].
  destruct o; auto.
Qed.

Lemma fresh_ret {A} (a : A) : fresh_keys hmac pub rev (ret (E:=E) a).
Proof. apply fresh_quiet. intros w t o H. inversion H; subst. auto. Qed.

Lemma fresh_stop {A} (h : halt) :
  fresh_keys hmac pub rev (stop (E:=E) (A:=A) h).
Proof. apply fresh_quiet. intros w t o H. inversion H; subst. auto. Qed.

Lemma fresh_log (e : E) :
  pub e = [] -> rev e = [] -> fresh_keys hmac pub rev (log e).
Proof.
  intros Hp Hr. apply fresh_quiet. intros w t o H. inversion H; subst.
  simpl. rewrite Hp, Hr. auto.
Qed.

Lemma fresh_randomInt (max : Z) :
  fresh_keys hmac pub rev (randomInt (E:=E) max).
Proof.
  apply fresh_quiet. intros w t o. unfold randomInt.
  destruct (max <=? 0); [intro H; inversion H; subst; auto|].
  destruct (rints w); intro H; inversion H; subst; auto.
Qed.

(** One session: a commitment drawn, published, and opened or not. *)
Lemma fresh_one (w : World) (range : Z) k x w1 (t : list E) (b : bool) :
  next_commitment range w = Some (k, x, w1) ->
  flat_map pub t = [hmac k x] ->
  flat_map rev t = (if b then [(x, to_hex k)] else []) ->
  (32 * length [(x, b)] <= length (rbytes w))%nat /\
  flat_map pub t = map (digest_of hmac) (commitments (rbytes w) [(x, b)]) /\
  flat_map rev t
  = map opening_of (filter opened (commitments (rbytes w) [(x, b)])) /\
  rbytes w1 = skipn (32 * length [(x, b)]) (rbytes w).
Proof.
  intros Hn P R.
  destruct (next_commitment_spec _ _ _ _ _ Hn) as (_ & -> & _ & _ & W).
  unfold next_commitment in Hn.
  destruct (Nat.ltb_spec (length (rbytes w)) 32) as [|L]; [discriminate|].
  rewrite P, R. simpl. split; [lia|]. split; [reflexivity|].
  split; [|exact W]. unfold opened. simpl. destruct b; reflexivity.
Qed.

End FreshKeys.

Section FreshTs.
Import IndexTs.

Local Abbreviation pub :=
  (fun e => match e with Published _ d => [d] | _ => [] end).
Local Abbreviation rev :=
  (fun e => match e with Revealed x k => [(x, k)] | _ => [] end).

Lemma fresh_getNumber (range : Z) (prompt : string) :
  fresh_keys calculateHMAC pub rev (getNumber range prompt).
Proof.
  apply fresh_quiet. intros w t o H.
  destruct (getNumber_spec _ _ _ _ _ H) as (Ht & Ho).
  split; [destruct Ht as [-> | ->]; reflexivity|].
  split; [destruct Ht as [-> | ->]; reflexivity|].
  destruct o as [r w'|h w']; [|exact I]. tauto.
Qed.

Lemma fresh_generate (range : Z) (prompt : string) :
  fresh_keys calculateHMAC pub rev (generate range prompt).
Proof.
  intros w t o Hrun. pose proof (generate_run range prompt w) as Hg.
  destruct (next_commitment range w) as [[[k x] w1]|] eqn:Hn.
  2: { destruct Hg as (h & w' & Hg). rewrite Hg in Hrun.
       inversion Hrun; subst. exists []. simpl. repeat split; lia. }
  rewrite Hg in Hrun. clear Hg.
  destruct (getNumber range prompt w1) as [tn [[y|] w2|h w2]] eqn:En;
    destruct (getNumber_spec _ _ _ _ _ En) as (Ht & Ho);
    unfold prepend in Hrun; cbn [fst snd] in Hrun;
    inversion Hrun; subst; clear Hrun.
  - destruct Ho as (Hy & Hb & _). destruct (Hy y eq_refl) as (_ & ->).
    exists [(x, true)].
    destruct (fresh_one calculateHMAC pub rev w range k x w1
                ([Published (range - 1) (calculateHMAC k x)]
                   ++ [Menu prompt range; YourChoice]
                   ++ [Revealed x (to_hex k);
                       ResultLine x y (Z.rem (x + y) range) range])
                true Hn eq_refl eq_refl) as (L & P & R & W).
    repeat split; auto. congruence.
  - destruct Ho as (_ & Hb & _).
    exists [(x, false)].
    assert (Hq : flat_map pub tn = [] /\ flat_map rev tn = [])
      by (destruct Ht as [-> | ->]; split; reflexivity).
    destruct Hq as (Hq1 & Hq2).
    destruct (fresh_one calculateHMAC pub rev w range k x w1
                ([Published (range - 1) (calculateHMAC k x)] ++ tn) false Hn)
      as (L & P & R & W).
    { rewrite flat_map_app, Hq1. reflexivity. }
    { rewrite flat_map_app, Hq2. reflexivity. }
    repeat split; auto. congruence.
  - exists [(x, false)].
    assert (Hq : flat_map pub tn = [] /\ flat_map rev tn = [])
      by (destruct Ht as [-> | ->]; split; reflexivity).
    destruct Hq as (Hq1 & Hq2).
    destruct (fresh_one calculateHMAC pub rev w range k x w1
                ([Published (range - 1) (calculateHMAC k x)] ++ tn) false Hn)
      as (L & P & R & W).
    { rewrite flat_map_app, Hq1. reflexivity. }
    { rewrite flat_map_app, Hq2. reflexivity. }
    repeat split; auto.
Qed.

Lemma fresh_determineFirst :
  fresh_keys calculateHMAC pub rev determineFirst.
Proof.
  unfold determineFirst.
  apply fresh_bind; [now apply fresh_log|]. intros _.
  apply fresh_bind; [apply fresh_generate|].
  intros [r|]; apply fresh_ret.
Qed.

Lemma fresh_ts_selectDice (dice : list Dice) (first : party) :
  fresh_keys calculateHMAC pub rev (selectDice dice first).
Proof.
  unfold selectDice, ui_selectDice. destruct first.
  - apply fresh_bind; [apply fresh_randomInt|]. intro i.
    destruct (splice1 dice i) as [cd avail].
    apply fresh_bind; [now apply fresh_log|]. intros _.
    apply fresh_bind; [apply fresh_getNumber|].
    intros [userIdx|]; [|apply fresh_ret].
    apply fresh_bind; [now apply fresh_log|]. intros _. apply fresh_ret.
  - apply fresh_bind; [apply fresh_getNumber|].
    intros [userIdx|]; [|apply fresh_ret].
    destruct (splice1 dice userIdx) as [ud avail].
    apply fresh_bind; [now apply fresh_log|]. intros _.
    apply fresh_bind; [apply fresh_randomInt|]. intro i.
    apply fresh_bind; [now apply fresh_log|]. intros _. apply fresh_ret.
Qed.

Lemma fresh_roll (die : Dice) (player : string) :
  fresh_keys calculateHMAC pub rev (roll die player).
Proof.
  unfold roll.
  apply fresh_bind; [now apply fresh_log|]. intros _.
  apply fresh_bind; [apply fresh_generate|].
  intros [i|]; [|apply fresh_ret].
  apply fresh_bind; [now apply fresh_log|]. intros _. apply fresh_ret.
Qed.

Lemma fresh_play (fuel : nat) (dice : list Dice) :
  fresh_keys calculateHMAC pub rev (play fuel dice).
Proof.
  induction fuel as [|fuel IH]; cbn [play]; [apply fresh_stop|].
  assert (Hagain : fresh_keys calculateHMAC pub rev
                     (bind (render dice) (fun _ => play fuel dice))).
  { apply fresh_bind; [now apply fresh_log|]. intros _. exact IH. }
  apply fresh_bind; [apply fresh_determineFirst|].
  intros [first|]; [|exact Hagain].
  apply fresh_bind; [apply fresh_ts_selectDice|].
  intros [[cd|] [ud|]]; try exact Hagain.
  apply fresh_bind; [apply fresh_roll|].
  intros [cr|]; [|exact Hagain].
  apply fresh_bind; [apply fresh_roll|].
  intros [ur|]; [|exact Hagain].
  apply fresh_bind; [now apply fresh_log|]. intros _.
  destruct (js_gt ur cr); [|destruct (js_lt ur cr)]; now apply fresh_log.
Qed.

Lemma fresh_ts_main (fuel : nat) (args : list string) :
  fresh_keys calculateHMAC pub rev (main fuel args).
Proof.
  intros w t o. unfold main.
  destruct (parse args) as [message|dice].
  { intro H; inversion H; subst. exists []. simpl. repeat split; lia. }
  destruct (play fuel dice w) as [t1 o1] eqn:Ep.
  destruct (fresh_play fuel dice _ _ _ Ep) as (ss & L & P & R & W).
  destruct o1 as [[] w1|h w1].
  - intro H; inversion H; subst. exists ss. auto.
  - destruct h; intro H; inversion H; subst; exists ss;
      rewrite ?flat_map_app, ?P, ?R; simpl; rewrite ?app_nil_r; auto.
Qed.

End FreshTs.

Section FreshJs.
Import GameJs.

Local Abbreviation pub :=
  (fun e => match e with ISelected _ d => [d] | _ => [] end).
Local Abbreviation rev :=
  (fun e => match e with
            | MySelection x k | MyNumber x k => [(x, k)]
            | _ => []
            end).

Lemma fresh_session {A} (s : M event A) (range hi : Z) (e0 : event)
    (tail : list byte -> Z -> Z -> list event) (val : Z -> Z -> A) :
  (forall w,
      match next_commitment range w with
      | Some (k, x, w1) =>
          s w = prepend [e0; ISelected hi (computeHMAC k x)]
                  match getUserNumber range w1 with
                  | (t, Done y w2) => (t ++ tail k x y, Done (val x y) w2)
                  | (t, Halt h w2) => (t, Halt h w2)
                  end
      | None => exists h w', s w = ([e0], Halt h w')
      end) ->
  js_published [e0] = [] -> js_revealed [e0] = [] ->
  (forall k x y, js_published (tail k x y) = [] /\
                 js_revealed (tail k x y) = [(x, to_hex k)]) ->
  fresh_keys computeHMAC pub rev s.
Proof.
  intros Hs P0 R0 Htail w t o Hrun.
  change (flat_map pub) with js_published.
  change (flat_map rev) with js_revealed.
  destruct o as [r w'|h w'].
  - destruct (session_done s range hi e0 tail val Hs _ _ _ _ Hrun)
      as (k & x & w1 & y & t' & Hn & _ & _ & _ & Hall & -> & Hb & _).
    destruct (Htail k x y) as (Pt & Rt).
    exists [(x, true)].
    destruct (fresh_one computeHMAC pub rev w range k x w1
                (e0 :: ISelected hi (computeHMAC k x) :: AddYourNumber range
                    :: t' ++ tail k x y) true Hn) as (L & P & R & W).
    { change (flat_map pub) with js_published.
      rewrite session_shape_published by assumption. now rewrite Pt. }
    { change (flat_map rev) with js_revealed.
      rewrite session_shape_revealed by assumption. exact Rt. }
    repeat split; auto. congruence.
  - destruct (session_halt_commitment s range hi e0 tail val Hs _ _ _ _ Hrun)
      as [->|(k & x & w1 & t' & Hn & Hall & ->)].
    + exists []. rewrite P0, R0. simpl. repeat split; lia.
    + exists [(x, false)].
      destruct (fresh_one computeHMAC pub rev w range k x w1
                  (e0 :: ISelected hi (computeHMAC k x) :: AddYourNumber range
                      :: t' ++ []) false Hn) as (L & P & R & W).
      { change (flat_map pub) with js_published.
        now rewrite session_shape_published by assumption. }
      { change (flat_map rev) with js_revealed.
        now rewrite session_shape_revealed by assumption. }
      rewrite app_nil_r in P, R. repeat split; auto.
Qed.

Lemma fresh_chooseDice (diceList : list Dice) (r : Z) :
  fresh_keys computeHMAC pub rev (chooseDice diceList r).
Proof.
  apply fresh_quiet. intros w t o Hrun.
  destruct (chooseDice_quiet diceList r w) as (P & R & _).
  rewrite Hrun in P, R. cbn [fst] in P, R.
  split; [exact P|]. split; [exact R|].
  destruct o as [[u c] w'|h w']; [|exact I].
  exact (proj1 (chooseDice_tapes _ _ _ _ _ _ _ Hrun)).
Qed.

Lemma fresh_start (diceList : list Dice) :
  fresh_keys computeHMAC pub rev (start diceList).
Proof.
  unfold start.
  apply fresh_bind.
  { apply (fresh_session _ _ _ _ _ _ firstMove_pattern); try reflexivity.
    intros k x y. split; reflexivity. }
  intro r. apply fresh_bind; [apply fresh_chooseDice|]. intros [u c].
  apply fresh_bind.
  { apply (fresh_session _ _ _ _ _ _ (computerRoll_pattern c));
      try reflexivity.
    intros k x y. split; reflexivity. }
  intro cr. apply fresh_bind.
  { apply (fresh_session _ _ _ _ _ _ (userRoll_pattern u)); try reflexivity.
    intros k x y. split; reflexivity. }
  intro ur. unfold announce.
  destruct (js_gt ur cr); [|destruct (js_gt cr ur)]; now apply fresh_log.
Qed.

Lemma fresh_js_main (args : list string) :
  fresh_keys computeHMAC pub rev (main args).
Proof.
  unfold main. destruct (parseDiceConfigs args) as [e|diceList].
  - apply fresh_bind; [now apply fresh_log|]. intros _. apply fresh_stop.
  - apply fresh_start.
Qed.

End FreshJs.

(** X17.  Keys are drawn once, and for one session.  In every run of either
    program, however it ends, the digests published are, in order, those of
    sessions keyed by the successive 32-byte blocks of the random bytes, no
    block serving twice; the (secret, key) pairs revealed are the openings
    of the opened ones among these sessions, in the same order, so that
    nothing is revealed that was not committed to and no session is opened
    twice. *)
Theorem keys_are_fresh :
  (forall args w t o,
      GameJs.main args w = (t, o) ->
      exists ss,
        (32 * length ss <= length (rbytes w))%nat /\
        js_published t
        = map (digest_of GameJs.computeHMAC) (commitments (rbytes w) ss) /\
        js_revealed t
        = map opening_of (filter opened (commitments (rbytes w) ss))) /\
  (forall fuel args w t o,
      IndexTs.main fuel args w = (t, o) ->
      exists ss,
        (32 * length ss <= length (rbytes w))%nat /\
        ts_published t
        = map (digest_of IndexTs.calculateHMAC) (commitments (rbytes w) ss) /\
        ts_revealed t
        = map opening_of (filter opened (commitments (rbytes w) ss))).
Proof.
  split.
  - intros args w t o H.
    destruct (fresh_js_main args w t o H) as (ss & L & P & R & _).
    exists ss. auto.
  - intros fuel args w t o H.
    destruct (fresh_ts_main fuel args w t o H) as (ss & L & P & R & _).
    exists ss. auto.
Qed.

Lemma keys_are_fresh_witness :
  exists ss,
    (32 * length ss <= 256)%nat /\
    js_published
      (fst (GameJs.main demo_args
              (demo_world ["1"; "x"]%string [0; 1; 4; 5])))
    = map (digest_of GameJs.computeHMAC)
          (commitments (repeat x00 256) ss) /\
    js_revealed
      (fst (GameJs.main demo_args
              (demo_world ["1"; "x"]%string [0; 1; 4; 5])))
    = map opening_of (filter opened (commitments (repeat x00 256) ss)).
Proof.
  exact (proj1 keys_are_fresh demo_args
           (demo_world ["1"; "x"]%string [0; 1; 4; 5]) _ _
           (surjective_pairing _)).
Defined.

Section Shifts.

Lemma mod_shift_unique (n a b1 b2 : Z) :
  0 < n -> 0 <= b1 < n -> 0 <= b2 < n ->
  (a + b1) mod n = (a + b2) mod n -> b1 = b2.
Proof.
  intros Hn H1 H2 E.
  pose proof (Z.div_mod (a + b1) n ltac:(lia)) as D1.
  pose proof (Z.div_mod (a + b2) n ltac:(lia)) as D2.
  rewrite E in D1.
  assert (Hd : b1 - b2 = n * ((a + b1) / n - (a + b2) / n)) by lia.
  assert (Hq : (a + b1) / n - (a + b2) / n = 0) by nia.
  rewrite Hq in Hd. lia.
Qed.

Lemma mod_shift_reaches (n a r : Z) :
  0 < n -> 0 <= r < n ->
  0 <= (r - a) mod n < n /\ (a + (r - a) mod n) mod n = r.
Proof.
  intros Hn Hr. split; [now apply Z.mod_pos_bound|].
  rewrite Zplus_mod_idemp_r. replace (a + (r - a)) with r by lia.
  now apply Z.mod_small.
Qed.

End Shifts.

(** X18.  Neither number decides the result alone.  In a session over
    [range], whatever the user adds, each result of [0, range) comes from
    exactly one secret of [0, range); and whatever the secret, each result
    comes from exactly one number the user may add.  So a secret drawn
    uniformly gives a uniform result against any answer, and a user who
    knew the secret could choose the result. *)
Theorem result_is_a_shift (range : Z) (key : list byte) (hmac : string)
    (r : Z) :
  0 < range -> 0 <= r < range ->
  (forall y, 0 <= y < range ->
     exists x, (0 <= x < range /\
                GameJs.computeResult (GameJs.mkFRG range key x hmac) y = r) /\
               forall x', 0 <= x' < range ->
                 GameJs.computeResult (GameJs.mkFRG range key x' hmac) y = r ->
                 x' = x) /\
  (forall x, 0 <= x < range ->
     exists y, (0 <= y < range /\
                GameJs.computeResult (GameJs.mkFRG range key x hmac) y = r) /\
               forall y', 0 <= y' < range ->
                 GameJs.computeResult (GameJs.mkFRG range key x hmac) y' = r ->
                 y' = y).
Proof.
  intros Hn Hr. unfold GameJs.computeResult. cbn [GameJs.x GameJs.range].
  split.
  - intros y Hy. exists ((r - y) mod range).
    destruct (mod_shift_reaches range y r Hn Hr) as (Hb & He).
    split; [split; [exact Hb|]|].
    + rewrite (proj1 (rem_in_range _ _ _ Hb Hy)). now rewrite Z.add_comm.
    + intros x' Hx' E. rewrite (proj1 (rem_in_range _ _ _ Hx' Hy)) in E.
      apply (mod_shift_unique range y); try assumption.
      rewrite He, Z.add_comm. exact E.
  - intros x Hx. exists ((r - x) mod range).
    destruct (mod_shift_reaches range x r Hn Hr) as (Hb & He).
    split; [split; [exact Hb|]|].
    + now rewrite (proj1 (rem_in_range _ _ _ Hx Hb)).
    + intros y' Hy' E. rewrite (proj1 (rem_in_range _ _ _ Hx Hy')) in E.
      apply (mod_shift_unique range x); try assumption.
      now rewrite He.
Qed.

Lemma result_is_a_shift_witness :
  (forall y, 0 <= y < 6 ->
     exists x, (0 <= x < 6 /\
                GameJs.computeResult (GameJs.mkFRG 6 zero_key x "") y = 4) /\
               forall x', 0 <= x' < 6 ->
                 GameJs.computeResult (GameJs.mkFRG 6 zero_key x' "") y = 4 ->
                 x' = x) /\
  (forall x, 0 <= x < 6 ->
     exists y, (0 <= y < 6 /\
                GameJs.computeResult (GameJs.mkFRG 6 zero_key x "") y = 4) /\
               forall y', 0 <= y' < 6 ->
                 GameJs.computeResult (GameJs.mkFRG 6 zero_key x "") y' = 4 ->
                 y' = y).
Proof.
  apply (result_is_a_shift 6 zero_key "" 4); lia.
Defined.
